(** * images-gl: the viewer-side chunk scheduler and chunk manager

    A shallow embedding of
    - [createSpatialBatches] (the image viewer component), and
    - [ImageChunk] / [ChunkManager] (render/image/chunk-manager),
    together with the properties the design document states about them. *)

From Stdlib Require Import ZArith Lia Ascii.
From Stdlib.Strings Require Import Byte.
From stdpp Require Import base numbers list strings pretty gmap fin_maps.

(** ** Chunk identifiers

    Both the viewer and [ImageChunk]'s constructor build an id with the
    template literal [`${x}_${y}`].  Grid indices are non-negative integers
    far below 2^53, for which JavaScript's number-to-string conversion is
    the plain decimal numeral; [pretty] on [nat] is that numeral. *)

Definition chunkId (x y : nat) : string := pretty x +:+ "_" +:+ pretty y.

(** A string without the separator character of [chunkId]. *)
Fixpoint no_sep (s : string) : Prop :=
  match s with
  | EmptyString => True
  | String c s' => c ≠ "_"%char ∧ no_sep s'
  end.

Module Scheduler.

(** [for (let i = start; i < bound; i += 2) body(i)], threading the state
    the body mutates.  The loop runs at most [bound] times, which is the
    fuel every caller passes. *)
Fixpoint for2 {St : Type} (fuel i bound : nat) (body : nat → St → St) (s : St) : St :=
  match fuel with
  | O => s
  | S fuel' =>
      if (i <? bound)%nat then for2 fuel' (i + 2) bound body (body i s) else s
  end.

(** One batch: the nested loops
    [for (y = y0; y < gridHeight; y += 2) for (x = x0; x < gridWidth; x += 2)
       batch.push(`${x}_${y}`)].
    (The [visited] set of the source is written but never read.) *)
Definition spatialBatch (x0 y0 gridWidth gridHeight : nat) : list string :=
  for2 gridHeight y0 gridHeight
    (λ y batch,
       for2 gridWidth x0 gridWidth (λ x batch, batch ++ [chunkId x y]) batch)
    [].

(** [if (batch.length > 0) batches.push(batch)] *)
Definition pushIfNonEmpty (batch : list string) (batches : list (list string))
  : list (list string) :=
  if (0 <? length batch)%nat then batches ++ [batch] else batches.

Definition batch1 := spatialBatch 1 1.  (* odd x, odd y *)
Definition batch2 := spatialBatch 0 0.  (* even x, even y *)
Definition batch3 := spatialBatch 1 0.  (* odd x, even y *)
Definition batch4 := spatialBatch 0 1.  (* even x, odd y *)

Definition createSpatialBatches (gridWidth gridHeight : nat) : list (list string) :=
  let batches := [] in
  let batches := pushIfNonEmpty (batch1 gridWidth gridHeight) batches in
  let batches := pushIfNonEmpty (batch2 gridWidth gridHeight) batches in
  let batches := pushIfNonEmpty (batch3 gridWidth gridHeight) batches in
  let batches := pushIfNonEmpty (batch4 gridWidth gridHeight) batches in
  batches.

(** The indices a stride-2 loop visits, as a list. *)
Fixpoint stride2 (fuel i bound : nat) : list nat :=
  match fuel with
  | O => []
  | S fuel' => if (i <? bound)%nat then i :: stride2 fuel' (i + 2) bound else []
  end.

End Scheduler.

(** ** ImageChunk *)

Inductive ChunkStatus : Set :=
  | UNREQUESTED   (* "unrequested" *)
  | REQUESTING    (* "requesting" *)
  | IN_CPU        (* "in_cpu": received, not yet uploaded *)
  | IN_GPU        (* "in_gpu": uploaded to WebGL *)
  | ERROR.        (* "error" *)

Global Instance ChunkStatus_eq_dec : EqDecision ChunkStatus.
Proof. solve_decision. Defined.

Record ChunkInfo : Type := {
  ci_x : Z;            (* pixel origin *)
  ci_y : Z;
  ci_width : Z;
  ci_height : Z;
  ci_chunk_x : nat;    (* grid indices *)
  ci_chunk_y : nat;
}.

Record ImageMetadata : Type := {
  total_width : Z;
  total_height : Z;
  chunk_size : Z;
  chunks_x : Z;
  chunks_y : Z;
  md_chunks : list ChunkInfo;
}.

(** A [WebGLTexture] handle; [createTexture] hands out fresh ones. *)
Definition WebGLTexture := nat.

(** The calls the manager makes on the WebGL2 context, in order. *)
Inductive GlCall : Type :=
  | GlCreateTexture (t : WebGLTexture)
  | GlBindTexture (t : WebGLTexture)
  | GlTexParameteri (pname value : string)
  | GlTexImage2D (t : WebGLTexture) (width height : Z) (pixels : list byte)
  | GlDeleteTexture (t : WebGLTexture).

Record GlContext : Type := {
  next_texture : WebGLTexture;
  gl_calls : list GlCall;
}.

Definition gl_call (c : GlCall) (gl : GlContext) : GlContext :=
  {| next_texture := next_texture gl; gl_calls := gl_calls gl ++ [c] |}.

Definition gl_createTexture (gl : GlContext) : WebGLTexture * GlContext :=
  let t := next_texture gl in
  (t, {| next_texture := S t; gl_calls := gl_calls gl ++ [GlCreateTexture t] |}).

Module ImageChunk.

Record t : Type := mk {
  id : string;
  x : Z;
  y : Z;
  width : Z;
  height : Z;
  chunk_x : nat;
  chunk_y : nat;
  status : ChunkStatus;
  data : option (list byte);
  texture : option WebGLTexture;
  lastAccessed : nat;
}.

(** [constructor(chunkInfo)]; [now] is the reading of [Date.now()]. *)
Definition create (chunkInfo : ChunkInfo) (now : nat) : t :=
  {| id := chunkId (ci_chunk_x chunkInfo) (ci_chunk_y chunkInfo);
     x := ci_x chunkInfo;
     y := ci_y chunkInfo;
     width := ci_width chunkInfo;
     height := ci_height chunkInfo;
     chunk_x := ci_chunk_x chunkInfo;
     chunk_y := ci_chunk_y chunkInfo;
     status := UNREQUESTED;
     data := None;
     texture := None;
     lastAccessed := now |}.

Definition updateStatus (st : ChunkStatus) (now : nat) (c : t) : t :=
  {| id := id c; x := x c; y := y c; width := width c; height := height c;
     chunk_x := chunk_x c; chunk_y := chunk_y c;
     status := st;
     data := data c;
     texture := texture c;
     lastAccessed :=
       match st with
       | IN_CPU | IN_GPU => now
       | _ => lastAccessed c
       end |}.

(** [chunk.width = width; chunk.height = height] *)
Definition setSize (w h : Z) (c : t) : t :=
  {| id := id c; x := x c; y := y c; width := w; height := h;
     chunk_x := chunk_x c; chunk_y := chunk_y c;
     status := status c; data := data c; texture := texture c;
     lastAccessed := lastAccessed c |}.

Definition setData (pixels : list byte) (now : nat) (c : t) : t :=
  updateStatus IN_CPU now
    {| id := id c; x := x c; y := y c; width := width c; height := height c;
       chunk_x := chunk_x c; chunk_y := chunk_y c;
       status := status c; data := Some pixels; texture := texture c;
       lastAccessed := lastAccessed c |}.

Definition setTexture (tex : WebGLTexture) (now : nat) (c : t) : t :=
  updateStatus IN_GPU now
    {| id := id c; x := x c; y := y c; width := width c; height := height c;
       chunk_x := chunk_x c; chunk_y := chunk_y c;
       status := status c; data := data c; texture := Some tex;
       lastAccessed := lastAccessed c |}.

(** [cleanup(gl)]: delete the texture if there is one, drop the pixels,
    back to [UNREQUESTED]. *)
Definition cleanup (gl : GlContext) (c : t) : t * GlContext :=
  ({| id := id c; x := x c; y := y c; width := width c; height := height c;
      chunk_x := chunk_x c; chunk_y := chunk_y c;
      status := UNREQUESTED; data := None; texture := None;
      lastAccessed := lastAccessed c |},
   match texture c with
   | Some tex => gl_call (GlDeleteTexture tex) gl
   | None => gl
   end).

End ImageChunk.

(** ** Chunk blobs *)

(** [DataView.getUint32(offset, false)]: four bytes, big-endian.  Reading
    past the end is a [RangeError], here [None]. *)
Definition getUint32 (bytes : list byte) (offset : nat) : option Z :=
  match bytes !! offset, bytes !! (offset + 1),
        bytes !! (offset + 2), bytes !! (offset + 3) with
  | Some b0, Some b1, Some b2, Some b3 =>
      Some (Z.of_N (Byte.to_N b0) * 2 ^ 24 + Z.of_N (Byte.to_N b1) * 2 ^ 16
            + Z.of_N (Byte.to_N b2) * 2 ^ 8 + Z.of_N (Byte.to_N b3))%Z
  | _, _, _, _ => None
  end.

Inductive ChunkError : Type :=
  | FetchFailed                              (* import or invoke rejected *)
  | DataTypeError                            (* neither ArrayBuffer nor Uint8Array *)
  | DataTooShort (len : nat)                 (* fewer than 8 bytes *)
  | OutOfBounds                              (* RangeError of the DataView *)
  | SizeMismatch (expected : Z) (actual : nat).

(** The framing checks of [processQueue]: width(4) + height(4) + RGBA
    pixels.  [width * height * 4] is computed on JavaScript numbers; a
    typed array is shorter than 2^53 bytes, and below 2^53 the product is
    exact, so the comparison coincides with the one on integers. *)
Definition parseChunkData (chunkData : list byte)
  : ChunkError + (Z * Z * list byte) :=
  if (length chunkData <? 8)%nat then inl (DataTooShort (length chunkData))
  else
    match getUint32 chunkData 0, getUint32 chunkData 4 with
    | Some width, Some height =>
        let pixels := drop 8 chunkData in
        let expectedPixelsSize := (width * height * 4)%Z in
        if decide (Z.of_nat (length pixels) ≠ expectedPixelsSize)
        then inl (SizeMismatch expectedPixelsSize (length pixels))
        else inr (width, height, pixels)
    | _, _ => inl OutOfBounds
    end.

(** ** ChunkManager and the suspended requests *)

(** What [invoke("get_image_chunk", ...)] settles with. *)
Inductive FetchResult : Type :=
  | FetchRejected                    (* the promise rejects *)
  | FetchOther                       (* a value that is no byte buffer *)
  | FetchBytes (chunkData : list byte).

(** How the WebGL side of one upload goes. *)
Inductive GpuOutcome : Set :=
  | CreateTextureNull     (* [createTexture()] returns null *)
  | TexImageThrows        (* a call on the new texture throws *)
  | UploadOk              (* upload and ready callback return *)
  | ReadyCallbackThrows.  (* [onChunkReady(chunk)] throws *)

(** The console lines that trace the life of a chunk. *)
Inductive LogLine : Type :=
  | LogChunkMissing (chunkId : string)
  | LogSkipRequest (chunkId : string) (st : ChunkStatus)
  | LogStartRequest (chunkId : string)
  | LogDataReceived (chunkId : string) (bytes : nat)
  | LogRequestFailed (chunkId : string) (e : option ChunkError)
  | LogGlUnavailable
  | LogUploaded (chunkId : string)
  | LogUploadFailed (chunkId : string)
  | LogCleanup.

Global Instance ChunkError_eq_dec : EqDecision ChunkError.
Proof. solve_decision. Defined.

Global Instance LogLine_eq_dec : EqDecision LogLine.
Proof. solve_decision. Defined.

(** An invocation of [processQueue] suspended at an [await]: it keeps its
    local [chunkId] and its reference [chunk] to the object. *)
Inductive Phase : Set :=
  | AwaitFetch     (* at [await invoke(...)] *)
  | AwaitUpload.   (* at [await this.uploadChunkToGPU(chunk)] *)

Global Instance Phase_eq_dec : EqDecision Phase.
Proof. solve_decision. Defined.

Record Task : Type := {
  t_chunkId : string;
  t_chunk : nat;
  t_phase : Phase;
}.

(** The manager's fields, the objects they refer to, and the environment.
    [ImageChunk] objects live in [heap] and are referred to by address:
    the map and the suspended requests may hold the same object, or, after
    a re-initialisation, different objects with the same id. *)
Record World : Type := mkWorld {
  chunks : gmap string nat;            (* Map<string, ImageChunk> *)
  metadata : option ImageMetadata;
  gl : bool;                           (* a WebGL context is installed *)
  requestQueue : list string;
  activeRequests : Z;
  onChunkReady : bool;                 (* a ready callback is installed *)
  currentFilePath : option string;
  heap : list ImageChunk.t;
  tasks : list Task;
  glctx : GlContext;
  console : list LogLine;
  clock : nat;                         (* what [Date.now()] returns *)
}.

Definition maxConcurrentRequests : Z := 3.

(** [new ChunkManager()] *)
Definition newWorld : World :=
  {| chunks := ∅; metadata := None; gl := false; requestQueue := [];
     activeRequests := 0; onChunkReady := false; currentFilePath := None;
     heap := []; tasks := [];
     glctx := {| next_texture := 0; gl_calls := [] |};
     console := []; clock := 0 |}.

(** Field assignments. *)
Definition with_chunks (v : gmap string nat) (w : World) : World :=
  {| chunks := v; metadata := metadata w; gl := gl w;
     requestQueue := requestQueue w; activeRequests := activeRequests w;
     onChunkReady := onChunkReady w; currentFilePath := currentFilePath w;
     heap := heap w; tasks := tasks w; glctx := glctx w;
     console := console w; clock := clock w |}.

Definition with_metadata (v : option ImageMetadata) (w : World) : World :=
  {| chunks := chunks w; metadata := v; gl := gl w;
     requestQueue := requestQueue w; activeRequests := activeRequests w;
     onChunkReady := onChunkReady w; currentFilePath := currentFilePath w;
     heap := heap w; tasks := tasks w; glctx := glctx w;
     console := console w; clock := clock w |}.

Definition with_gl (v : bool) (w : World) : World :=
  {| chunks := chunks w; metadata := metadata w; gl := v;
     requestQueue := requestQueue w; activeRequests := activeRequests w;
     onChunkReady := onChunkReady w; currentFilePath := currentFilePath w;
     heap := heap w; tasks := tasks w; glctx := glctx w;
     console := console w; clock := clock w |}.

Definition with_requestQueue (v : list string) (w : World) : World :=
  {| chunks := chunks w; metadata := metadata w; gl := gl w;
     requestQueue := v; activeRequests := activeRequests w;
     onChunkReady := onChunkReady w; currentFilePath := currentFilePath w;
     heap := heap w; tasks := tasks w; glctx := glctx w;
     console := console w; clock := clock w |}.

Definition with_activeRequests (v : Z) (w : World) : World :=
  {| chunks := chunks w; metadata := metadata w; gl := gl w;
     requestQueue := requestQueue w; activeRequests := v;
     onChunkReady := onChunkReady w; currentFilePath := currentFilePath w;
     heap := heap w; tasks := tasks w; glctx := glctx w;
     console := console w; clock := clock w |}.

Definition with_onChunkReady (v : bool) (w : World) : World :=
  {| chunks := chunks w; metadata := metadata w; gl := gl w;
     requestQueue := requestQueue w; activeRequests := activeRequests w;
     onChunkReady := v; currentFilePath := currentFilePath w;
     heap := heap w; tasks := tasks w; glctx := glctx w;
     console := console w; clock := clock w |}.

Definition with_currentFilePath (v : option string) (w : World) : World :=
  {| chunks := chunks w; metadata := metadata w; gl := gl w;
     requestQueue := requestQueue w; activeRequests := activeRequests w;
     onChunkReady := onChunkReady w; currentFilePath := v; heap := heap w;
     tasks := tasks w; glctx := glctx w; console := console w;
     clock := clock w |}.

Definition with_heap (v : list ImageChunk.t) (w : World) : World :=
  {| chunks := chunks w; metadata := metadata w; gl := gl w;
     requestQueue := requestQueue w; activeRequests := activeRequests w;
     onChunkReady := onChunkReady w; currentFilePath := currentFilePath w;
     heap := v; tasks := tasks w; glctx := glctx w; console := console w;
     clock := clock w |}.

Definition with_tasks (v : list Task) (w : World) : World :=
  {| chunks := chunks w; metadata := metadata w; gl := gl w;
     requestQueue := requestQueue w; activeRequests := activeRequests w;
     onChunkReady := onChunkReady w; currentFilePath := currentFilePath w;
     heap := heap w; tasks := v; glctx := glctx w; console := console w;
     clock := clock w |}.

Definition with_glctx (v : GlContext) (w : World) : World :=
  {| chunks := chunks w; metadata := metadata w; gl := gl w;
     requestQueue := requestQueue w; activeRequests := activeRequests w;
     onChunkReady := onChunkReady w; currentFilePath := currentFilePath w;
     heap := heap w; tasks := tasks w; glctx := v; console := console w;
     clock := clock w |}.

Definition with_console (v : list LogLine) (w : World) : World :=
  {| chunks := chunks w; metadata := metadata w; gl := gl w;
     requestQueue := requestQueue w; activeRequests := activeRequests w;
     onChunkReady := onChunkReady w; currentFilePath := currentFilePath w;
     heap := heap w; tasks := tasks w; glctx := glctx w; console := v;
     clock := clock w |}.

Definition with_clock (v : nat) (w : World) : World :=
  {| chunks := chunks w; metadata := metadata w; gl := gl w;
     requestQueue := requestQueue w; activeRequests := activeRequests w;
     onChunkReady := onChunkReady w; currentFilePath := currentFilePath w;
     heap := heap w; tasks := tasks w; glctx := glctx w;
     console := console w; clock := v |}.

Definition log (l : LogLine) (w : World) : World :=
  with_console (console w ++ [l]) w.

(** Mutation of the object at address [a]. *)
Definition modify_chunk (a : nat) (f : ImageChunk.t → ImageChunk.t) (w : World)
  : World :=
  with_heap (alter f a (heap w)) w.

(** The object the manager's map holds for an id. *)
Definition chunkOf (w : World) (chunkId : string) : option ImageChunk.t :=
  chunks w !! chunkId ≫= λ a, heap w !! a.

Definition setWebGLContext (w : World) : World := with_gl true w.

Definition setOnChunkReady (w : World) : World := with_onChunkReady true w.

(** [const chunk = new ImageChunk(chunkInfo); this.chunks.set(chunk.id, chunk)] *)
Definition addChunk (chunkInfo : ChunkInfo) (w : World) : World :=
  let chunk := ImageChunk.create chunkInfo (clock w) in
  let a := length (heap w) in
  with_chunks (<[ImageChunk.id chunk := a]> (chunks w))
    (with_heap (heap w ++ [chunk]) w).

(** [this.metadata = metadata; this.metadata.chunks.forEach(...)] *)
Definition installMetadata (md : ImageMetadata) (w : World) : World :=
  let w := with_metadata (Some md) w in
  foldl (λ w chunkInfo, addChunk chunkInfo w) w (md_chunks md).

Definition initializeChunksFromMetadata
    (filePath : string) (md : ImageMetadata) (w : World) : World :=
  installMetadata md (with_currentFilePath (Some filePath) w).

(** [initializeChunks(filePath)] stores the path, awaits the metadata of
    the backend and installs it when it arrives; if the backend rejects,
    nothing else happens. *)
Definition initializeChunks_start (filePath : string) (w : World) : World :=
  with_currentFilePath (Some filePath) w.

Definition initializeChunks_resume (md : ImageMetadata) (w : World) : World :=
  installMetadata md w.

(** A request that has just been started and waits for the backend. *)
Definition newTask (chunkId : string) (a : nat) : Task :=
  {| t_chunkId := chunkId; t_chunk := a; t_phase := AwaitFetch |}.

(** [processQueue], up to its first [await]. *)
Definition processQueue (w : World) : World :=
  if bool_decide (maxConcurrentRequests ≤ activeRequests w)%Z
     || bool_decide (length (requestQueue w) = 0)
  then w
  else
    match requestQueue w with
    | [] => w
    | chunkId :: rest =>
        let w := with_requestQueue rest w in          (* shift() *)
        if bool_decide (chunkId = "") then w          (* if (!chunkId) return *)
        else
          let w := with_activeRequests (activeRequests w + 1) w in
          match chunks w !! chunkId with
          | None => with_activeRequests (activeRequests w - 1) w
          | Some a =>
              let w := modify_chunk a
                         (ImageChunk.updateStatus REQUESTING (clock w)) w in
              let w := log (LogStartRequest chunkId) w in
              with_tasks (tasks w ++ [newTask chunkId a]) w
          end
    end.

(** The statuses for which [requestChunk] returns without enqueueing. *)
Definition skipsRequest (st : ChunkStatus) : bool :=
  match st with
  | REQUESTING | IN_CPU | IN_GPU => true
  | UNREQUESTED | ERROR => false
  end.

Definition requestChunk (chunkId : string) (w : World) : World :=
  match chunks w !! chunkId with
  | None => log (LogChunkMissing chunkId) w
  | Some a =>
      match heap w !! a with
      | None => w
      | Some chunk =>
          if skipsRequest (ImageChunk.status chunk)
          then log (LogSkipRequest chunkId (ImageChunk.status chunk)) w
          else processQueue (with_requestQueue (requestQueue w ++ [chunkId]) w)
      end
  end.

(** The [catch] block of [uploadChunkToGPU]. *)
Definition uploadFailed (a : nat) (chunk : ImageChunk.t) (w : World) : World :=
  modify_chunk a (ImageChunk.updateStatus ERROR (clock w))
    (log (LogUploadFailed (ImageChunk.id chunk)) w).

(** [createTexture()], [bindTexture] and the four [texParameteri] calls
    (clamp to edge, nearest filtering). *)
Definition gl_prepareTexture (glc : GlContext) : WebGLTexture * GlContext :=
  let '(tex, glc) := gl_createTexture glc in
  let glc := gl_call (GlBindTexture tex) glc in
  let glc := gl_call (GlTexParameteri "TEXTURE_WRAP_S" "CLAMP_TO_EDGE") glc in
  let glc := gl_call (GlTexParameteri "TEXTURE_WRAP_T" "CLAMP_TO_EDGE") glc in
  let glc := gl_call (GlTexParameteri "TEXTURE_MIN_FILTER" "NEAREST") glc in
  let glc := gl_call (GlTexParameteri "TEXTURE_MAG_FILTER" "NEAREST") glc in
  (tex, glc).

(** [texImage2D(..., chunk.width, chunk.height, ..., chunk.data)],
    [chunk.setTexture(texture)] and the console line. *)
Definition storeTexture (a : nat) (chunk : ImageChunk.t) (pixels : list byte)
    (tex : WebGLTexture) (w : World) : World :=
  let w := with_glctx
             (gl_call (GlTexImage2D tex (ImageChunk.width chunk)
                         (ImageChunk.height chunk) pixels) (glctx w)) w in
  let w := modify_chunk a (ImageChunk.setTexture tex (clock w)) w in
  log (LogUploaded (ImageChunk.id chunk)) w.

(** The [try] block of [uploadChunkToGPU] with its [catch]. *)
Definition tryUpload (a : nat) (chunk : ImageChunk.t) (pixels : list byte)
    (g : GpuOutcome) (w : World) : World :=
  match g with
  | CreateTextureNull => uploadFailed a chunk w
  | _ =>
      let '(tex, glc) := gl_prepareTexture (glctx w) in
      let w := with_glctx glc w in
      match g with
      | TexImageThrows => uploadFailed a chunk w
      | _ =>
          let w := storeTexture a chunk pixels tex w in
          match onChunkReady w, g with
          | true, ReadyCallbackThrows => uploadFailed a chunk w
          | _, _ => w
          end
      end
  end.

(** [uploadChunkToGPU(chunk)]; it contains no [await] and catches its own
    exceptions, so the promise it returns always fulfils. *)
Definition uploadChunkToGPU (a : nat) (g : GpuOutcome) (w : World) : World :=
  match heap w !! a with
  | None => w
  | Some chunk =>
      match gl w, ImageChunk.data chunk with
      | true, Some pixels => tryUpload a chunk pixels g w
      | _, _ => log LogGlUnavailable w
      end
  end.

(** What the [try] block has in hand once the [await]s on the backend
    are over. *)
Definition received (r : FetchResult) : ChunkError + (Z * Z * list byte) :=
  match r with
  | FetchRejected => inl FetchFailed
  | FetchOther => inl DataTypeError
  | FetchBytes chunkData => parseChunkData chunkData
  end.

(** The [catch] block of [processQueue]. *)
Definition requestFailed (tk : Task) (e : option ChunkError) (w : World) : World :=
  modify_chunk (t_chunk tk) (ImageChunk.updateStatus ERROR (clock w))
    (log (LogRequestFailed (t_chunkId tk) e) w).

(** [processQueue] from the reply of the backend to either the [catch]
    block or the [await] on the upload; [true] when it suspends again. *)
Definition resumeFetched (tk : Task) (r : FetchResult) (g : GpuOutcome) (w : World)
  : World * bool :=
  match received r with
  | inl e => (requestFailed tk (Some e) w, false)
  | inr (width, height, pixels) =>
      let w := modify_chunk (t_chunk tk) (ImageChunk.setSize width height) w in
      let w := modify_chunk (t_chunk tk) (ImageChunk.setData pixels (clock w)) w in
      let w := log (LogDataReceived (t_chunkId tk) (length pixels)) w in
      (uploadChunkToGPU (t_chunk tk) g w, true)
  end.

(** The [finally] block of [processQueue]. *)
Definition finallyBlock (w : World) : World :=
  processQueue (with_activeRequests (activeRequests w - 1) w).

Definition cleanupChunkAt (a : nat) (w : World) : World :=
  match heap w !! a with
  | None => w
  | Some chunk =>
      let '(chunk', glc) := ImageChunk.cleanup (glctx w) chunk in
      with_glctx glc (with_heap (<[a := chunk']> (heap w)) w)
  end.

(** [cleanup()].  A [Map] is walked in insertion order and a [gmap] in
    key order, so the [deleteTexture] calls may be logged in another
    order than the browser makes them. *)
Definition cleanup (w : World) : World :=
  let w := if gl w
           then foldl (λ w a, cleanupChunkAt a w) w (map_to_list (chunks w)).*2
           else w in
  let w := with_chunks ∅ w in
  let w := with_requestQueue [] w in
  let w := with_activeRequests 0 w in
  log LogCleanup w.

(** [getLoadedChunks()] and [getStatusStats()] *)
Definition getLoadedChunks (w : World) : list ImageChunk.t :=
  filter (λ c, ImageChunk.status c = IN_GPU)
    (omap (λ a, heap w !! a) (map_to_list (chunks w)).*2).

Definition getStatusStats (w : World) (st : ChunkStatus) : nat :=
  length (filter (λ c, ImageChunk.status c = st)
            (omap (λ a, heap w !! a) (map_to_list (chunks w)).*2)).

(** ** Runs of the manager *)

(** What can happen to a manager: calls of its public methods, and the
    continuations of suspended requests ([n] is a position in [tasks]).
    The ready callback is taken to return or throw without calling back
    into the manager, as the viewer's [renderChunks] does. *)
Inductive Event : Type :=
  | EvSetWebGLContext
  | EvSetOnChunkReady
  | EvInitialize (filePath : string) (md : ImageMetadata)
  | EvInitializeChunks (filePath : string)
  | EvMetadataReceived (md : ImageMetadata)
  | EvRequestChunk (chunkId : string)
  | EvFetched (n : nat) (r : FetchResult) (g : GpuOutcome)
  | EvSettled (n : nat)
  | EvCleanup
  | EvClock (now : nat).

Definition suspendAtUpload (tk : Task) : Task :=
  {| t_chunkId := t_chunkId tk; t_chunk := t_chunk tk; t_phase := AwaitUpload |}.

Definition run_event (w : World) (e : Event) : World :=
  match e with
  | EvSetWebGLContext => setWebGLContext w
  | EvSetOnChunkReady => setOnChunkReady w
  | EvInitialize filePath md => initializeChunksFromMetadata filePath md w
  | EvInitializeChunks filePath => initializeChunks_start filePath w
  | EvMetadataReceived md => initializeChunks_resume md w
  | EvRequestChunk chunkId => requestChunk chunkId w
  | EvFetched n r g =>
      match tasks w !! n with
      | Some tk =>
          match t_phase tk with
          | AwaitFetch =>
              let '(w', suspended) := resumeFetched tk r g w in
              if suspended
              then with_tasks (<[n := suspendAtUpload tk]> (tasks w')) w'
              else finallyBlock (with_tasks (delete n (tasks w')) w')
          | AwaitUpload => w
          end
      | None => w
      end
  | EvSettled n =>
      match tasks w !! n with
      | Some tk =>
          match t_phase tk with
          | AwaitUpload => finallyBlock (with_tasks (delete n (tasks w)) w)
          | AwaitFetch => w
          end
      | None => w
      end
  | EvCleanup => cleanup w
  | EvClock now => with_clock now w
  end.

Definition run (w : World) (evs : list Event) : World := foldl run_event w evs.

Definition reachable (w : World) : Prop := ∃ evs, w = run newWorld evs.

(** How often the console reports an upload of a chunk. *)
Definition uploads (chunkId : string) (w : World) : nat :=
  length (filter (λ l, l = LogUploaded chunkId) (console w)).

(** ** Notions used in the statements *)

(** The requests [requestChunk] accepts (enqueues) along a run. *)
Definition accepts (w : World) (chunkId : string) : bool :=
  match chunkOf w chunkId with
  | Some chunk => negb (skipsRequest (ImageChunk.status chunk))
  | None => false
  end.

Fixpoint accepted (chunkId : string) (w : World) (evs : list Event) : nat :=
  match evs with
  | [] => 0
  | e :: evs' =>
      (match e with
       | EvRequestChunk chunkId' =>
           if bool_decide (chunkId' = chunkId) && accepts w chunkId then 1 else 0
       | _ => 0
       end) + accepted chunkId (run_event w e) evs'
  end.

(** The blob fails the framing checks: it is shorter than its header, or
    its payload is not [w*h*4] bytes for the [w], [h] of the header. *)
Definition framingFails (blob : list byte) : Prop :=
  length blob < 8
  ∨ ∃ w h, getUint32 blob 0 = Some w ∧ getUint32 blob 4 = Some h
           ∧ (Z.of_nat (length blob) - 8 ≠ w * h * 4)%Z.

(** The upload ends in the [catch] block of [uploadChunkToGPU]. *)
Definition uploadThrows (w : World) (g : GpuOutcome) : bool :=
  match g with
  | CreateTextureNull | TexImageThrows => true
  | ReadyCallbackThrows => onChunkReady w
  | UploadOk => false
  end.

(** The status of the object at an address. *)
Definition statusAt (w : World) (a : nat) : option ChunkStatus :=
  ImageChunk.status <$> heap w !! a.


(** Well-formedness of a chunk object and of a manager state. *)
Definition goodChunk (c : ImageChunk.t) : Prop :=
  ImageChunk.id c ≠ ""
  ∧ (ImageChunk.status c = IN_GPU → is_Some (ImageChunk.texture c))
  ∧ (ImageChunk.status c = UNREQUESTED → ImageChunk.texture c = None).

Record Inv (w : World) : Prop := {
  inv_cap : (activeRequests w ≤ maxConcurrentRequests)%Z;
  inv_map : ∀ chunkId a, chunks w !! chunkId = Some a →
            ∃ c, heap w !! a = Some c ∧ ImageChunk.id c = chunkId;
  inv_queue : ∀ chunkId, chunkId ∈ requestQueue w → is_Some (chunks w !! chunkId);
  inv_tasks : ∀ tk, tk ∈ tasks w →
              ∃ c, heap w !! t_chunk tk = Some c ∧ ImageChunk.id c = t_chunkId tk;
  inv_heap : Forall goodChunk (heap w);
}.

(** Requests for an id that are queued or waiting for the backend. *)
Definition pending (chunkId : string) (w : World) : nat :=
  length (filter (λ q, q = chunkId) (requestQueue w))
  + length (filter (λ tk, t_chunkId tk = chunkId ∧ t_phase tk = AwaitFetch) (tasks w)).

(** What an upload attempt does to the chunk object and to the console. *)
Definition uploadEffect (w : World) (g : GpuOutcome) (c : ImageChunk.t)
  : ImageChunk.t :=
  let tex := next_texture (glctx w) in
  match g with
  | CreateTextureNull | TexImageThrows => ImageChunk.updateStatus ERROR (clock w) c
  | UploadOk => ImageChunk.setTexture tex (clock w) c
  | ReadyCallbackThrows =>
      if onChunkReady w
      then ImageChunk.updateStatus ERROR (clock w) (ImageChunk.setTexture tex (clock w) c)
      else ImageChunk.setTexture tex (clock w) c
  end.

Definition uploadLog (chunkId : string) (w : World) (g : GpuOutcome) : list LogLine :=
  match g with
  | CreateTextureNull | TexImageThrows => [LogUploadFailed chunkId]
  | UploadOk => [LogUploaded chunkId]
  | ReadyCallbackThrows =>
      if onChunkReady w
      then [LogUploaded chunkId; LogUploadFailed chunkId]
      else [LogUploaded chunkId]
  end.

(** What handling the reply of the backend does to the chunk object. *)
Definition fetchEffect (w : World) (r : FetchResult) (g : GpuOutcome)
    (c : ImageChunk.t) : ImageChunk.t :=
  match received r with
  | inl _ => ImageChunk.updateStatus ERROR (clock w) c
  | inr (width, height, pixels) =>
      let c := ImageChunk.setData pixels (clock w) (ImageChunk.setSize width height c) in
      if gl w then uploadEffect w g c else c
  end.

Definition fetchLog (tk : Task) (chunkId : string) (w : World) (r : FetchResult)
    (g : GpuOutcome) : list LogLine :=
  match received r with
  | inl e => [LogRequestFailed (t_chunkId tk) (Some e)]
  | inr (width, height, pixels) =>
      LogDataReceived (t_chunkId tk) (length pixels)
      :: (if gl w then uploadLog chunkId w g else [LogGlUnavailable])
  end.

(** Two states agree on everything the scheduler reads. *)
Definition sameControl (w w' : World) : Prop :=
  chunks w' = chunks w ∧ requestQueue w' = requestQueue w
  ∧ activeRequests w' = activeRequests w ∧ tasks w' = tasks w
  ∧ gl w' = gl w ∧ onChunkReady w' = onChunkReady w ∧ clock w' = clock w.

Definition keepsId (f : ImageChunk.t → ImageChunk.t) : Prop :=
  ∀ c, ImageChunk.id (f c) = ImageChunk.id c.

Definition keepsGood (f : ImageChunk.t → ImageChunk.t) : Prop :=
  ∀ c, goodChunk c → goodChunk (f c).


(** [1] when [x] satisfies [P], else [0]. *)
Definition hits {A : Type} (P : A → Prop) `{!∀ x, Decision (P x)} (x : A) : nat :=
  if decide (P x) then 1 else 0.

(** How often a run calls [requestChunk] for an id. *)
Fixpoint requested (chunkId : string) (evs : list Event) : nat :=
  match evs with
  | [] => 0
  | EvRequestChunk chunkId' :: evs' =>
      (if bool_decide (chunkId' = chunkId) then 1 else 0) + requested chunkId evs'
  | _ :: evs' => requested chunkId evs'
  end.

(** The textures the manager has asked WebGL to delete. *)
Definition deletedTextures (gl : GlContext) : list WebGLTexture :=
  omap (λ c, match c with GlDeleteTexture tex => Some tex | _ => None end)
    (gl_calls gl).

(** A chunk object that [cleanup] has reset. *)
Definition released (c : ImageChunk.t) : Prop :=
  ImageChunk.status c = UNREQUESTED ∧ ImageChunk.texture c = None.

(** ** More of the manager, its callers and the backend *)

(** [getAllChunkIds()]; a [Map] lists its keys in insertion order and a
    [gmap] in key order, so only membership and length are meant. *)
Definition getAllChunkIds (w : World) : list string := (map_to_list (chunks w)).*1.

(** [getMetadata()] *)
Definition getMetadata (w : World) : option ImageMetadata := metadata w.

(** One batch of [loadAllChunks]:
    [batch.map(chunkId => chunkManager.requestChunk(chunkId))].
    [requestChunk] contains no [await], so the calls run one after the
    other with nothing in between. *)
Definition requestBatch (batch : list string) (w : World) : World :=
  foldl (λ w chunkId, requestChunk chunkId w) w batch.

(** [u32::to_be_bytes] of the backend ([n] is taken modulo 2^32). *)
Definition byte_of_Z (z : Z) : byte :=
  default x00 (Byte.of_N (Z.to_N (z mod 256))).

Definition to_be_bytes (n : Z) : list byte :=
  [byte_of_Z (n / 2 ^ 24); byte_of_Z (n / 2 ^ 16); byte_of_Z (n / 2 ^ 8);
   byte_of_Z n].

(** The packet the backend builds: [width.to_be_bytes()],
    [height.to_be_bytes()], then the pixels. *)
Definition data_packet (width height : Z) (pixels : list byte) : list byte :=
  to_be_bytes width ++ to_be_bytes height ++ pixels.

(** The id [new ImageChunk(chunkInfo)] gives the chunk. *)
Definition infoId (chunkInfo : ChunkInfo) : string :=
  chunkId (ci_chunk_x chunkInfo) (ci_chunk_y chunkInfo).

(** The pixels fill the chunk: four bytes for each of [width * height]
    pixels. *)
Definition sizedData (c : ImageChunk.t) : Prop :=
  ∀ pixels, ImageChunk.data c = Some pixels →
    Z.of_nat (length pixels) = (ImageChunk.width c * ImageChunk.height c * 4)%Z.

Definition sizedCall (call : GlCall) : Prop :=
  match call with
  | GlTexImage2D _ width height pixels =>
      Z.of_nat (length pixels) = (width * height * 4)%Z
  | _ => True
  end.

(** What an upload attempt and the handling of a reply do to the WebGL
    context. *)
Definition uploadGl (width height : Z) (pixels : list byte) (g : GpuOutcome)
    (glc : GlContext) : GlContext :=
  match g with
  | CreateTextureNull => glc
  | TexImageThrows => (gl_prepareTexture glc).2
  | UploadOk | ReadyCallbackThrows =>
      gl_call (GlTexImage2D (next_texture glc) width height pixels)
        (gl_prepareTexture glc).2
  end.

Definition fetchGl (w : World) (r : FetchResult) (g : GpuOutcome) : GlContext :=
  match received r with
  | inl _ => glctx w
  | inr (width, height, pixels) =>
      if gl w then uploadGl width height pixels g (glctx w) else glctx w
  end.

(** The object at address [a] holds the texture [tex]. *)
Definition holdsTexture (w : World) (a : nat) (tex : WebGLTexture) : Prop :=
  ∃ c, heap w !! a = Some c ∧ ImageChunk.texture c = Some tex.

(** No object holds a deleted texture or one that was never created, no
    two objects hold the same texture, and no texture is deleted twice. *)
Record TexInv (w : World) : Prop := {
  tex_live : ∀ a tex, holdsTexture w a tex →
             tex < next_texture (glctx w) ∧ tex ∉ deletedTextures (glctx w);
  tex_own : ∀ a b tex, holdsTexture w a tex → holdsTexture w b tex → a = b;
  tex_once : NoDup (deletedTextures (glctx w));
  tex_created : Forall (λ tex, tex < next_texture (glctx w))
                  (deletedTextures (glctx w));
}.

(** The object at [a] is out of the map's reach and alone holds [tex],
    which is not deleted. *)
Record Orphan (a : nat) (tex : WebGLTexture) (w : World) : Prop := {
  orphan_unmapped : ∀ chunkId, chunks w !! chunkId ≠ Some a;
  orphan_alloc : a < length (heap w);
  orphan_created : tex < next_texture (glctx w);
  orphan_kept : tex ∉ deletedTextures (glctx w);
  orphan_own : ∀ b, holdsTexture w b tex → b = a;
}.

(** Requests wait in the queue only while every slot is taken. *)
Definition queueWaitsWhenFull (w : World) : Prop :=
  requestQueue w ≠ [] → activeRequests w = maxConcurrentRequests.

(** The map's entry for an id points into the heap. *)
Definition mappedBelow (w : World) (chunkId : string) : Prop :=
  ∀ a, chunks w !! chunkId = Some a → a < length (heap w).

(* ================================================================== *)
(** * Part II: properties *)

Example createSpatialBatches_3x2 :
  Scheduler.createSpatialBatches 3 2
  = [["1_1"]; ["0_0"; "2_0"]; ["1_0"]; ["0_1"; "2_1"]].
Proof. vm_compute. reflexivity. Qed.

(** * Properties of chunk identifiers *)

Section ChunkIds.

Lemma pretty_N_char_no_sep d : pretty_N_char d ≠ "_"%char.
Proof. unfold pretty_N_char. repeat case_match; discriminate. Qed.

Lemma pretty_N_go_no_sep x : ∀ s, no_sep s → no_sep (pretty_N_go x s).
Proof.
  induction (N.lt_wf_0 x) as [x _ IH]; intros s Hs.
  destruct (decide (x = 0%N)) as [->|Hx].
  - by rewrite pretty_N_go_0.
  - rewrite pretty_N_go_step by lia.
    apply IH; [apply N.div_lt; lia|].
    split; [apply pretty_N_char_no_sep | done].
Qed.

Lemma pretty_nat_no_sep (n : nat) : no_sep (pretty n).
Proof.
  unfold pretty, pretty_nat, pretty, pretty_N.
  case_decide; [simpl; intuition discriminate|].
  by apply pretty_N_go_no_sep.
Qed.

Lemma sep_split s1 : ∀ s2 t1 t2,
  no_sep s1 → no_sep s2 →
  s1 +:+ "_" +:+ t1 = s2 +:+ "_" +:+ t2 → s1 = s2 ∧ t1 = t2.
Proof.
  induction s1 as [|c s1 IH]; intros [|d s2] t1 t2 H1 H2 Heq; simpl in *.
  - by injection Heq.
  - injection Heq as Hc _. destruct H2 as [H2 _]. congruence.
  - injection Heq as Hc _. destruct H1 as [H1 _]. congruence.
  - injection Heq as -> Heq. destruct H1 as [_ H1], H2 as [_ H2].
    destruct (IH s2 t1 t2 H1 H2 Heq) as [-> ->]. done.
Qed.

Lemma chunkId_inj x1 y1 x2 y2 :
  chunkId x1 y1 = chunkId x2 y2 → x1 = x2 ∧ y1 = y2.
Proof.
  unfold chunkId. intros Heq.
  apply sep_split in Heq as [Hx Hy]; auto using pretty_nat_no_sep.
  split; by apply (inj pretty).
Qed.

Lemma chunkId_nonempty x y : chunkId x y ≠ "".
Proof.
  unfold chunkId. intros Heq.
  destruct (pretty x) as [|c s]; simpl in Heq; discriminate.
Qed.

End ChunkIds.

(** * The spatial scheduler as list comprehensions *)

Module SchedulerFacts.
Import Scheduler.

Lemma for2_foldl {St} (body : nat → St → St) fuel : ∀ i bound s,
  for2 fuel i bound body s = foldl (λ s x, body x s) s (stride2 fuel i bound).
Proof.
  induction fuel as [|fuel IH]; intros i bound s; simpl; [done|].
  destruct (i <? bound)%nat; simpl; [apply IH | done].
Qed.

Lemma foldl_push {A B} (f : A → B) (l : list A) : ∀ acc,
  foldl (λ b x, b ++ [f x]) acc l = acc ++ (f <$> l).
Proof.
  induction l as [|a l IH]; intros acc; simpl.
  - by rewrite app_nil_r.
  - rewrite IH. by rewrite <- app_assoc.
Qed.

Lemma foldl_rows_push gw x0 (ys : list nat) : ∀ acc,
  foldl (λ s y, for2 gw x0 gw (λ x batch, batch ++ [chunkId x y]) s) acc ys
  = acc ++ (ys ≫= λ y, (λ x, chunkId x y) <$> stride2 gw x0 gw).
Proof.
  induction ys as [|y ys IH]; intros acc; simpl.
  - by rewrite app_nil_r.
  - rewrite IH, for2_foldl. cbv beta. by rewrite foldl_push, <- app_assoc.
Qed.

(** The nested loops of one batch enumerate rows, then columns. *)
Lemma spatialBatch_bind x0 y0 gw gh :
  spatialBatch x0 y0 gw gh
  = stride2 gh y0 gh ≫= λ y, (λ x, chunkId x y) <$> stride2 gw x0 gw.
Proof.
  unfold spatialBatch. rewrite for2_foldl. cbv beta.
  by rewrite foldl_rows_push.
Qed.

Lemma elem_of_stride2 fuel : ∀ i bound x,
  x ∈ stride2 fuel i bound ↔ ∃ k, k < fuel ∧ x = i + 2 * k ∧ x < bound.
Proof.
  induction fuel as [|fuel IH]; intros i bound x; simpl.
  - rewrite elem_of_nil. split; [done | intros (k & ? & _); lia].
  - destruct (Nat.ltb_spec i bound) as [Hlt|Hge].
    + rewrite elem_of_cons, IH. split.
      * intros [-> | (k & Hk & -> & Hb)]; [exists 0; lia | exists (S k); lia].
      * intros ([|k] & Hk & -> & Hb); [left; lia | right; exists k; lia].
    + rewrite elem_of_nil. split; [done | intros (k & _ & -> & Hb); lia].
Qed.

Lemma NoDup_stride2 fuel : ∀ i bound, NoDup (stride2 fuel i bound).
Proof.
  induction fuel as [|fuel IH]; intros i bound; simpl; [constructor|].
  destruct (i <? bound)%nat; [|constructor].
  apply NoDup_cons. split; [|apply IH].
  rewrite elem_of_stride2. intros (k & _ & Hk & _). lia.
Qed.

(** With the fuel the callers pass, a loop started at parity [p] visits
    exactly the indices below the bound that have this parity. *)
Lemma elem_of_stride2_parity p n x :
  p < 2 → x ∈ stride2 n p n ↔ x < n ∧ x `mod` 2 = p.
Proof.
  intros Hp. rewrite elem_of_stride2. split.
  - intros (k & _ & -> & Hb). split; [done|].
    rewrite (Nat.mul_comm 2 k), Nat.Div0.mod_add. by apply Nat.mod_small.
  - intros [Hx Hm]. exists (x `div` 2).
    pose proof (Nat.div_mod_eq x 2). lia.
Qed.

Lemma elem_of_spatialBatch px py gw gh id :
  px < 2 → py < 2 →
  id ∈ spatialBatch px py gw gh ↔
  ∃ x y, id = chunkId x y ∧ x < gw ∧ y < gh ∧ x `mod` 2 = px ∧ y `mod` 2 = py.
Proof.
  intros Hpx Hpy. rewrite spatialBatch_bind, list_elem_of_bind. split.
  - intros (y & Hid & Hy). apply list_elem_of_fmap in Hid as (x & -> & Hx).
    apply elem_of_stride2_parity in Hx as [??]; [|done].
    apply elem_of_stride2_parity in Hy as [??]; [|done].
    by exists x, y.
  - intros (x & y & -> & Hx & Hy & Hmx & Hmy). exists y. split.
    + apply list_elem_of_fmap. exists x. split; [done|].
      by apply elem_of_stride2_parity.
    + by apply elem_of_stride2_parity.
Qed.

Lemma NoDup_spatialBatch x0 y0 gw gh : NoDup (spatialBatch x0 y0 gw gh).
Proof.
  rewrite spatialBatch_bind. apply NoDup_bind.
  - intros y1 y2 id _ _ H1 H2.
    apply list_elem_of_fmap in H1 as (x1 & -> & _).
    apply list_elem_of_fmap in H2 as (x2 & Heq & _).
    by apply chunkId_inj in Heq as [_ ?].
  - intros y _. apply NoDup_fmap_2_strong; [|apply NoDup_stride2].
    intros x1 x2 _ _ Heq. by apply chunkId_inj in Heq as [? _].
  - apply NoDup_stride2.
Qed.

End SchedulerFacts.

(** * The four batches partition the grid *)

Module SpatialBatches.
Import Scheduler SchedulerFacts.

Lemma concat_pushIfNonEmpty b bs :
  concat (pushIfNonEmpty b bs) = concat bs ++ b.
Proof.
  unfold pushIfNonEmpty. destruct b as [|c b]; simpl.
  - by rewrite app_nil_r.
  - by rewrite concat_app; simpl; rewrite app_nil_r.
Qed.

Lemma concat_createSpatialBatches gx gy :
  concat (createSpatialBatches gx gy)
  = batch1 gx gy ++ batch2 gx gy ++ batch3 gx gy ++ batch4 gx gy.
Proof.
  unfold createSpatialBatches. rewrite !concat_pushIfNonEmpty. simpl.
  by rewrite <- !app_assoc.
Qed.

(** Batches of different parity classes share no id. *)
Lemma spatialBatch_disjoint px py qx qy gx gy id :
  px < 2 → py < 2 → qx < 2 → qy < 2 → (px, py) ≠ (qx, qy) →
  id ∈ spatialBatch px py gx gy → id ∉ spatialBatch qx qy gx gy.
Proof.
  intros ? ? ? ? Hne Hp Hq.
  apply elem_of_spatialBatch in Hp as (x & y & -> & _ & _ & Hx & Hy); [|done..].
  apply elem_of_spatialBatch in Hq as (x' & y' & Heq & _ & _ & Hx' & Hy'); [|done..].
  apply chunkId_inj in Heq as [-> ->]. congruence.
Qed.

Lemma elem_of_concat_2 {A} (l : list (list A)) b (x : A) :
  x ∈ b → b ∈ l → x ∈ concat l.
Proof.
  intros Hx Hb. induction Hb as [b l | b c l _ IH]; simpl; apply elem_of_app.
  - by left.
  - right. by apply IH.
Qed.

Lemma NoDup_concat_disjoint {A} (l : list (list A)) :
  NoDup (concat l) →
  ∀ i j b1 b2 x, i ≠ j → l !! i = Some b1 → l !! j = Some b2 →
    x ∈ b1 → x ∉ b2.
Proof.
  induction l as [|a l IH]; intros Hnd i j b1 b2 x Hij Hi Hj H1 H2.
  { by rewrite lookup_nil in Hi. }
  simpl in Hnd. apply NoDup_app in Hnd as (_ & Hdisj & Hnd).
  destruct i as [|i], j as [|j]; simpl in Hi, Hj; simplify_eq.
  - apply (Hdisj x H1), (elem_of_concat_2 _ b2); [done|].
    by eapply list_elem_of_lookup_2.
  - apply (Hdisj x H2), (elem_of_concat_2 _ b1); [done|].
    by eapply list_elem_of_lookup_2.
  - eapply (IH Hnd i j); eauto.
Qed.

Lemma NoDup_all_batches gx gy : NoDup (concat (createSpatialBatches gx gy)).
Proof.
  rewrite concat_createSpatialBatches. unfold batch1, batch2, batch3, batch4.
  assert (∀ px py qx qy id, px < 2 → py < 2 → qx < 2 → qy < 2 →
            (px, py) ≠ (qx, qy) → id ∈ spatialBatch px py gx gy →
            id ∈ spatialBatch qx qy gx gy → False) as Hdisj.
  { intros px py qx qy id ? ? ? ? ? H1 H2.
    by apply (spatialBatch_disjoint px py qx qy gx gy id). }
  repeat (apply NoDup_app; split; [apply NoDup_spatialBatch | split]);
    try apply NoDup_spatialBatch;
    intros id Hid; rewrite ?elem_of_app; intros Hin;
    destruct_or?; (eapply Hdisj; [..|exact Hid|eassumption]; (lia || congruence)).
Qed.

Lemma elem_of_all_batches gx gy id :
  id ∈ concat (createSpatialBatches gx gy) ↔
  ∃ x y, x < gx ∧ y < gy ∧ id = chunkId x y.
Proof.
  rewrite concat_createSpatialBatches. unfold batch1, batch2, batch3, batch4.
  rewrite !elem_of_app, !elem_of_spatialBatch by lia. split.
  - intros [H|[H|[H|H]]]; destruct H as (x & y & -> & ? & ? & _); by exists x, y.
  - intros (x & y & Hx & Hy & ->).
    pose proof (Nat.mod_upper_bound x 2). pose proof (Nat.mod_upper_bound y 2).
    destruct (decide (x `mod` 2 = 1)), (decide (y `mod` 2 = 1)).
    + left. exists x, y. repeat split; (done || lia).
    + right; right; left. exists x, y. repeat split; (done || lia).
    + right; right; right. exists x, y. repeat split; (done || lia).
    + right; left. exists x, y. repeat split; (done || lia).
Qed.

(** C1: for a grid with at least one column and one row, the batches
    returned by [createSpatialBatches] are pairwise disjoint, no chunk id
    occurs twice across them, and together they hold exactly the ids
    [x_y] with [0 ≤ x < gx] and [0 ≤ y < gy]. *)
Theorem createSpatialBatches_partition gx gy :
  1 ≤ gx → 1 ≤ gy →
  let batches := createSpatialBatches gx gy in
  (∀ i j b1 b2 id, i ≠ j → batches !! i = Some b1 → batches !! j = Some b2 →
     id ∈ b1 → id ∉ b2)
  ∧ NoDup (concat batches)
  ∧ (∀ id, id ∈ concat batches ↔ ∃ x y, x < gx ∧ y < gy ∧ id = chunkId x y).
Proof.
  intros _ _ batches. split; [|split].
  - apply NoDup_concat_disjoint, NoDup_all_batches.
  - apply NoDup_all_batches.
  - apply elem_of_all_batches.
Qed.

Lemma createSpatialBatches_partition_witness :
  let batches := createSpatialBatches 3 2 in
  (∀ i j b1 b2 id, i ≠ j → batches !! i = Some b1 → batches !! j = Some b2 →
     id ∈ b1 → id ∉ b2)
  ∧ NoDup (concat batches)
  ∧ (∀ id, id ∈ concat batches ↔ ∃ x y, x < 3 ∧ y < 2 ∧ id = chunkId x y).
Proof. apply (createSpatialBatches_partition 3 2); lia. Defined.

(** Two tiles of one parity class differ by an even amount in each
    coordinate, so they are never at Manhattan distance 1. *)
Lemma same_parity_not_adjacent (x1 y1 x2 y2 : nat) :
  x1 `mod` 2 = x2 `mod` 2 → y1 `mod` 2 = y2 `mod` 2 →
  (Z.abs (Z.of_nat x1 - Z.of_nat x2) + Z.abs (Z.of_nat y1 - Z.of_nat y2) ≠ 1)%Z.
Proof.
  intros Hx Hy.
  pose proof (Nat.div_mod_eq x1 2). pose proof (Nat.div_mod_eq x2 2).
  pose proof (Nat.div_mod_eq y1 2). pose proof (Nat.div_mod_eq y2 2).
  lia.
Qed.

Lemma spatialBatch_parity px py gx gy x y :
  px < 2 → py < 2 → chunkId x y ∈ spatialBatch px py gx gy →
  x < gx ∧ y < gy ∧ x `mod` 2 = px ∧ y `mod` 2 = py.
Proof.
  intros ? ? Hin.
  apply elem_of_spatialBatch in Hin as (x' & y' & Heq & ?); [|done..].
  by apply chunkId_inj in Heq as [-> ->].
Qed.

(** C5: no two distinct tiles of the first batch (odd [x], odd [y]) are
    4-neighbours: [|x1 - x2| + |y1 - y2| ≠ 1]. *)
Theorem batch1_no_4_neighbors gx gy x1 y1 x2 y2 :
  chunkId x1 y1 ∈ batch1 gx gy → chunkId x2 y2 ∈ batch1 gx gy →
  (x1, y1) ≠ (x2, y2) →
  (Z.abs (Z.of_nat x1 - Z.of_nat x2) + Z.abs (Z.of_nat y1 - Z.of_nat y2) ≠ 1)%Z.
Proof.
  intros H1 H2 _.
  apply spatialBatch_parity in H1 as (_ & _ & ? & ?); [|lia..].
  apply spatialBatch_parity in H2 as (_ & _ & ? & ?); [|lia..].
  apply same_parity_not_adjacent; congruence.
Qed.

Lemma batch1_no_4_neighbors_witness :
  (Z.abs (Z.of_nat 1 - Z.of_nat 3) + Z.abs (Z.of_nat 1 - Z.of_nat 1) ≠ 1)%Z.
Proof.
  apply (batch1_no_4_neighbors 4 2 1 1 3 1).
  - vm_compute. apply list_elem_of_In. simpl. auto.
  - vm_compute. apply list_elem_of_In. simpl. auto.
  - discriminate.
Defined.

(** The same holds inside every batch the scheduler emits. *)
Lemma every_batch_no_4_neighbors gx gy b x1 y1 x2 y2 :
  b ∈ createSpatialBatches gx gy →
  chunkId x1 y1 ∈ b → chunkId x2 y2 ∈ b →
  (Z.abs (Z.of_nat x1 - Z.of_nat x2) + Z.abs (Z.of_nat y1 - Z.of_nat y2) ≠ 1)%Z.
Proof.
  unfold createSpatialBatches, pushIfNonEmpty, batch1, batch2, batch3, batch4.
  intros Hb H1 H2.
  assert (∃ px py, px < 2 ∧ py < 2 ∧ b = spatialBatch px py gx gy)
    as (px & py & ? & ? & ->).
  { repeat case_match; simpl in Hb;
      repeat (apply elem_of_cons in Hb as [->|Hb]; [eexists _, _; split_and!; [| |done]; lia|]);
      by apply elem_of_nil in Hb. }
  apply spatialBatch_parity in H1 as (_ & _ & ? & ?); [|lia..].
  apply spatialBatch_parity in H2 as (_ & _ & ? & ?); [|lia..].
  apply same_parity_not_adjacent; congruence.
Qed.

(** ** How many batches are emitted *)

Lemma spatialBatch_nil px py gx gy :
  px < 2 → py < 2 → spatialBatch px py gx gy = [] ↔ gx ≤ px ∨ gy ≤ py.
Proof.
  intros Hpx Hpy. split.
  - intros Hnil. destruct (decide (gx ≤ px)); [by left|].
    destruct (decide (gy ≤ py)); [by right|]. exfalso.
    assert (chunkId px py ∈ spatialBatch px py gx gy) as Hin.
    { apply elem_of_spatialBatch; [done..|]. exists px, py.
      split_and!; try done; try lia; by apply Nat.mod_small. }
    rewrite Hnil in Hin. by apply elem_of_nil in Hin.
  - intros Hor. apply elem_of_nil_inv. intros id Hin.
    apply elem_of_spatialBatch in Hin as (x & y & _ & ? & ? & Hx & Hy); [|done..].
    pose proof (Nat.div_mod_eq x 2). pose proof (Nat.div_mod_eq y 2). lia.
Qed.

Lemma pushIfNonEmpty_spec b bs :
  pushIfNonEmpty b bs = bs ++ (if decide (b = []) then [] else [b]).
Proof.
  unfold pushIfNonEmpty. destruct b; simpl; [by rewrite app_nil_r | done].
Qed.

(** C9 as stated fails on a single-tile grid: only the even/even batch is
    non-empty there, and empty batches are not emitted. *)
Lemma createSpatialBatches_not_always_four :
  ¬ (∀ gx gy, 1 ≤ gx → 1 ≤ gy → length (createSpatialBatches gx gy) = 4).
Proof. intros H. specialize (H 1 1). vm_compute in H. lia. Qed.

(** C9, amended: the scheduler emits, in the order odd/odd, even/even,
    odd/even, even/odd, those of the four parity batches that are
    non-empty; every emitted id lies in the batch of its parity class;
    there are exactly four batches precisely when the grid has at least
    two columns and two rows; and a 2×2 grid yields
    [(1,1)], [(0,0)], [(1,0)], [(0,1)]. *)
Theorem createSpatialBatches_by_parity gx gy :
  1 ≤ gx → 1 ≤ gy →
  createSpatialBatches gx gy
    = filter (λ b, b ≠ []) [batch1 gx gy; batch2 gx gy; batch3 gx gy; batch4 gx gy]
  ∧ (∀ px py id, px < 2 → py < 2 →
       id ∈ spatialBatch px py gx gy ↔
       ∃ x y, id = chunkId x y ∧ x < gx ∧ y < gy ∧ x `mod` 2 = px ∧ y `mod` 2 = py)
  ∧ (length (createSpatialBatches gx gy) = 4 ↔ 2 ≤ gx ∧ 2 ≤ gy)
  ∧ createSpatialBatches 2 2 = [["1_1"]; ["0_0"]; ["1_0"]; ["0_1"]].
Proof.
  intros Hgx Hgy.
  assert (createSpatialBatches gx gy
    = filter (λ b, b ≠ []) [batch1 gx gy; batch2 gx gy; batch3 gx gy; batch4 gx gy])
    as Hfilter.
  { unfold createSpatialBatches. rewrite !pushIfNonEmpty_spec.
    rewrite !filter_cons, filter_nil. repeat case_decide; simpl; congruence. }
  split_and!; [done | intros; by apply elem_of_spatialBatch | | by vm_compute].
  rewrite Hfilter. unfold batch1, batch2, batch3, batch4.
  rewrite !filter_cons, filter_nil.
  repeat case_decide;
    repeat match goal with
           | H : context [spatialBatch _ _ _ _ = []] |- _ =>
               rewrite spatialBatch_nil in H by lia
           end;
    simpl; lia.
Qed.

Lemma createSpatialBatches_by_parity_witness :
  createSpatialBatches 2 2 = [["1_1"]; ["0_0"]; ["1_0"]; ["0_1"]]
  ∧ length (createSpatialBatches 2 2) = 4.
Proof.
  destruct (createSpatialBatches_by_parity 2 2) as (_ & _ & Hlen & H22); [lia..|].
  split; [exact H22 | apply Hlen; lia].
Defined.

End SpatialBatches.

(** * Chunk blobs *)

Section Blobs.

Lemma getUint32_is_Some blob off :
  off + 4 ≤ length blob → is_Some (getUint32 blob off).
Proof.
  intros Hlen. unfold getUint32.
  destruct (lookup_lt_is_Some_2 blob off) as [b0 ->]; [lia|].
  destruct (lookup_lt_is_Some_2 blob (off + 1)) as [b1 ->]; [lia|].
  destruct (lookup_lt_is_Some_2 blob (off + 2)) as [b2 ->]; [lia|].
  destruct (lookup_lt_is_Some_2 blob (off + 3)) as [b3 ->]; [lia|].
  by eexists.
Qed.

(** A header field is an unsigned 32-bit number. *)
Lemma getUint32_range blob off v :
  getUint32 blob off = Some v → (0 ≤ v < 2 ^ 32)%Z.
Proof.
  unfold getUint32. intros H. repeat case_match; simplify_eq.
  repeat match goal with
         | b : byte |- _ =>
             lazymatch goal with
             | _ : (Byte.to_N b < 256)%N |- _ => fail
             | _ => pose proof (Byte.to_N_bounded b);
                    assert (Byte.to_N b < 256)%N by lia
             end
         end.
  lia.
Qed.

Lemma parseChunkData_ok blob width height pixels :
  parseChunkData blob = inr (width, height, pixels) →
  8 ≤ length blob
  ∧ getUint32 blob 0 = Some width ∧ getUint32 blob 4 = Some height
  ∧ pixels = drop 8 blob
  ∧ Z.of_nat (length pixels) = (width * height * 4)%Z.
Proof.
  unfold parseChunkData. intros H.
  destruct (Nat.ltb_spec (length blob) 8); [done|].
  destruct (getUint32 blob 0) as [w|]; [|done].
  destruct (getUint32 blob 4) as [h|]; [|done].
  case_decide as Hsz; simplify_eq.
  split_and!; first [done | lia].
Qed.

Lemma parseChunkData_fails_iff blob :
  (∃ e, parseChunkData blob = inl e) ↔ framingFails blob.
Proof.
  unfold parseChunkData, framingFails.
  destruct (Nat.ltb_spec (length blob) 8) as [Hlt|Hge].
  { split; [by left | by eexists]. }
  destruct (getUint32_is_Some blob 0) as [w Hw]; [lia|].
  destruct (getUint32_is_Some blob 4) as [h Hh]; [lia|].
  rewrite Hw, Hh. rewrite length_drop.
  case_decide as Hsz.
  - split; [|by eexists]. intros _. right. exists w, h. split_and!; [done..|lia].
  - split; [by intros [e ?]|].
    intros [?|(w' & h' & ? & ? & Hne)]; [lia|]. simplify_eq. lia.
Qed.

End Blobs.

(** * Well-formedness is preserved *)

Section Wellformed.

Lemma updateStatus_keepsId st now : keepsId (ImageChunk.updateStatus st now).
Proof. by intros c. Qed.
Lemma setSize_keepsId w h : keepsId (ImageChunk.setSize w h).
Proof. by intros c. Qed.
Lemma setData_keepsId px now : keepsId (ImageChunk.setData px now).
Proof. by intros c. Qed.
Lemma setTexture_keepsId tex now : keepsId (ImageChunk.setTexture tex now).
Proof. by intros c. Qed.

Lemma updateStatus_keepsGood st now :
  st ≠ IN_GPU → st ≠ UNREQUESTED → keepsGood (ImageChunk.updateStatus st now).
Proof. intros ? ? c (? & ? & ?). by split_and!. Qed.
Lemma setSize_keepsGood w h : keepsGood (ImageChunk.setSize w h).
Proof. by intros c (? & ? & ?). Qed.
Lemma setData_keepsGood px now : keepsGood (ImageChunk.setData px now).
Proof. intros c (? & ? & ?). by split_and!. Qed.
Lemma setTexture_keepsGood tex now : keepsGood (ImageChunk.setTexture tex now).
Proof. intros c (? & ? & ?). split_and!; [done | by eexists | done]. Qed.

Lemma create_good chunkInfo now : goodChunk (ImageChunk.create chunkInfo now).
Proof. split_and!; [apply chunkId_nonempty | done | done]. Qed.

Lemma cleanup_good gl c : goodChunk c → goodChunk (ImageChunk.cleanup gl c).1.
Proof. by intros (? & ? & ?). Qed.

Lemma lookup_alter_keepsId f a (h : list ImageChunk.t) b c :
  keepsId f → h !! b = Some c →
  ∃ c', alter f a h !! b = Some c' ∧ ImageChunk.id c' = ImageChunk.id c.
Proof.
  intros Hf Hb. destruct (decide (a = b)) as [->|Hne].
  - rewrite list_lookup_alter_eq, Hb. simpl. eauto.
  - rewrite list_lookup_alter_ne by done. eauto.
Qed.

(** A state that differs only in fields the invariant does not read. *)
Lemma Inv_same w w' :
  Inv w → chunks w' = chunks w → requestQueue w' = requestQueue w →
  activeRequests w' = activeRequests w → tasks w' = tasks w →
  heap w' = heap w → Inv w'.
Proof.
  intros [] Hc Hq Ha Ht Hh.
  constructor; rewrite ?Hc, ?Hq, ?Ha, ?Ht, ?Hh; done.
Qed.

Lemma Inv_log l w : Inv w → Inv (log l w).
Proof. intros. by eapply Inv_same. Qed.

Lemma Inv_with_glctx glc w : Inv w → Inv (with_glctx glc w).
Proof. intros. by eapply Inv_same. Qed.

Lemma Inv_modify_chunk a f w :
  keepsId f → keepsGood f → Inv w → Inv (modify_chunk a f w).
Proof.
  intros Hid Hgood [Hcap Hmap Hq Ht Hh]. constructor; simpl; try done.
  - intros chunkId b Hb. destruct (Hmap _ _ Hb) as (c & Hc & <-).
    by apply lookup_alter_keepsId.
  - intros tk Htk. destruct (Ht _ Htk) as (c & Hc & <-).
    by apply lookup_alter_keepsId.
  - apply Forall_alter; [done|]. intros c _. apply Hgood.
Qed.

Lemma Inv_with_tasks ts w :
  Inv w →
  (∀ tk, tk ∈ ts → ∃ tk0, tk0 ∈ tasks w ∧ t_chunk tk = t_chunk tk0
                         ∧ t_chunkId tk = t_chunkId tk0) →
  Inv (with_tasks ts w).
Proof.
  intros [Hcap Hmap Hq Ht Hh] Hts. constructor; simpl; try done.
  intros tk Htk. destruct (Hts _ Htk) as (tk0 & Htk0 & -> & ->). by apply Ht.
Qed.

Lemma Inv_delete_task n w : Inv w → Inv (with_tasks (delete n (tasks w)) w).
Proof.
  intros HI. apply Inv_with_tasks; [done|]. intros tk Htk. exists tk.
  split; [by eapply list_elem_of_delete_inv | done].
Qed.

Lemma Inv_suspend_task n tk w :
  Inv w → tasks w !! n = Some tk →
  Inv (with_tasks (<[n := suspendAtUpload tk]> (tasks w)) w).
Proof.
  intros HI Hn. apply Inv_with_tasks; [done|]. intros tk' Htk'.
  apply list_elem_of_lookup in Htk' as [i Hi].
  apply list_lookup_insert_Some in Hi as [(-> & <- & _)|[_ Hi]].
  - exists tk. split; [by eapply list_elem_of_lookup_2 | done].
  - exists tk'. split; [by eapply list_elem_of_lookup_2 | done].
Qed.

Lemma Inv_processQueue w : Inv w → Inv (processQueue w).
Proof.
  intros HI. unfold processQueue.
  destruct (bool_decide _) eqn:Hcap; simpl; [done|].
  apply bool_decide_eq_false in Hcap.
  destruct (bool_decide _) eqn:Hlen; simpl; [done|]. clear Hlen.
  destruct (requestQueue w) as [|chunkId rest] eqn:Hq; [done|].
  destruct HI as [_ Hmap Hqueue Ht Hh].
  assert (∀ q, q ∈ rest → is_Some (chunks w !! q)) as Hrest.
  { intros q Hin. apply Hqueue. rewrite Hq. by right. }
  case_bool_decide as Hempty.
  { constructor; simpl; try done. unfold maxConcurrentRequests in *. lia. }
  simpl. destruct (chunks w !! chunkId) as [a|] eqn:Ha.
  - destruct (Hmap _ _ Ha) as (c & Hc & Hid).
    constructor; simpl; try done.
    + unfold maxConcurrentRequests in *. lia.
    + intros q b Hb. destruct (Hmap _ _ Hb) as (c' & Hc' & <-).
      by apply lookup_alter_keepsId.
    + intros tk Htk. apply elem_of_app in Htk as [Htk|Htk].
      * destruct (Ht _ Htk) as (c' & Hc' & <-). by apply lookup_alter_keepsId.
      * apply list_elem_of_singleton in Htk as ->. simpl. rewrite <- Hid.
        by apply lookup_alter_keepsId.
    + apply Forall_alter; [done|]. intros c' _.
      by apply updateStatus_keepsGood.
  - constructor; simpl; try done. unfold maxConcurrentRequests in *. lia.
Qed.

Lemma Inv_finallyBlock w : Inv w → Inv (finallyBlock w).
Proof.
  intros [Hcap Hmap Hq Ht Hh]. apply Inv_processQueue.
  constructor; simpl; try done. lia.
Qed.

Lemma Inv_requestChunk chunkId w : Inv w → Inv (requestChunk chunkId w).
Proof.
  intros HI. unfold requestChunk.
  destruct (chunks w !! chunkId) as [a|] eqn:Ha; [|by apply Inv_log].
  destruct (heap w !! a) as [chunk|]; [|done].
  destruct (skipsRequest _); [by apply Inv_log|].
  apply Inv_processQueue. destruct HI as [Hcap Hmap Hq Ht Hh].
  constructor; simpl; try done.
  intros q Hin. apply elem_of_app in Hin as [Hin|Hin]; [by apply Hq|].
  apply list_elem_of_singleton in Hin as ->. by rewrite Ha.
Qed.

Lemma Inv_uploadFailed a chunk w : Inv w → Inv (uploadFailed a chunk w).
Proof.
  intros HI. apply Inv_modify_chunk;
    [apply updateStatus_keepsId | by apply updateStatus_keepsGood | by apply Inv_log].
Qed.

Lemma Inv_tryUpload a chunk pixels g w : Inv w → Inv (tryUpload a chunk pixels g w).
Proof.
  intros HI. unfold tryUpload.
  destruct (gl_prepareTexture (glctx w)) as [tex glc].
  assert (∀ w0, Inv w0 → Inv (storeTexture a chunk pixels tex w0)) as Hset.
  { intros w0 H0. apply Inv_log, Inv_modify_chunk;
      [apply setTexture_keepsId | apply setTexture_keepsGood | by apply Inv_with_glctx]. }
  destruct g.
  - by apply Inv_uploadFailed.
  - by apply Inv_uploadFailed, Inv_with_glctx.
  - case_match; by apply Hset, Inv_with_glctx.
  - case_match; [apply Inv_uploadFailed|]; by apply Hset, Inv_with_glctx.
Qed.

Lemma Inv_uploadChunkToGPU a g w : Inv w → Inv (uploadChunkToGPU a g w).
Proof.
  intros HI. unfold uploadChunkToGPU.
  destruct (heap w !! a) as [chunk|]; [|done].
  destruct (gl w); [|by apply Inv_log].
  destruct (ImageChunk.data chunk) as [pixels|]; [|by apply Inv_log].
  by apply Inv_tryUpload.
Qed.

Lemma Inv_resumeFetched tk r g w : Inv w → Inv (resumeFetched tk r g w).1.
Proof.
  intros HI. unfold resumeFetched.
  destruct (received r) as [e|[[width height] pixels]]; simpl.
  - apply Inv_modify_chunk;
      [apply updateStatus_keepsId | by apply updateStatus_keepsGood | by apply Inv_log].
  - apply Inv_uploadChunkToGPU, Inv_log.
    apply Inv_modify_chunk; [apply setData_keepsId | apply setData_keepsGood |].
    apply Inv_modify_chunk; [apply setSize_keepsId | apply setSize_keepsGood | done].
Qed.

Lemma uploadFailed_effect a chunk w :
  sameControl w (uploadFailed a chunk w)
  ∧ heap (uploadFailed a chunk w)
    = alter (ImageChunk.updateStatus ERROR (clock w)) a (heap w)
  ∧ console (uploadFailed a chunk w)
    = console w ++ [LogUploadFailed (ImageChunk.id chunk)]
  ∧ glctx (uploadFailed a chunk w) = glctx w.
Proof. done. Qed.

Lemma storeTexture_effect a chunk pixels tex w :
  sameControl w (storeTexture a chunk pixels tex w)
  ∧ heap (storeTexture a chunk pixels tex w)
    = alter (ImageChunk.setTexture tex (clock w)) a (heap w)
  ∧ console (storeTexture a chunk pixels tex w)
    = console w ++ [LogUploaded (ImageChunk.id chunk)].
Proof. done. Qed.

Lemma tryUpload_effect a chunk pixels g w :
  sameControl w (tryUpload a chunk pixels g w)
  ∧ heap (tryUpload a chunk pixels g w) = alter (uploadEffect w g) a (heap w)
  ∧ console (tryUpload a chunk pixels g w)
    = console w ++ uploadLog (ImageChunk.id chunk) w g.
Proof.
  unfold tryUpload, uploadEffect, uploadLog.
  assert ((gl_prepareTexture (glctx w)).1 = next_texture (glctx w)) as Htex by done.
  destruct (gl_prepareTexture (glctx w)) as [tex glc]. simpl in Htex. subst tex.
  destruct g; try done;
    replace (onChunkReady (storeTexture a chunk pixels (next_texture (glctx w))
                             (with_glctx glc w)))
      with (onChunkReady w) by done;
    destruct (onChunkReady w); try done.
  destruct (storeTexture_effect a chunk pixels (next_texture (glctx w))
              (with_glctx glc w)) as (Hctl & Hh & Hl).
  set (w1 := storeTexture _ _ _ _ _) in *.
  destruct (uploadFailed_effect a chunk w1) as (_ & -> & -> & _).
  rewrite Hh, Hl. replace (clock w1) with (clock w) by done.
  split_and!; [done|..].
  - by rewrite list_alter_alter_eq.
  - by rewrite <- app_assoc.
Qed.

Lemma uploadChunkToGPU_effect a g w c :
  heap w !! a = Some c → is_Some (ImageChunk.data c) →
  sameControl w (uploadChunkToGPU a g w)
  ∧ heap (uploadChunkToGPU a g w)
    = (if gl w then alter (uploadEffect w g) a (heap w) else heap w)
  ∧ console (uploadChunkToGPU a g w)
    = console w ++ (if gl w then uploadLog (ImageChunk.id c) w g
                    else [LogGlUnavailable]).
Proof.
  intros Hc [pixels Hpx]. unfold uploadChunkToGPU. rewrite Hc, Hpx.
  destruct (gl w) eqn:Hgl; [|done].
  destruct (tryUpload_effect a c pixels g w) as (Hctl & Hh & Hl). done.
Qed.

Lemma resumeFetched_effect tk r g w c :
  heap w !! t_chunk tk = Some c →
  sameControl w (resumeFetched tk r g w).1
  ∧ heap (resumeFetched tk r g w).1
    = alter (fetchEffect w r g) (t_chunk tk) (heap w)
  ∧ console (resumeFetched tk r g w).1
    = console w ++ fetchLog tk (ImageChunk.id c) w r g
  ∧ (resumeFetched tk r g w).2
    = match received r with inl _ => false | inr _ => true end.
Proof.
  intros Hc. unfold resumeFetched, fetchEffect, fetchLog.
  destruct (received r) as [e|[[width height] pixels]]; simpl.
  { done. }
  set (w1 := log _ _).
  assert (heap w1 !! t_chunk tk = Some (ImageChunk.setData pixels (clock w)
            (ImageChunk.setSize width height c))) as Hc1.
  { subst w1. simpl. rewrite !list_lookup_alter_eq, Hc. done. }
  destruct (uploadChunkToGPU_effect (t_chunk tk) g w1 _ Hc1) as (Hctl & Hh & Hl);
    [by eexists|].
  rewrite Hh, Hl. split_and!.
  - done.
  - change (heap w1) with
      (alter (ImageChunk.setData pixels (clock w)) (t_chunk tk)
         (alter (ImageChunk.setSize width height) (t_chunk tk) (heap w))).
    change (gl w1) with (gl w).
    destruct (gl w); by rewrite !list_alter_alter_eq.
  - change (console w1) with
      (console w ++ [LogDataReceived (t_chunkId tk) (length pixels)]).
    change (gl w1) with (gl w).
    destruct (gl w); by rewrite <- app_assoc.
  - done.
Qed.

Lemma tasks_resumeFetched tk r g w c :
  heap w !! t_chunk tk = Some c → tasks (resumeFetched tk r g w).1 = tasks w.
Proof.
  intros Hc. by destruct (resumeFetched_effect tk r g w c Hc) as ((_&_&_&?&_) & _).
Qed.

Lemma Inv_addChunk chunkInfo w : Inv w → Inv (addChunk chunkInfo w).
Proof.
  intros [Hcap Hmap Hq Ht Hh]. constructor; simpl; try done.
  - intros chunkId a Ha. apply lookup_insert_Some in Ha as [[<- <-]|[_ Ha]].
    + eexists. split; [by apply list_lookup_middle | done].
    + destruct (Hmap _ _ Ha) as (c & Hc & <-). exists c.
      split; [by apply lookup_app_l_Some | done].
  - intros q Hin. rewrite lookup_insert_is_Some. destruct (Hq _ Hin); eauto.
    destruct (decide (chunkId (ci_chunk_x chunkInfo) (ci_chunk_y chunkInfo) = q));
      [by left | by right].
  - intros tk Htk. destruct (Ht _ Htk) as (c & Hc & <-). exists c.
    split; [by apply lookup_app_l_Some | done].
  - apply Forall_app. split; [done|]. apply Forall_singleton, create_good.
Qed.

Lemma Inv_installMetadata md w : Inv w → Inv (installMetadata md w).
Proof.
  intros HI. unfold installMetadata.
  assert (Inv (with_metadata (Some md) w)) as HI' by by eapply Inv_same.
  revert HI'. generalize (with_metadata (Some md) w).
  induction (md_chunks md) as [|ci cis IH]; intros w0 H0; simpl; [done|].
  by apply IH, Inv_addChunk.
Qed.

Lemma Inv_initialize filePath md w :
  Inv w → Inv (initializeChunksFromMetadata filePath md w).
Proof. intros HI. apply Inv_installMetadata. by eapply Inv_same. Qed.

Lemma Inv_cleanupChunkAt a w : Inv w → Inv (cleanupChunkAt a w).
Proof.
  intros HI. unfold cleanupChunkAt.
  destruct (heap w !! a) as [chunk|] eqn:Hchunk; [|done]. simpl.
  destruct HI as [Hcap Hmap Hq Ht Hh].
  assert (∀ b c, heap w !! b = Some c →
            ∃ c', <[a := (ImageChunk.cleanup (glctx w) chunk).1]> (heap w) !! b = Some c'
                  ∧ ImageChunk.id c' = ImageChunk.id c) as Hext.
  { intros b c Hb. destruct (decide (a = b)) as [->|Hne].
    - rewrite list_lookup_insert_eq by by eapply lookup_lt_Some.
      eexists. split; [done|]. simpl. congruence.
    - rewrite list_lookup_insert_ne by done. eauto. }
  constructor; simpl; try done.
  - intros q b Hb. destruct (Hmap _ _ Hb) as (c & Hc & <-). by apply Hext.
  - intros tk Htk. destruct (Ht _ Htk) as (c & Hc & <-). by apply Hext.
  - apply Forall_insert; [done|]. apply (cleanup_good (glctx w)).
    rewrite Forall_lookup in Hh. by eapply Hh.
Qed.

Lemma Inv_cleanup w : Inv w → Inv (cleanup w).
Proof.
  intros HI. unfold cleanup.
  set (w1 := if gl w then _ else w).
  assert (Inv w1) as [Hcap Hmap Hq Ht Hh].
  { subst w1. destruct (gl w); [|done].
    assert (∀ l w0, Inv w0 → Inv (foldl (λ w a, cleanupChunkAt a w) w0 l)) as Hfold.
    { induction l as [|a l IH]; intros w0 H0; simpl; [done|].
      by apply IH, Inv_cleanupChunkAt. }
    by apply Hfold. }
  constructor; simpl; try done.
  intros q Hin. by apply elem_of_nil in Hin.
Qed.

Lemma Inv_newWorld : Inv newWorld.
Proof.
  constructor; simpl; try done.
  - intros q Hin. by apply elem_of_nil in Hin.
  - intros tk Hin. by apply elem_of_nil in Hin.
Qed.

Lemma Inv_run_event w e : Inv w → Inv (run_event w e).
Proof.
  intros HI. destruct e as [| |filePath md|filePath|md|chunkId|n r g|n| |now]; simpl.
  - by eapply Inv_same.
  - by eapply Inv_same.
  - by apply Inv_initialize.
  - by eapply Inv_same.
  - by apply Inv_installMetadata.
  - by apply Inv_requestChunk.
  - destruct (tasks w !! n) as [tk|] eqn:Hn; [|done].
    destruct (t_phase tk); [|done].
    pose proof (Inv_resumeFetched tk r g w HI) as HI'.
    destruct (inv_tasks w HI tk) as (c & Hc & _); [by eapply list_elem_of_lookup_2|].
    pose proof (tasks_resumeFetched tk r g w c Hc) as Hts.
    destruct (resumeFetched tk r g w) as [w' suspended]; simpl in *.
    destruct suspended.
    + apply Inv_suspend_task; [done | by rewrite Hts].
    + by apply Inv_finallyBlock, Inv_delete_task.
  - destruct (tasks w !! n) as [tk|] eqn:Hn; [|done].
    destruct (t_phase tk); [done|].
    by apply Inv_finallyBlock, Inv_delete_task.
  - by apply Inv_cleanup.
  - by eapply Inv_same.
Qed.

Lemma Inv_run evs : ∀ w, Inv w → Inv (run w evs).
Proof.
  induction evs as [|e evs IH]; intros w HI; simpl; [done|].
  by apply IH, Inv_run_event.
Qed.

Lemma Inv_reachable w : reachable w → Inv w.
Proof. intros [evs ->]. apply Inv_run, Inv_newWorld. Qed.

End Wellformed.

(** * The scheduler of the manager *)

Section Queue.

Lemma processQueue_capped w :
  (maxConcurrentRequests ≤ activeRequests w)%Z → processQueue w = w.
Proof. intros H. unfold processQueue. by rewrite bool_decide_eq_true_2. Qed.

Lemma processQueue_empty w : requestQueue w = [] → processQueue w = w.
Proof.
  intros H. unfold processQueue. rewrite H. by destruct (bool_decide _).
Qed.

(** With a free slot and a queued id of the map, [processQueue] dequeues
    it, takes the slot, marks the chunk and suspends at the backend call. *)
Lemma processQueue_start w chunkId rest a :
  (activeRequests w < maxConcurrentRequests)%Z →
  requestQueue w = chunkId :: rest → chunkId ≠ "" →
  chunks w !! chunkId = Some a →
  processQueue w
  = with_tasks (tasks w ++ [newTask chunkId a])
      (log (LogStartRequest chunkId)
         (modify_chunk a (ImageChunk.updateStatus REQUESTING (clock w))
            (with_activeRequests (activeRequests w + 1)
               (with_requestQueue rest w)))).
Proof.
  intros Hcap Hq Hne Ha. unfold processQueue.
  rewrite bool_decide_eq_false_2 by lia. rewrite Hq. simpl.
  rewrite bool_decide_eq_false_2 by done. by rewrite Ha.
Qed.

Lemma queued_id_known w chunkId :
  Inv w → chunkId ∈ requestQueue w →
  chunkId ≠ "" ∧ ∃ a c, chunks w !! chunkId = Some a ∧ heap w !! a = Some c.
Proof.
  intros HI Hin. destruct (inv_queue w HI _ Hin) as [a Ha].
  destruct (inv_map w HI _ _ Ha) as (c & Hc & Hid).
  pose proof (inv_heap w HI) as Hgood. rewrite Forall_lookup in Hgood.
  destruct (Hgood _ _ Hc) as (Hne & _). split; [congruence | eauto].
Qed.


End Queue.










(** * Handling the reply of the backend *)

Lemma status_uploadEffect w g c :
  ImageChunk.status (uploadEffect w g c)
  = if uploadThrows w g then ERROR else IN_GPU.
Proof. unfold uploadEffect, uploadThrows. by destruct g, (onChunkReady w). Qed.

Lemma size_uploadEffect w g c :
  ImageChunk.width (uploadEffect w g c) = ImageChunk.width c
  ∧ ImageChunk.height (uploadEffect w g c) = ImageChunk.height c
  ∧ ImageChunk.data (uploadEffect w g c) = ImageChunk.data c.
Proof. unfold uploadEffect. by destruct g, (onChunkReady w). Qed.

Lemma status_fetchEffect w r g c :
  ImageChunk.status (fetchEffect w r g c)
  = match received r with
    | inl _ => ERROR
    | inr _ => if gl w then (if uploadThrows w g then ERROR else IN_GPU) else IN_CPU
    end.
Proof.
  unfold fetchEffect. destruct (received r) as [e|[[width height] pixels]]; [done|].
  destruct (gl w); [apply status_uploadEffect | done].
Qed.

Lemma size_fetchEffect w r g c width height pixels :
  received r = inr (width, height, pixels) →
  ImageChunk.width (fetchEffect w r g c) = width
  ∧ ImageChunk.height (fetchEffect w r g c) = height
  ∧ ImageChunk.data (fetchEffect w r g c) = Some pixels.
Proof.
  intros Hr. unfold fetchEffect. rewrite Hr.
  destruct (gl w); [|done].
  by destruct (size_uploadEffect w g
    (ImageChunk.setData pixels (clock w) (ImageChunk.setSize width height c)))
    as (-> & -> & ->).
Qed.

Lemma statusAt_resumeFetched tk r g w c :
  heap w !! t_chunk tk = Some c →
  statusAt (resumeFetched tk r g w).1 (t_chunk tk)
  = Some (ImageChunk.status (fetchEffect w r g c)).
Proof.
  intros Hc. destruct (resumeFetched_effect tk r g w c Hc) as (_ & Hh & _).
  unfold statusAt. by rewrite Hh, list_lookup_alter_eq, Hc.
Qed.

(** The header of an 800×600 tile, and the 12-byte blob of a 1×1 tile. *)
Example header_800x600 :
  let header := [x00; x00; x03; x20; x00; x00; x02; x58] in
  getUint32 header 0 = Some 800%Z ∧ getUint32 header 4 = Some 600%Z.
Proof. by vm_compute. Qed.

Example blob_1x1 :
  parseChunkData [x00; x00; x00; x01; x00; x00; x00; x01; x10; x20; x30; xff]
  = inr (1%Z, 1%Z, [x10; x20; x30; xff]).
Proof. by vm_compute. Qed.

(** C2 as stated fails: a blob that passes both framing checks still takes
    its chunk to the error state when [createTexture()] returns null. *)
Lemma framing_ok_yet_error :
  let blob := [x00; x00; x00; x01; x00; x00; x00; x01; xff; xff; xff; xff] in
  let info := {| ci_x := 0; ci_y := 0; ci_width := 1; ci_height := 1;
                 ci_chunk_x := 0; ci_chunk_y := 0 |} in
  let md := {| total_width := 1; total_height := 1; chunk_size := 1024;
               chunks_x := 1; chunks_y := 1; md_chunks := [info] |} in
  let w := run newWorld [EvSetWebGLContext; EvInitialize "a.png" md;
                         EvRequestChunk "0_0"] in
  let w' := run_event w (EvFetched 0 (FetchBytes blob) CreateTextureNull) in
  ImageChunk.status <$> chunkOf w "0_0" = Some REQUESTING
  ∧ ImageChunk.status <$> chunkOf w' "0_0" = Some ERROR
  ∧ ¬ (length blob < 8)
  ∧ getUint32 blob 0 = Some 1%Z ∧ getUint32 blob 4 = Some 1%Z
  ∧ (Z.of_nat (length blob) - 8 = 1 * 1 * 4)%Z.
Proof. vm_compute. split_and!; try done. lia. Qed.

(** C2, amended: once a blob is handed over, the [try]/[catch] of the
    request ends with the chunk in the error state exactly when the blob
    is shorter than 8 bytes, or its length minus 8 differs from [w*h*4]
    for the big-endian header fields [w] and [h], or a WebGL context is
    installed and the upload that follows throws; the parsing itself
    fails exactly on the two framing conditions, and when it succeeds the
    extracted pixel array has exactly [w*h*4] bytes. *)
Theorem blob_processing_fails_iff w tk blob g c :
  heap w !! t_chunk tk = Some c →
  let w' := (resumeFetched tk (FetchBytes blob) g w).1 in
  (statusAt w' (t_chunk tk) = Some ERROR
   ↔ framingFails blob ∨ (gl w = true ∧ uploadThrows w g = true))
  ∧ ((∃ e, parseChunkData blob = inl e) ↔ framingFails blob)
  ∧ (∀ width height pixels,
       parseChunkData blob = inr (width, height, pixels) →
       getUint32 blob 0 = Some width ∧ getUint32 blob 4 = Some height
       ∧ Z.of_nat (length pixels) = (width * height * 4)%Z
       ∧ ImageChunk.data <$> heap w' !! t_chunk tk = Some (Some pixels)).
Proof.
  intros Hc w'. split_and!.
  - unfold w'. rewrite (statusAt_resumeFetched _ _ _ _ c Hc), status_fetchEffect.
    rewrite <- parseChunkData_fails_iff. simpl.
    destruct (parseChunkData blob) as [e|v].
    + split; [intros _; left; by eexists | done].
    + destruct (gl w), (uploadThrows w g); split; try done.
      * intros _. by right.
      * intros [[e ?]|[_ ?]]; done.
      * intros [[e ?]|[? _]]; done.
      * intros [[e ?]|[? _]]; done.
  - apply parseChunkData_fails_iff.
  - intros width height pixels Hparse.
    destruct (parseChunkData_ok _ _ _ _ Hparse) as (_ & ? & ? & _ & ?).
    split_and!; try done.
    destruct (resumeFetched_effect tk (FetchBytes blob) g w c Hc) as (_ & Hh & _).
    unfold w'. rewrite Hh, list_lookup_alter_eq, Hc. simpl.
    by destruct (size_fetchEffect w (FetchBytes blob) g c width height pixels)
      as (_ & _ & ->).
Qed.

Lemma blob_processing_fails_iff_witness :
  let blob := [x00; x00; x00; x0a; x00; x00; x00; x0a] ++ replicate 300 x00 in
  let info := {| ci_x := 0; ci_y := 0; ci_width := 10; ci_height := 10;
                 ci_chunk_x := 0; ci_chunk_y := 0 |} in
  let md := {| total_width := 10; total_height := 10; chunk_size := 1024;
               chunks_x := 1; chunks_y := 1; md_chunks := [info] |} in
  let w := run newWorld [EvSetWebGLContext; EvInitialize "a.png" md;
                         EvRequestChunk "0_0"] in
  framingFails blob
  ∧ statusAt (resumeFetched (newTask "0_0" 0) (FetchBytes blob) UploadOk w).1 0
    = Some ERROR.
Proof.
  intros blob info md w.
  assert (framingFails blob) as Hfail.
  { right. exists 10%Z, 10%Z. by vm_compute. }
  split; [done|].
  apply (blob_processing_fails_iff w (newTask "0_0" 0) blob UploadOk
           (ImageChunk.updateStatus REQUESTING 0 (ImageChunk.create info 0)));
    [by vm_compute | by left].
Defined.

(** C10: when the blob of a request parses, the chunk's stored width and
    height are the blob's own big-endian header fields from then on,
    whatever the metadata had declared for that chunk. *)
Theorem blob_dimensions_override w n tk blob g c width height pixels :
  tasks w !! n = Some tk → t_phase tk = AwaitFetch →
  heap w !! t_chunk tk = Some c →
  parseChunkData blob = inr (width, height, pixels) →
  ∃ c', heap (run_event w (EvFetched n (FetchBytes blob) g)) !! t_chunk tk = Some c'
        ∧ ImageChunk.width c' = width ∧ ImageChunk.height c' = height
        ∧ getUint32 blob 0 = Some width ∧ getUint32 blob 4 = Some height.
Proof.
  intros Hn Hphase Hc Hparse. simpl. rewrite Hn, Hphase.
  destruct (resumeFetched_effect tk (FetchBytes blob) g w c Hc) as (_ & Hh & _ & Hs).
  simpl in Hs. rewrite Hparse in Hs.
  destruct (resumeFetched tk (FetchBytes blob) g w) as [w' suspended].
  simpl in *. subst suspended. simpl. rewrite Hh, list_lookup_alter_eq, Hc. simpl.
  eexists. split; [done|].
  destruct (size_fetchEffect w (FetchBytes blob) g c width height pixels Hparse)
    as (-> & -> & _).
  by destruct (parseChunkData_ok _ _ _ _ Hparse) as (_ & ? & ? & _).
Qed.

Lemma blob_dimensions_override_witness :
  let blob := [x00; x00; x00; x02; x00; x00; x00; x01;
               x01; x02; x03; x04; x05; x06; x07; x08] in
  let info := {| ci_x := 0; ci_y := 0; ci_width := 1024; ci_height := 1000;
                 ci_chunk_x := 0; ci_chunk_y := 0 |} in
  let md := {| total_width := 1024; total_height := 1000; chunk_size := 1024;
               chunks_x := 1; chunks_y := 1; md_chunks := [info] |} in
  let w := run newWorld [EvSetWebGLContext; EvInitialize "a.png" md;
                         EvRequestChunk "0_0"] in
  (ImageChunk.width <$> heap w !! 0 = Some 1024%Z)
  ∧ ∃ c', heap (run_event w (EvFetched 0 (FetchBytes blob) UploadOk)) !! 0 = Some c'
          ∧ ImageChunk.width c' = 2%Z ∧ ImageChunk.height c' = 1%Z
          ∧ getUint32 blob 0 = Some 2%Z ∧ getUint32 blob 4 = Some 1%Z.
Proof.
  intros blob info md w. split; [by vm_compute|].
  apply (blob_dimensions_override w 0 (newTask "0_0" 0) blob UploadOk
           (ImageChunk.updateStatus REQUESTING 0 (ImageChunk.create info 0))
           2 1 [x01; x02; x03; x04; x05; x06; x07; x08]); by vm_compute.
Defined.

(** * Failures of a single request *)




(** C8 as stated fails: a chunk in the error state that is requested again
    goes back to requesting, is fetched again and can end up loaded. *)
Lemma error_is_not_terminal :
  let blob := [x00; x00; x00; x01; x00; x00; x00; x01; xff; xff; xff; xff] in
  let info := {| ci_x := 0; ci_y := 0; ci_width := 1; ci_height := 1;
                 ci_chunk_x := 0; ci_chunk_y := 0 |} in
  let md := {| total_width := 1; total_height := 1; chunk_size := 1024;
               chunks_x := 1; chunks_y := 1; md_chunks := [info] |} in
  let w := run newWorld [EvSetWebGLContext; EvInitialize "a.png" md;
                         EvRequestChunk "0_0";
                         EvFetched 0 FetchRejected UploadOk] in
  let w' := run_event w (EvRequestChunk "0_0") in
  let w'' := run_event w' (EvFetched 0 (FetchBytes blob) UploadOk) in
  ImageChunk.status <$> chunkOf w "0_0" = Some ERROR
  ∧ requestQueue w = [] ∧ tasks w = []
  ∧ ImageChunk.status <$> chunkOf w' "0_0" = Some REQUESTING
  ∧ tasks w' = [newTask "0_0" 0]
  ∧ ImageChunk.status <$> chunkOf w'' "0_0" = Some IN_GPU.
Proof. by vm_compute. Qed.

(** C8, amended: the error state is not terminal.  [requestChunk] on a
    chunk in the error state is handled like a first request: the id is
    appended to the queue and [processQueue] runs, after which the chunk
    is waiting in the queue or is back in the requesting state with a new
    fetch in flight; the latter at once when a slot is free and nothing
    else is queued. *)
Theorem error_chunk_is_requested_again w chunkId a c :
  reachable w → chunks w !! chunkId = Some a → heap w !! a = Some c →
  ImageChunk.status c = ERROR →
  let w' := requestChunk chunkId w in
  w' = processQueue (with_requestQueue (requestQueue w ++ [chunkId]) w)
  ∧ (chunkId ∈ requestQueue w'
     ∨ (statusAt w' a = Some REQUESTING ∧ newTask chunkId a ∈ tasks w'))
  ∧ ((activeRequests w < maxConcurrentRequests)%Z → requestQueue w = [] →
     statusAt w' a = Some REQUESTING ∧ tasks w' = tasks w ++ [newTask chunkId a]).
Proof.
  intros Hreach Ha Hc Hst w'. apply Inv_reachable in Hreach as HI.
  assert (w' = processQueue (with_requestQueue (requestQueue w ++ [chunkId]) w))
    as Hw'.
  { unfold w', requestChunk. by rewrite Ha, Hc, Hst. }
  assert (chunkId ≠ "") as Hne.
  { destruct (inv_map w HI _ _ Ha) as (c' & Hc' & <-).
    pose proof (inv_heap w HI) as Hgood. rewrite Forall_lookup in Hgood.
    by destruct (Hgood _ _ Hc'). }
  assert ((activeRequests w < maxConcurrentRequests)%Z → requestQueue w = [] →
          statusAt w' a = Some REQUESTING
          ∧ tasks w' = tasks w ++ [newTask chunkId a]) as Hnow.
  { intros Hcap Hq. rewrite Hw'.
    rewrite (processQueue_start _ chunkId [] a); simpl; [|done|by rewrite Hq|done..].
    unfold statusAt. simpl. by rewrite list_lookup_alter_eq, Hc. }
  split_and!; [done| |done].
  destruct (decide (maxConcurrentRequests ≤ activeRequests w)%Z) as [Hfull|Hfree].
  { left. rewrite Hw', processQueue_capped by done. simpl.
    apply elem_of_app. right. by left. }
  destruct (requestQueue w) as [|next rest] eqn:Hq.
  - right. destruct Hnow as [? Hts]; [lia|done|]. split; [done|].
    rewrite Hts. apply elem_of_app. right. by left.
  - left. destruct (queued_id_known w next HI) as (Hnext & b & _ & Hb & _).
    { rewrite Hq. by left. }
    rewrite Hw'.
    rewrite (processQueue_start _ next (rest ++ [chunkId]) b); simpl;
      [|lia|done..].
    apply elem_of_app. right. by left.
Qed.

Lemma error_chunk_is_requested_again_witness :
  let info := {| ci_x := 0; ci_y := 0; ci_width := 1; ci_height := 1;
                 ci_chunk_x := 0; ci_chunk_y := 0 |} in
  let md := {| total_width := 1; total_height := 1; chunk_size := 1024;
               chunks_x := 1; chunks_y := 1; md_chunks := [info] |} in
  let w := run newWorld [EvSetWebGLContext; EvInitialize "a.png" md;
                         EvRequestChunk "0_0";
                         EvFetched 0 FetchRejected UploadOk] in
  statusAt w 0 = Some ERROR
  ∧ statusAt (requestChunk "0_0" w) 0 = Some REQUESTING.
Proof.
  intros info md w. split; [by vm_compute|].
  destruct (error_chunk_is_requested_again w "0_0" 0
              (ImageChunk.updateStatus ERROR 0
                 (ImageChunk.updateStatus REQUESTING 0 (ImageChunk.create info 0))))
    as (_ & _ & Hnow); [by eexists | by vm_compute.. |].
  apply Hnow; by vm_compute.
Defined.

(** * Uploads and accepted requests *)

Section Counting.

Context {A : Type} (P : A → Prop) `{!∀ x, Decision (P x)}.

Lemma filter_length_cons x l :
  length (filter P (x :: l)) = hits P x + length (filter P l).
Proof. rewrite filter_cons. unfold hits. by case_decide. Qed.

Lemma filter_length_app l1 l2 :
  length (filter P (l1 ++ l2)) = length (filter P l1) + length (filter P l2).
Proof. by rewrite filter_app, length_app. Qed.

Lemma filter_length_middle l n x :
  l !! n = Some x →
  length (filter P l)
  = length (filter P (take n l)) + hits P x + length (filter P (drop (S n) l)).
Proof.
  intros Hn. rewrite <- (take_drop_middle l n x Hn) at 1.
  rewrite filter_length_app, filter_length_cons. lia.
Qed.

Lemma filter_length_delete l n x :
  l !! n = Some x →
  length (filter P (delete n l)) + hits P x = length (filter P l).
Proof.
  intros Hn. rewrite (filter_length_middle l n x Hn).
  rewrite delete_take_drop, filter_length_app. lia.
Qed.

Lemma filter_length_insert l n x y :
  l !! n = Some x →
  length (filter P (<[n := y]> l)) + hits P x = length (filter P l) + hits P y.
Proof.
  intros Hn. rewrite (filter_length_middle l n x Hn).
  rewrite insert_take_drop by by eapply lookup_lt_Some.
  rewrite filter_length_app, filter_length_cons. lia.
Qed.

End Counting.

Section Uploads.

Variable chunkId : string.

Local Notation "'isUpload'" := (λ l : LogLine, l = LogUploaded chunkId).
Local Notation "'isQueued'" := (λ q : string, q = chunkId).
Local Notation "'isFetching'" :=
  (λ tk : Task, t_chunkId tk = chunkId ∧ t_phase tk = AwaitFetch).

Lemma uploads_log l w :
  uploads chunkId (log l w) = uploads chunkId w + hits isUpload l.
Proof.
  unfold uploads. simpl. rewrite filter_length_app, filter_length_cons. simpl. lia.
Qed.

Lemma processQueue_counts w :
  uploads chunkId (processQueue w) = uploads chunkId w
  ∧ pending chunkId (processQueue w) ≤ pending chunkId w.
Proof.
  unfold processQueue.
  destruct (_ || _); [done|].
  destruct (requestQueue w) as [|next rest] eqn:Hq; [done|].
  assert (pending chunkId w
          = hits isQueued next + length (filter isQueued rest)
            + length (filter isFetching (tasks w))) as Hp.
  { unfold pending. by rewrite Hq, filter_length_cons. }
  case_bool_decide.
  { split; [done|]. rewrite Hp. unfold pending. simpl. lia. }
  simpl. destruct (chunks w !! next) as [a|].
  - split.
    + unfold uploads. simpl. rewrite filter_length_app, filter_length_cons.
      unfold hits. rewrite decide_False by done. simpl. lia.
    + rewrite Hp. unfold pending. simpl.
      rewrite filter_length_app, filter_length_cons. unfold hits. simpl.
      repeat case_decide; simpl in *; try lia. intuition congruence.
  - split; [done|]. rewrite Hp. unfold pending. simpl. lia.
Qed.

Lemma finallyBlock_counts w :
  uploads chunkId (finallyBlock w) = uploads chunkId w
  ∧ pending chunkId (finallyBlock w) ≤ pending chunkId w.
Proof.
  unfold finallyBlock.
  destruct (processQueue_counts (with_activeRequests (activeRequests w - 1) w))
    as [-> Hp].
  by split.
Qed.

Lemma requestChunk_counts id' w :
  uploads chunkId (requestChunk id' w) = uploads chunkId w
  ∧ pending chunkId (requestChunk id' w)
    ≤ pending chunkId w
      + (if bool_decide (id' = chunkId) && accepts w chunkId then 1 else 0).
Proof.
  unfold requestChunk, accepts, chunkOf.
  destruct (chunks w !! id') as [a|] eqn:Ha.
  2:{ rewrite uploads_log. unfold hits. rewrite decide_False by done.
      split; [lia | unfold pending; simpl; lia]. }
  destruct (heap w !! a) as [chunk|] eqn:Hc; [|split; [done|lia]].
  destruct (skipsRequest (ImageChunk.status chunk)) eqn:Hskip.
  { rewrite uploads_log. unfold hits. rewrite decide_False by done.
    split; [lia | unfold pending; simpl; lia]. }
  match goal with
  | |- context [processQueue ?w0] =>
      destruct (processQueue_counts w0) as [-> Hp]
  end.
  split; [done|]. etrans; [exact Hp|].
  unfold pending. simpl. rewrite filter_length_app, filter_length_cons.
  unfold hits. simpl. case_bool_decide as Heq; case_decide; simpl; try lia.
  - subst id'. rewrite Ha. simpl. rewrite Hc, Hskip. simpl. lia.
  - congruence.
Qed.

Lemma uploadLog_counts cid w g :
  length (filter isUpload (uploadLog cid w g)) ≤ (if decide (cid = chunkId) then 1 else 0).
Proof.
  unfold uploadLog.
  destruct g, (onChunkReady w); simpl;
    rewrite ?filter_cons, ?filter_nil;
    repeat case_decide; simpl; try lia; congruence.
Qed.

Lemma fetchLog_counts tk cid w r g :
  length (filter isUpload (fetchLog tk cid w r g))
  ≤ match received r with
    | inl _ => 0
    | inr _ => if decide (cid = chunkId) then 1 else 0
    end.
Proof.
  unfold fetchLog. destruct (received r) as [e|[[width height] pixels]].
  - rewrite filter_cons, filter_nil. by case_decide.
  - rewrite filter_length_cons. unfold hits at 1.
    rewrite decide_False by done. simpl.
    destruct (gl w); [apply uploadLog_counts|].
    rewrite filter_cons, filter_nil. case_decide; simpl; [done|lia].
Qed.

Lemma installMetadata_control md w :
  let w' := installMetadata md w in
  requestQueue w' = requestQueue w ∧ tasks w' = tasks w ∧ console w' = console w.
Proof.
  unfold installMetadata.
  set (w0 := with_metadata _ _).
  change (requestQueue w) with (requestQueue w0). change (tasks w) with (tasks w0).
  change (console w) with (console w0).
  generalize w0. induction (md_chunks md) as [|ci cis IH]; intros w1; simpl; [done|].
  by destruct (IH (addChunk ci w1)) as (-> & -> & ->).
Qed.

Lemma cleanup_control w :
  requestQueue (cleanup w) = [] ∧ tasks (cleanup w) = tasks w
  ∧ console (cleanup w) = console w ++ [LogCleanup].
Proof.
  unfold cleanup. simpl. split; [done|].
  assert (∀ l w0, tasks (foldl (λ w a, cleanupChunkAt a w) w0 l) = tasks w0
                  ∧ console (foldl (λ w a, cleanupChunkAt a w) w0 l) = console w0)
    as Hfold.
  { induction l as [|a l IH]; intros w0; simpl; [done|].
    destruct (IH (cleanupChunkAt a w0)) as [-> ->].
    unfold cleanupChunkAt. by destruct (heap w0 !! a). }
  destruct (gl w); [|done].
  by destruct (Hfold ((map_to_list (chunks w)).*2) w) as [-> ->].
Qed.

(** One event raises uploads plus pending requests by at most the request
    it accepts. *)
Lemma run_event_counts w e :
  Inv w →
  uploads chunkId (run_event w e) + pending chunkId (run_event w e)
  ≤ uploads chunkId w + pending chunkId w + accepted chunkId w [e].
Proof.
  intros HI. destruct e as [| |filePath md|filePath|md|id'|n r g|n| |now]; simpl;
    try (unfold uploads, pending; simpl; lia).
  - destruct (installMetadata_control md (with_currentFilePath (Some filePath) w))
      as (Hq & Ht & Hl).
    unfold uploads, pending, initializeChunksFromMetadata in *. simpl in *.
    rewrite Hq, Ht, Hl. lia.
  - destruct (installMetadata_control md w) as (Hq & Ht & Hl).
    unfold uploads, pending, initializeChunks_resume in *. simpl in *.
    rewrite Hq, Ht, Hl. lia.
  - destruct (requestChunk_counts id' w) as [-> Hp]. lia.
  - destruct (tasks w !! n) as [tk|] eqn:Hn; [|lia].
    destruct (t_phase tk) eqn:Hphase; [|lia].
    destruct (inv_tasks w HI tk) as (c & Hc & Hid); [by eapply list_elem_of_lookup_2|].
    destruct (resumeFetched_effect tk r g w c Hc)
      as ((_ & Hq & _ & Ht & _) & _ & Hl & Hs).
    pose proof (fetchLog_counts tk (ImageChunk.id c) w r g) as Hlog.
    destruct (resumeFetched tk r g w) as [w' suspended]. simpl in *.
    assert (uploads chunkId w'
            = uploads chunkId w
              + length (filter isUpload (fetchLog tk (ImageChunk.id c) w r g)))
      as Hup.
    { unfold uploads. by rewrite Hl, filter_length_app. }
    destruct (received r) as [e|v]; subst suspended.
    + match goal with
      | |- context [finallyBlock ?w0] => destruct (finallyBlock_counts w0) as [-> Hp]
      end.
      assert (pending chunkId (with_tasks (delete n (tasks w')) w')
              ≤ pending chunkId w) as Hdel.
      { unfold pending. simpl. rewrite Hq, Ht.
        pose proof (filter_length_delete isFetching _ _ _ Hn). lia. }
      unfold uploads in *. simpl in *. lia.
    + assert (pending chunkId (with_tasks (<[n:=suspendAtUpload tk]> (tasks w')) w')
              + hits isFetching tk = pending chunkId w) as Hins.
      { unfold pending. simpl. rewrite Hq, Ht.
        pose proof (filter_length_insert isFetching _ _ _ (suspendAtUpload tk) Hn) as Hf.
        assert (hits isFetching (suspendAtUpload tk) = 0) as Hz.
        { unfold hits. rewrite decide_False; [done|]. by intros [_ ?]. }
        lia. }
      assert (hits isFetching tk = if decide (ImageChunk.id c = chunkId) then 1 else 0)
        as Hhit.
      { unfold hits. rewrite Hid, Hphase.
        repeat case_decide; try done; intuition congruence. }
      unfold uploads in *. simpl in *. lia.
  - destruct (tasks w !! n) as [tk|] eqn:Hn; [|lia].
    destruct (t_phase tk) eqn:Hphase; [lia|].
    match goal with
    | |- context [finallyBlock ?w0] => destruct (finallyBlock_counts w0) as [-> Hp]
    end.
    assert (pending chunkId (with_tasks (delete n (tasks w)) w) ≤ pending chunkId w).
    { unfold pending. simpl.
      pose proof (filter_length_delete isFetching _ _ _ Hn). lia. }
    unfold uploads in *. simpl in *. lia.
  - destruct (cleanup_control w) as (Hq & Ht & Hl).
    unfold uploads, pending.
    rewrite Hq, Ht, Hl, filter_length_app, filter_length_cons.
    unfold hits. rewrite decide_False by done. simpl. lia.
Qed.

Lemma run_counts evs : ∀ w,
  Inv w →
  uploads chunkId (run w evs) + pending chunkId (run w evs)
  ≤ uploads chunkId w + pending chunkId w + accepted chunkId w evs.
Proof.
  induction evs as [|e evs IH]; intros w HI; [simpl; lia|].
  pose proof (run_event_counts w e HI) as Hstep.
  pose proof (IH (run_event w e) (Inv_run_event w e HI)) as Hrest.
  change (run w (e :: evs)) with (run (run_event w e) evs).
  simpl in *. lia.
Qed.

End Uploads.

Lemma accepted_le_requested chunkId evs : ∀ w,
  accepted chunkId w evs ≤ requested chunkId evs.
Proof.
  induction evs as [|e evs IH]; intros w; simpl; [done|].
  specialize (IH (run_event w e)).
  destruct e; simpl in *; try lia.
  destruct (bool_decide _), (accepts w chunkId); simpl; lia.
Qed.

Lemma skipped_request chunkId w a c :
  chunks w !! chunkId = Some a → heap w !! a = Some c →
  ImageChunk.status c ∈ [REQUESTING; IN_CPU; IN_GPU] →
  requestChunk chunkId w = log (LogSkipRequest chunkId (ImageChunk.status c)) w
  ∧ accepts w chunkId = false.
Proof.
  intros Ha Hc Hst. unfold requestChunk, accepts, chunkOf. rewrite Ha. simpl.
  rewrite Hc.
  assert (skipsRequest (ImageChunk.status c) = true) as ->; [|done].
  repeat (apply elem_of_cons in Hst as [->|Hst]; [done|]).
  by apply elem_of_nil in Hst.
Qed.

Lemma uploads_le_accepted evs chunkId :
  uploads chunkId (run newWorld evs) ≤ accepted chunkId newWorld evs.
Proof.
  pose proof (run_counts chunkId evs newWorld Inv_newWorld) as H.
  change (uploads chunkId newWorld) with 0 in H.
  change (pending chunkId newWorld) with 0 in H. lia.
Qed.

(** A chunk that a run requests only once is uploaded at most once. *)
Lemma requested_once_uploaded_once evs chunkId :
  requested chunkId evs ≤ 1 → uploads chunkId (run newWorld evs) ≤ 1.
Proof.
  intros Hreq.
  pose proof (uploads_le_accepted evs chunkId).
  pose proof (accepted_le_requested chunkId evs newWorld). lia.
Qed.

(** C3 as stated fails: a chunk that is requested a second time while it
    is still waiting in the queue (its status is still unrequested) is
    fetched and uploaded twice. *)
Lemma chunk_uploaded_twice :
  let blob := [x00; x00; x00; x01; x00; x00; x00; x01; xff; xff; xff; xff] in
  let info cx cy := {| ci_x := Z.of_nat cx; ci_y := Z.of_nat cy; ci_width := 1;
                       ci_height := 1; ci_chunk_x := cx; ci_chunk_y := cy |} in
  let md := {| total_width := 2; total_height := 2; chunk_size := 1;
               chunks_x := 2; chunks_y := 2;
               md_chunks := [info 0 0; info 1 0; info 0 1; info 1 1] |} in
  let w := run newWorld
             [EvSetWebGLContext; EvInitialize "a.png" md;
              EvRequestChunk "1_1"; EvRequestChunk "0_0";
              EvRequestChunk "1_0"; EvRequestChunk "0_1"] in
  let w' := run w
              [EvRequestChunk "0_1";
               EvFetched 0 (FetchBytes blob) UploadOk; EvSettled 0;
               EvFetched 2 (FetchBytes blob) UploadOk; EvSettled 2;
               EvFetched 2 (FetchBytes blob) UploadOk; EvSettled 2] in
  ImageChunk.status <$> chunkOf w "0_1" = Some UNREQUESTED
  ∧ requestQueue w = ["0_1"]
  ∧ uploads "0_1" w' = 2
  ∧ ImageChunk.status <$> chunkOf w' "0_1" = Some IN_GPU.
Proof. by vm_compute. Qed.

(** C3, amended: the manager uploads a chunk at most once per request it
    accepts for that chunk, a request being accepted when the chunk is in
    the unrequested or the error state; so a chunk that is requested once
    is uploaded at most once; a request for a chunk that is already
    requesting, in CPU or in GPU is ignored (nothing but a console line
    changes) and is not counted as accepted, so it never results in a
    texture upload. *)
Theorem uploads_bounded_by_accepted_requests evs chunkId :
  uploads chunkId (run newWorld evs) ≤ accepted chunkId newWorld evs
  ∧ (requested chunkId evs ≤ 1 → uploads chunkId (run newWorld evs) ≤ 1)
  ∧ ∀ w a c,
      chunks w !! chunkId = Some a → heap w !! a = Some c →
      ImageChunk.status c ∈ [REQUESTING; IN_CPU; IN_GPU] →
      requestChunk chunkId w = log (LogSkipRequest chunkId (ImageChunk.status c)) w
      ∧ accepts w chunkId = false.
Proof.
  split_and!.
  - apply uploads_le_accepted.
  - apply requested_once_uploaded_once.
  - apply skipped_request.
Qed.

Lemma uploads_bounded_by_accepted_requests_witness :
  let info := {| ci_x := 0; ci_y := 0; ci_width := 1; ci_height := 1;
                 ci_chunk_x := 0; ci_chunk_y := 0 |} in
  let md := {| total_width := 1; total_height := 1; chunk_size := 1024;
               chunks_x := 1; chunks_y := 1; md_chunks := [info] |} in
  let w := run newWorld [EvSetWebGLContext; EvInitialize "a.png" md;
                         EvRequestChunk "0_0"] in
  requestChunk "0_0" w = log (LogSkipRequest "0_0" REQUESTING) w.
Proof.
  intros info md w.
  destruct (uploads_bounded_by_accepted_requests [] "0_0") as (_ & _ & Hskip).
  destruct (Hskip w 0 (ImageChunk.updateStatus REQUESTING 0 (ImageChunk.create info 0)))
    as [Heq _]; [by vm_compute.. | |exact Heq].
  simpl. apply elem_of_cons. by left.
Defined.

(** * Textures *)

Lemma cleanup_releases gl c :
  let c' := (ImageChunk.cleanup gl c).1 in
  let gl' := (ImageChunk.cleanup gl c).2 in
  ImageChunk.status c' = UNREQUESTED
  ∧ ImageChunk.texture c' = None ∧ ImageChunk.data c' = None
  ∧ (∀ tex, ImageChunk.texture c = Some tex →
       gl_calls gl' = gl_calls gl ++ [GlDeleteTexture tex])
  ∧ (ImageChunk.texture c = None → gl' = gl).
Proof.
  simpl. split_and!; try done.
  - by intros tex ->.
  - by intros ->.
Qed.

Lemma cleanupChunkAt_other a b w :
  a ≠ b → heap (cleanupChunkAt a w) !! b = heap w !! b.
Proof.
  intros Hne. unfold cleanupChunkAt. destruct (heap w !! a); [|done].
  simpl. by rewrite list_lookup_insert_ne.
Qed.

Lemma cleanupChunkAt_calls a w call :
  call ∈ gl_calls (glctx w) → call ∈ gl_calls (glctx (cleanupChunkAt a w)).
Proof.
  intros Hin. unfold cleanupChunkAt. destruct (heap w !! a) as [c|]; [|done].
  simpl. destruct (ImageChunk.texture c); [|done].
  simpl. apply elem_of_app. by left.
Qed.

Lemma cleanupChunkAt_released a b w c :
  heap w !! b = Some c → released c →
  ∃ c', heap (cleanupChunkAt a w) !! b = Some c' ∧ released c'.
Proof.
  intros Hb Hrel. destruct (decide (a = b)) as [->|Hne].
  - unfold cleanupChunkAt. rewrite Hb. simpl.
    rewrite list_lookup_insert_eq by by eapply lookup_lt_Some. by eexists.
  - rewrite cleanupChunkAt_other by done. eauto.
Qed.

Lemma cleanupChunkAt_here a w c :
  heap w !! a = Some c →
  (∃ c', heap (cleanupChunkAt a w) !! a = Some c' ∧ released c')
  ∧ ∀ tex, ImageChunk.texture c = Some tex →
      GlDeleteTexture tex ∈ gl_calls (glctx (cleanupChunkAt a w)).
Proof.
  intros Ha. unfold cleanupChunkAt. rewrite Ha. simpl. split.
  - rewrite list_lookup_insert_eq by by eapply lookup_lt_Some. by eexists.
  - intros tex ->. simpl. apply elem_of_app. right. by left.
Qed.

Lemma cleanup_fold_keeps l : ∀ w,
  (∀ call, call ∈ gl_calls (glctx w) →
     call ∈ gl_calls (glctx (foldl (λ w a, cleanupChunkAt a w) w l)))
  ∧ (∀ b c, heap w !! b = Some c → released c →
       ∃ c', heap (foldl (λ w a, cleanupChunkAt a w) w l) !! b = Some c'
             ∧ released c').
Proof.
  induction l as [|a l IH]; intros w; simpl; [eauto|].
  destruct (IH (cleanupChunkAt a w)) as [IHc IHr]. split.
  - intros call Hin. by apply IHc, cleanupChunkAt_calls.
  - intros b c Hb Hrel.
    destruct (cleanupChunkAt_released a b w c Hb Hrel) as (c1 & Hc1 & Hrel1).
    by eapply IHr.
Qed.

Lemma cleanup_fold_releases l : ∀ w a c,
  a ∈ l → heap w !! a = Some c →
  (∃ c', heap (foldl (λ w a, cleanupChunkAt a w) w l) !! a = Some c' ∧ released c')
  ∧ ∀ tex, ImageChunk.texture c = Some tex →
      GlDeleteTexture tex
      ∈ gl_calls (glctx (foldl (λ w a, cleanupChunkAt a w) w l)).
Proof.
  induction l as [|b l IH]; intros w a c Hin Ha; [by apply elem_of_nil in Hin|].
  simpl. destruct (decide (b = a)) as [->|Hne].
  - destruct (cleanupChunkAt_here a w c Ha) as ((c1 & Hc1 & Hrel1) & Hdel).
    destruct (cleanup_fold_keeps l (cleanupChunkAt a w)) as [Hcalls Hkeep].
    split; [by eapply Hkeep | intros tex Htex; by apply Hcalls, Hdel].
  - apply elem_of_cons in Hin as [->|Hin]; [done|].
    apply (IH (cleanupChunkAt b w) a c Hin).
    by rewrite cleanupChunkAt_other.
Qed.

(** [cleanup()] with a WebGL context installed resets every chunk of the
    map and deletes the texture it held. *)
Lemma manager_cleanup_releases w chunkId a c :
  gl w = true → chunks w !! chunkId = Some a → heap w !! a = Some c →
  (∃ c', heap (cleanup w) !! a = Some c' ∧ released c')
  ∧ ∀ tex, ImageChunk.texture c = Some tex →
      GlDeleteTexture tex ∈ gl_calls (glctx (cleanup w)).
Proof.
  intros Hgl Ha Hc. unfold cleanup. rewrite Hgl. simpl.
  apply cleanup_fold_releases; [|done].
  apply list_elem_of_fmap. exists (chunkId, a). split; [done|].
  by apply elem_of_map_to_list.
Qed.

(** C4 as stated fails: a chunk that was queued twice is started again
    after it reached the GPU, and then holds its texture while it is
    requesting and, when that second request fails, while it is in the
    error state; nothing deletes the texture. *)
Lemma texture_held_outside_in_gpu :
  let blob := [x00; x00; x00; x01; x00; x00; x00; x01; xff; xff; xff; xff] in
  let info cx cy := {| ci_x := Z.of_nat cx; ci_y := Z.of_nat cy; ci_width := 1;
                       ci_height := 1; ci_chunk_x := cx; ci_chunk_y := cy |} in
  let md := {| total_width := 2; total_height := 2; chunk_size := 1;
               chunks_x := 2; chunks_y := 2;
               md_chunks := [info 0 0; info 1 0; info 0 1; info 1 1] |} in
  let w := run newWorld
             [EvSetWebGLContext; EvInitialize "a.png" md;
              EvRequestChunk "1_1"; EvRequestChunk "0_0";
              EvRequestChunk "1_0"; EvRequestChunk "0_1"; EvRequestChunk "0_1";
              EvFetched 0 (FetchBytes blob) UploadOk; EvSettled 0;
              EvFetched 2 (FetchBytes blob) UploadOk; EvSettled 2] in
  let w' := run_event w (EvFetched 2 FetchRejected UploadOk) in
  ImageChunk.status <$> chunkOf w "0_1" = Some REQUESTING
  ∧ ImageChunk.texture <$> chunkOf w "0_1" = Some (Some 1)
  ∧ ImageChunk.status <$> chunkOf w' "0_1" = Some ERROR
  ∧ ImageChunk.texture <$> chunkOf w' "0_1" = Some (Some 1)
  ∧ deletedTextures (glctx w') = [].
Proof. by vm_compute. Qed.

(** C4, amended: in every reachable state a chunk in the GPU state holds
    a texture and a chunk in the unrequested state holds none; the
    transition back to unrequested ([cleanup]) deletes and clears the
    texture the chunk held; [updateStatus], and with it every transition
    to the error state, leaves the texture field as it is. *)
Theorem texture_lifecycle :
  (∀ w a c, reachable w → heap w !! a = Some c →
     (ImageChunk.status c = IN_GPU → is_Some (ImageChunk.texture c))
     ∧ (ImageChunk.status c = UNREQUESTED → ImageChunk.texture c = None))
  ∧ (∀ gl c,
       let c' := (ImageChunk.cleanup gl c).1 in
       let gl' := (ImageChunk.cleanup gl c).2 in
       ImageChunk.status c' = UNREQUESTED
       ∧ ImageChunk.texture c' = None ∧ ImageChunk.data c' = None
       ∧ (∀ tex, ImageChunk.texture c = Some tex →
            gl_calls gl' = gl_calls gl ++ [GlDeleteTexture tex])
       ∧ (ImageChunk.texture c = None → gl' = gl))
  ∧ (∀ w chunkId a c,
       gl w = true → chunks w !! chunkId = Some a → heap w !! a = Some c →
       (∃ c', heap (cleanup w) !! a = Some c' ∧ released c')
       ∧ ∀ tex, ImageChunk.texture c = Some tex →
           GlDeleteTexture tex ∈ gl_calls (glctx (cleanup w)))
  ∧ (∀ st now c,
       ImageChunk.texture (ImageChunk.updateStatus st now c) = ImageChunk.texture c).
Proof.
  split_and!.
  - intros w a c Hreach Hc. apply Inv_reachable in Hreach.
    pose proof (inv_heap w Hreach) as Hgood. rewrite Forall_lookup in Hgood.
    by destruct (Hgood _ _ Hc) as (_ & ? & ?).
  - apply cleanup_releases.
  - apply manager_cleanup_releases.
  - done.
Qed.

Lemma texture_lifecycle_witness :
  let blob := [x00; x00; x00; x01; x00; x00; x00; x01; xff; xff; xff; xff] in
  let info := {| ci_x := 0; ci_y := 0; ci_width := 1; ci_height := 1;
                 ci_chunk_x := 0; ci_chunk_y := 0 |} in
  let md := {| total_width := 1; total_height := 1; chunk_size := 1024;
               chunks_x := 1; chunks_y := 1; md_chunks := [info] |} in
  let w := run newWorld [EvSetWebGLContext; EvInitialize "a.png" md;
                         EvRequestChunk "0_0";
                         EvFetched 0 (FetchBytes blob) UploadOk] in
  statusAt w 0 = Some IN_GPU
  ∧ GlDeleteTexture 0 ∈ gl_calls (glctx (cleanup w)).
Proof.
  intros blob info md w. split; [by vm_compute|].
  destruct texture_lifecycle as (_ & _ & Hclean & _).
  destruct (Hclean w "0_0" 0
              (ImageChunk.setTexture 0 0
                 (ImageChunk.setData [xff; xff; xff; xff] 0
                    (ImageChunk.setSize 1 1
                       (ImageChunk.updateStatus REQUESTING 0
                          (ImageChunk.create info 0))))))
    as [_ Hdel]; [by vm_compute..|].
  by apply Hdel.
Defined.

(** * More on the spatial batches *)

Module SpatialBatchesMore.
Import Scheduler SchedulerFacts SpatialBatches.

(** Every batch that is emitted is one of the four parity classes, and it
    is not empty. *)
Lemma emitted_batch_parity_class gx gy b :
  b ∈ createSpatialBatches gx gy →
  b ≠ [] ∧ ∃ px py, px < 2 ∧ py < 2 ∧ b = spatialBatch px py gx gy.
Proof.
  unfold createSpatialBatches. rewrite !pushIfNonEmpty_spec. simpl.
  unfold batch1, batch2, batch3, batch4. intros Hb.
  repeat (apply elem_of_app in Hb as [Hb|Hb]);
    try (by apply elem_of_nil in Hb);
    (case_decide; [by apply elem_of_nil in Hb|]);
    apply list_elem_of_singleton in Hb as ->;
    (split; [done|]); eexists _, _; (split_and!; [| |done]); lia.
Qed.

(** X1: two different tiles of one emitted batch are never adjacent, not
    even diagonally: they are at least two columns or two rows apart. *)
Theorem batch_tiles_not_adjacent gx gy b x1 y1 x2 y2 :
  b ∈ createSpatialBatches gx gy →
  chunkId x1 y1 ∈ b → chunkId x2 y2 ∈ b → (x1, y1) ≠ (x2, y2) →
  (2 ≤ Z.abs (Z.of_nat x1 - Z.of_nat x2) ∨ 2 ≤ Z.abs (Z.of_nat y1 - Z.of_nat y2))%Z.
Proof.
  intros Hb H1 H2 Hne.
  destruct (emitted_batch_parity_class gx gy b Hb) as (_ & px & py & ? & ? & ->).
  apply spatialBatch_parity in H1 as (_ & _ & Hx1 & Hy1); [|done..].
  apply spatialBatch_parity in H2 as (_ & _ & Hx2 & Hy2); [|done..].
  pose proof (Nat.div_mod_eq x1 2). pose proof (Nat.div_mod_eq x2 2).
  pose proof (Nat.div_mod_eq y1 2). pose proof (Nat.div_mod_eq y2 2).
  destruct (decide (x1 = x2)) as [->|?]; [|lia].
  destruct (decide (y1 = y2)) as [->|?]; [done|lia].
Qed.

Lemma batch_tiles_not_adjacent_witness :
  (2 ≤ Z.abs (Z.of_nat 0 - Z.of_nat 2) ∨ 2 ≤ Z.abs (Z.of_nat 1 - Z.of_nat 1))%Z.
Proof.
  apply (batch_tiles_not_adjacent 3 2 ["0_1"; "2_1"] 0 1 2 1).
  - vm_compute. apply list_elem_of_In. simpl. auto 10.
  - vm_compute. apply list_elem_of_In. simpl. auto.
  - vm_compute. apply list_elem_of_In. simpl. auto.
  - discriminate.
Defined.

(** X2: no emitted batch is empty, and nothing at all is emitted exactly
    when the grid has no column or no row. *)
Theorem createSpatialBatches_empty_cases gx gy :
  (∀ b, b ∈ createSpatialBatches gx gy → b ≠ [])
  ∧ (createSpatialBatches gx gy = [] ↔ gx = 0 ∨ gy = 0).
Proof.
  split; [intros b Hb; by apply emitted_batch_parity_class in Hb as [? _]|].
  unfold createSpatialBatches. rewrite !pushIfNonEmpty_spec. simpl.
  unfold batch1, batch2, batch3, batch4.
  repeat case_decide;
    repeat match goal with
           | H : context [spatialBatch _ _ _ _ = []] |- _ =>
               rewrite spatialBatch_nil in H by lia
           end;
    split; intros; try done; try lia.
Qed.

Lemma length_bind_fmap {A B C} (f : A → B → C) (xs : list B) (ys : list A) :
  length (ys ≫= λ y, f y <$> xs) = length ys * length xs.
Proof.
  induction ys as [|y ys IH]; [done|].
  rewrite bind_cons, length_app, length_fmap, IH. simpl. lia.
Qed.

Lemma length_spatialBatch px py gx gy :
  length (spatialBatch px py gx gy)
  = length (stride2 gy py gy) * length (stride2 gx px gx).
Proof.
  rewrite spatialBatch_bind.
  apply (length_bind_fmap (λ y x, chunkId x y)).
Qed.

(** The even and the odd indices below [n] are [n] indices. *)
Lemma length_stride2_both n :
  length (stride2 n 0 n) + length (stride2 n 1 n) = n.
Proof.
  rewrite <- length_app.
  transitivity (length (seq 0 n)); [|apply length_seq].
  apply Permutation_length, NoDup_Permutation.
  - apply NoDup_app. split_and!; try apply NoDup_stride2.
    intros x H0 H1.
    apply elem_of_stride2_parity in H0 as [_ ?]; [|lia].
    apply elem_of_stride2_parity in H1 as [_ ?]; [|lia]. lia.
  - apply NoDup_seq.
  - intros x. rewrite elem_of_app, !elem_of_stride2_parity, elem_of_seq by lia.
    pose proof (Nat.mod_upper_bound x 2). lia.
Qed.

(** X3: the batches hold [gx * gy] ids in all, one request per tile. *)
Theorem createSpatialBatches_total gx gy :
  length (concat (createSpatialBatches gx gy)) = gx * gy.
Proof.
  rewrite concat_createSpatialBatches. unfold batch1, batch2, batch3, batch4.
  rewrite !length_app, !length_spatialBatch.
  pose proof (length_stride2_both gx). pose proof (length_stride2_both gy). nia.
Qed.

End SpatialBatchesMore.

(** * The packet of the backend and the framing checks *)

Section Packets.

Lemma byte_of_Z_value z : Z.of_N (Byte.to_N (byte_of_Z z)) = (z mod 256)%Z.
Proof.
  unfold byte_of_Z. pose proof (Z.mod_pos_bound z 256 eq_refl) as Hb.
  destruct (Byte.of_N _) as [b|] eqn:Hof; simpl.
  - apply Byte.to_of_N in Hof. rewrite Hof. lia.
  - apply Byte.of_N_None_iff in Hof. lia.
Qed.

Lemma byte_of_Z_eq z b : (z mod 256)%Z = Z.of_N (Byte.to_N b) → byte_of_Z z = b.
Proof.
  intros H. unfold byte_of_Z. by rewrite H, N2Z.id, Byte.of_to_N.
Qed.

Lemma getUint32_skip4 a b c d l : getUint32 (a :: b :: c :: d :: l) 4 = getUint32 l 0.
Proof. done. Qed.

Lemma getUint32_to_be_bytes n rest :
  (0 ≤ n < 2 ^ 32)%Z → getUint32 (to_be_bytes n ++ rest) 0 = Some n.
Proof.
  intros Hn. unfold to_be_bytes, getUint32. simpl lookup. cbv beta iota.
  rewrite !byte_of_Z_value. f_equal.
  assert (n / 2 ^ 16 = n / 2 ^ 8 / 2 ^ 8)%Z as -> by by rewrite Z.div_div by lia.
  assert (n / 2 ^ 24 = n / 2 ^ 8 / 2 ^ 8 / 2 ^ 8)%Z as ->
    by by rewrite !Z.div_div by lia.
  change (2 ^ 8)%Z with 256%Z.
  pose proof (Z.div_mod n 256). pose proof (Z.mod_pos_bound n 256).
  pose proof (Z.div_mod (n / 256) 256).
  pose proof (Z.mod_pos_bound (n / 256) 256).
  pose proof (Z.div_mod (n / 256 / 256) 256).
  pose proof (Z.mod_pos_bound (n / 256 / 256) 256).
  assert (0 ≤ n / 256 / 256 / 256 < 256)%Z.
  { rewrite !Z.div_div by lia. split; [apply Z.div_pos; lia|].
    apply Z.div_lt_upper_bound; lia. }
  rewrite (Z.mod_small (n / 256 / 256 / 256)) by lia. lia.
Qed.

Lemma to_be_bytes_getUint32 b0 b1 b2 b3 rest n :
  getUint32 (b0 :: b1 :: b2 :: b3 :: rest) 0 = Some n →
  to_be_bytes n = [b0; b1; b2; b3].
Proof.
  unfold getUint32. simpl lookup. cbv beta iota. intros [= <-].
  pose proof (Byte.to_N_bounded b0). pose proof (Byte.to_N_bounded b1).
  pose proof (Byte.to_N_bounded b2). pose proof (Byte.to_N_bounded b3).
  set (B0 := Z.of_N (Byte.to_N b0)) in *. set (B1 := Z.of_N (Byte.to_N b1)) in *.
  set (B2 := Z.of_N (Byte.to_N b2)) in *. set (B3 := Z.of_N (Byte.to_N b3)) in *.
  assert (0 ≤ B0 < 256 ∧ 0 ≤ B1 < 256 ∧ 0 ≤ B2 < 256 ∧ 0 ≤ B3 < 256)%Z
    as (? & ? & ? & ?) by (subst B0 B1 B2 B3; lia).
  set (n := (B0 * 2 ^ 24 + B1 * 2 ^ 16 + B2 * 2 ^ 8 + B3)%Z).
  assert (n / 2 ^ 24 = B0)%Z as H24
    by (symmetry; apply (Z.div_unique_pos _ _ _ (B1 * 2 ^ 16 + B2 * 2 ^ 8 + B3)); lia).
  assert (n / 2 ^ 16 = B0 * 256 + B1)%Z as H16
    by (symmetry; apply (Z.div_unique_pos _ _ _ (B2 * 2 ^ 8 + B3)); lia).
  assert (n / 2 ^ 8 = B0 * 65536 + B1 * 256 + B2)%Z as H8
    by (symmetry; apply (Z.div_unique_pos _ _ _ B3); lia).
  unfold to_be_bytes. rewrite H24, H16, H8.
  f_equal; [|f_equal; [|f_equal; [|f_equal]]]; apply byte_of_Z_eq; symmetry.
  - apply (Z.mod_unique_pos _ _ 0); lia.
  - apply (Z.mod_unique_pos _ _ B0); lia.
  - apply (Z.mod_unique_pos _ _ (B0 * 256 + B1)); lia.
  - apply (Z.mod_unique_pos _ _ (B0 * 65536 + B1 * 256 + B2)); lia.
Qed.

End Packets.

(** X4: a packet laid out as the backend builds it, big-endian width,
    big-endian height, then [width * height * 4] bytes of pixels, passes
    the framing checks of [processQueue], which read back the same width,
    height and pixels. *)
Theorem data_packet_round_trip width height pixels :
  (0 ≤ width < 2 ^ 32)%Z → (0 ≤ height < 2 ^ 32)%Z →
  Z.of_nat (length pixels) = (width * height * 4)%Z →
  parseChunkData (data_packet width height pixels) = inr (width, height, pixels).
Proof.
  intros Hw Hh Hlen. unfold parseChunkData, data_packet.
  assert (getUint32 (to_be_bytes height ++ pixels) 0 = Some height) as Hgh
    by by apply getUint32_to_be_bytes.
  rewrite getUint32_to_be_bytes by done.
  set (l := to_be_bytes height ++ pixels) in *.
  change (to_be_bytes width ++ l)
    with (byte_of_Z (width / 2 ^ 24) :: byte_of_Z (width / 2 ^ 16)
          :: byte_of_Z (width / 2 ^ 8) :: byte_of_Z width :: l).
  rewrite getUint32_skip4, Hgh.
  replace (length _ <? 8)%nat with false by done.
  change (drop 8 _) with pixels.
  rewrite decide_False; [done|]. rewrite Hlen. lia.
Qed.

Lemma data_packet_round_trip_witness :
  parseChunkData (data_packet 1 1 [xff; x00; x00; xff])
  = inr (1%Z, 1%Z, [xff; x00; x00; xff]).
Proof.
  apply (data_packet_round_trip 1 1 [xff; x00; x00; xff]); [lia | lia | reflexivity].
Defined.

(** X5: conversely, a blob that passes the framing checks is the packet of
    the width, height and pixels read from it, and both numbers fit in 32
    bits: the checks accept nothing else. *)
Theorem accepted_blob_is_data_packet blob width height pixels :
  parseChunkData blob = inr (width, height, pixels) →
  blob = data_packet width height pixels
  ∧ (0 ≤ width < 2 ^ 32)%Z ∧ (0 ≤ height < 2 ^ 32)%Z.
Proof.
  intros Hok.
  apply parseChunkData_ok in Hok as (Hlen & Hw & Hh & -> & _).
  split; [|split; by eapply getUint32_range].
  destruct blob as [|b0 [|b1 [|b2 [|b3 [|b4 [|b5 [|b6 [|b7 rest]]]]]]]];
    simpl in Hlen; try lia.
  rewrite getUint32_skip4 in Hh.
  apply to_be_bytes_getUint32 in Hw, Hh.
  unfold data_packet. by rewrite Hw, Hh.
Qed.

Lemma accepted_blob_is_data_packet_witness :
  [x00; x00; x00; x01; x00; x00; x00; x01; xff; x00; x00; xff]
  = data_packet 1 1 [xff; x00; x00; xff]
  ∧ (0 ≤ 1 < 2 ^ 32)%Z ∧ (0 ≤ 1 < 2 ^ 32)%Z.
Proof.
  apply (accepted_blob_is_data_packet
           [x00; x00; x00; x01; x00; x00; x00; x01; xff; x00; x00; xff]).
  reflexivity.
Defined.

(** * Slots, the queue and a batch of requests *)

Section Slots.

Lemma installMetadata_fields md w :
  let w' := installMetadata md w in
  requestQueue w' = requestQueue w ∧ activeRequests w' = activeRequests w
  ∧ tasks w' = tasks w ∧ glctx w' = glctx w ∧ clock w' = clock w.
Proof.
  unfold installMetadata.
  set (w0 := with_metadata _ _).
  change (requestQueue w) with (requestQueue w0).
  change (activeRequests w) with (activeRequests w0).
  change (tasks w) with (tasks w0). change (glctx w) with (glctx w0).
  change (clock w) with (clock w0).
  generalize w0. induction (md_chunks md) as [|ci cis IH]; intros w1; simpl; [done|].
  by destruct (IH (addChunk ci w1)) as (-> & -> & -> & -> & ->).
Qed.

Lemma Inv_released_slot w :
  Inv w → Inv (with_activeRequests (activeRequests w - 1) w).
Proof. intros [Hcap Hmap Hq Ht Hh]. constructor; simpl; try done. lia. Qed.

(** [processQueue] either does nothing, because every slot is taken or
    nothing is queued, or starts the head of the queue. *)
Lemma processQueue_cases w :
  Inv w →
  (processQueue w = w
   ∧ ((maxConcurrentRequests ≤ activeRequests w)%Z ∨ requestQueue w = []))
  ∨ ∃ chunkId rest a,
      (activeRequests w < maxConcurrentRequests)%Z
      ∧ requestQueue w = chunkId :: rest ∧ chunks w !! chunkId = Some a
      ∧ processQueue w
        = with_tasks (tasks w ++ [newTask chunkId a])
            (log (LogStartRequest chunkId)
               (modify_chunk a (ImageChunk.updateStatus REQUESTING (clock w))
                  (with_activeRequests (activeRequests w + 1)
                     (with_requestQueue rest w)))).
Proof.
  intros HI.
  destruct (decide (maxConcurrentRequests ≤ activeRequests w)%Z) as [Hfull|Hfree].
  { left. split; [by apply processQueue_capped | by left]. }
  destruct (requestQueue w) as [|chunkId rest] eqn:Hq.
  { left. split; [by apply processQueue_empty | by right]. }
  right. destruct (queued_id_known w chunkId HI) as (Hne & a & c & Ha & Hc).
  { rewrite Hq. by left. }
  exists chunkId, rest, a. split_and!; [lia | done | done |].
  apply processQueue_start; [lia | done..].
Qed.

Lemma queueWaitsWhenFull_processQueue w :
  Inv w → (length (requestQueue w) ≤ 1 ∨ (2 ≤ activeRequests w)%Z) →
  queueWaitsWhenFull (processQueue w).
Proof.
  intros HI Hpre. pose proof (inv_cap w HI) as Hcap.
  unfold queueWaitsWhenFull, maxConcurrentRequests in *.
  destruct (processQueue_cases w HI)
    as [[-> [Hfull|Hq]]|(chunkId & rest & a & Hfree & Hq & Ha & ->)].
  - unfold maxConcurrentRequests in *. lia.
  - done.
  - simpl. intros Hrest. rewrite Hq in Hpre. simpl in Hpre.
    unfold maxConcurrentRequests in *.
    destruct rest; [done|]. simpl in Hpre. lia.
Qed.

Lemma notOver_processQueue w :
  (activeRequests w ≤ Z.of_nat (length (tasks w)))%Z →
  (activeRequests (processQueue w) ≤ Z.of_nat (length (tasks (processQueue w))))%Z.
Proof.
  unfold processQueue. intros H.
  repeat (case_match; simpl; try done); rewrite ?length_app; simpl; lia.
Qed.

Lemma queueWaitsWhenFull_finallyBlock w :
  Inv w → queueWaitsWhenFull w → queueWaitsWhenFull (finallyBlock w).
Proof.
  intros HI Hwait. apply queueWaitsWhenFull_processQueue.
  - by apply Inv_released_slot.
  - simpl. unfold queueWaitsWhenFull, maxConcurrentRequests in Hwait.
    destruct (requestQueue w); [left; simpl; lia|]. right.
    rewrite Hwait by done. lia.
Qed.

Lemma queueWaitsWhenFull_requestChunk chunkId w :
  Inv w → queueWaitsWhenFull w → queueWaitsWhenFull (requestChunk chunkId w).
Proof.
  intros HI Hwait. unfold requestChunk.
  destruct (chunks w !! chunkId) as [a|] eqn:Ha; [|done].
  destruct (heap w !! a) as [chunk|]; [|done].
  destruct (skipsRequest _); [done|].
  apply queueWaitsWhenFull_processQueue.
  - destruct HI as [Hcap Hmap Hq Ht Hh]. constructor; simpl; try done.
    intros q Hin. apply elem_of_app in Hin as [Hin|Hin]; [by apply Hq|].
    apply list_elem_of_singleton in Hin as ->. by eexists.
  - simpl. unfold queueWaitsWhenFull, maxConcurrentRequests in Hwait.
    destruct (requestQueue w); [left; simpl; lia|]. right.
    rewrite Hwait by done. lia.
Qed.

(** Both facts about the slots survive every event. *)
Lemma slots_run_event w e :
  Inv w →
  queueWaitsWhenFull w ∧ (activeRequests w ≤ Z.of_nat (length (tasks w)))%Z →
  queueWaitsWhenFull (run_event w e)
  ∧ (activeRequests (run_event w e) ≤ Z.of_nat (length (tasks (run_event w e))))%Z.
Proof.
  intros HI [Hwait Hover].
  destruct e as [| |filePath md|filePath|md|chunkId|n r g|n| |now]; simpl; try done.
  - destruct (installMetadata_fields md (with_currentFilePath (Some filePath) w))
      as (Hq & Ha & Ht & _).
    unfold initializeChunksFromMetadata, queueWaitsWhenFull in *. simpl in *.
    by rewrite Hq, Ha, Ht.
  - destruct (installMetadata_fields md w) as (Hq & Ha & Ht & _).
    unfold initializeChunks_resume, queueWaitsWhenFull in *. simpl in *.
    by rewrite Hq, Ha, Ht.
  - split; [by apply queueWaitsWhenFull_requestChunk|].
    unfold requestChunk. repeat (case_match; try done).
    by apply notOver_processQueue.
  - destruct (tasks w !! n) as [tk|] eqn:Hn; [|done].
    destruct (t_phase tk); [|done].
    pose proof (Inv_resumeFetched tk r g w HI) as HI'.
    destruct (inv_tasks w HI tk) as (c & Hc & _); [by eapply list_elem_of_lookup_2|].
    destruct (resumeFetched_effect tk r g w c Hc) as ((_&Hq&Ha&Ht&_) & _).
    destruct (resumeFetched tk r g w) as [w' suspended]; simpl in *.
    destruct suspended.
    + unfold queueWaitsWhenFull in *. simpl. rewrite length_insert, Hq, Ha, Ht. done.
    + split.
      * apply queueWaitsWhenFull_finallyBlock; [by apply Inv_delete_task|].
        unfold queueWaitsWhenFull in *. simpl. by rewrite Hq, Ha.
      * apply notOver_processQueue. simpl.
        rewrite length_delete by (rewrite Ht; by eexists).
        rewrite Ha, Ht. apply lookup_lt_Some in Hn. lia.
  - destruct (tasks w !! n) as [tk|] eqn:Hn; [|done].
    destruct (t_phase tk); [done|]. split.
    + apply queueWaitsWhenFull_finallyBlock; [by apply Inv_delete_task | done].
    + apply notOver_processQueue. simpl.
      rewrite length_delete by by eexists. apply lookup_lt_Some in Hn. lia.
  - split; [by unfold queueWaitsWhenFull, cleanup|]. unfold cleanup. simpl. lia.
Qed.

Lemma slots_reachable w :
  reachable w →
  queueWaitsWhenFull w ∧ (activeRequests w ≤ Z.of_nat (length (tasks w)))%Z.
Proof.
  intros [evs ->].
  assert (∀ w0, Inv w0 →
            queueWaitsWhenFull w0
            ∧ (activeRequests w0 ≤ Z.of_nat (length (tasks w0)))%Z →
            queueWaitsWhenFull (run w0 evs)
            ∧ (activeRequests (run w0 evs) ≤ Z.of_nat (length (tasks (run w0 evs))))%Z)
    as Hrun.
  { induction evs as [|e evs IH]; intros w0 HI H0; simpl; [done|].
    apply IH; [by apply Inv_run_event | by apply slots_run_event]. }
  apply Hrun; [apply Inv_newWorld|]. split; [by unfold queueWaitsWhenFull | simpl; lia].
Qed.

End Slots.

(** X6: a request waits in the queue only while all three slots are taken
    and at least three requests are suspended on the backend or on their
    upload; so whenever something is queued, a request is in flight whose
    end will start the head of the queue. *)
Theorem queued_only_when_full w :
  reachable w → requestQueue w ≠ [] →
  activeRequests w = 3%Z ∧ 3 ≤ length (tasks w).
Proof.
  intros Hw Hq. destruct (slots_reachable w Hw) as [Hwait Hover].
  specialize (Hwait Hq). unfold maxConcurrentRequests in Hwait. lia.
Qed.

(** X7: the counter never exceeds the number of suspended requests, with
    [cleanup()] or without it: a slot that is counted as taken is taken. *)
Theorem activeRequests_not_over evs :
  (activeRequests (run newWorld evs)
   ≤ Z.of_nat (length (tasks (run newWorld evs))))%Z.
Proof. apply slots_reachable. by exists evs. Qed.

Lemma queued_only_when_full_witness :
  let info cx cy := {| ci_x := Z.of_nat cx; ci_y := Z.of_nat cy; ci_width := 1;
                       ci_height := 1; ci_chunk_x := cx; ci_chunk_y := cy |} in
  let md := {| total_width := 2; total_height := 2; chunk_size := 1;
               chunks_x := 2; chunks_y := 2;
               md_chunks := [info 0 0; info 1 0; info 0 1; info 1 1] |} in
  let w := run newWorld
             [EvInitialize "a.png" md; EvRequestChunk "1_1"; EvRequestChunk "0_0";
              EvRequestChunk "1_0"; EvRequestChunk "0_1"] in
  activeRequests w = 3%Z ∧ 3 ≤ length (tasks w).
Proof.
  intros info md w. apply (queued_only_when_full w).
  - by eexists.
  - vm_compute. discriminate.
Defined.

Section Batches.

(** Different ids of the map are different objects. *)
Lemma chunks_inj w id1 id2 a :
  Inv w → chunks w !! id1 = Some a → chunks w !! id2 = Some a → id1 = id2.
Proof.
  intros HI H1 H2.
  destruct (inv_map w HI _ _ H1) as (c1 & Hc1 & <-).
  destruct (inv_map w HI _ _ H2) as (c2 & Hc2 & <-). congruence.
Qed.

Lemma chunkOf_alter_other w w' f a id id' :
  Inv w → chunks w !! id = Some a → id' ≠ id →
  chunks w' = chunks w → heap w' = alter f a (heap w) →
  chunkOf w' id' = chunkOf w id'.
Proof.
  intros HI Ha Hne Hc Hh. unfold chunkOf. rewrite Hc, Hh.
  destruct (chunks w !! id') as [a'|] eqn:Ha'; [|done]. simpl.
  rewrite list_lookup_alter_ne; [done|].
  intros ->. apply Hne. by eapply chunks_inj.
Qed.

(** One accepted request: with a free slot it is started at once, else it
    joins the queue. *)
Lemma requestChunk_accepted w id :
  Inv w → queueWaitsWhenFull w → accepts w id = true →
  let w' := requestChunk id w in
  if decide (activeRequests w < maxConcurrentRequests)%Z
  then requestQueue w = [] ∧ requestQueue w' = []
       ∧ t_chunkId <$> tasks w' = (t_chunkId <$> tasks w) ++ [id]
       ∧ activeRequests w' = (activeRequests w + 1)%Z
       ∧ ImageChunk.status <$> chunkOf w' id = Some REQUESTING
       ∧ ∀ id', id' ≠ id → chunkOf w' id' = chunkOf w id'
  else requestQueue w' = requestQueue w ++ [id]
       ∧ tasks w' = tasks w ∧ activeRequests w' = activeRequests w
       ∧ ∀ id', chunkOf w' id' = chunkOf w id'.
Proof.
  intros HI Hwait Hacc. unfold accepts, chunkOf in Hacc.
  destruct (chunks w !! id) as [a|] eqn:Ha; [|done]. simpl in Hacc.
  destruct (heap w !! a) as [c|] eqn:Hc; [|done].
  apply negb_true_iff in Hacc.
  unfold requestChunk. rewrite Ha, Hc, Hacc. cbv zeta.
  set (w0 := with_requestQueue (requestQueue w ++ [id]) w).
  case_decide as Hfree.
  - assert (requestQueue w = []) as Hq.
    { destruct (requestQueue w) eqn:Hq; [done|]. unfold queueWaitsWhenFull in Hwait.
      rewrite Hq in Hwait. specialize (Hwait ltac:(done)). lia. }
    rewrite (processQueue_start w0 id [] a); [|done|by subst w0; simpl; rewrite Hq|..].
    + set (w2 := with_tasks _ _).
      assert (chunks w2 = chunks w) as Hc2 by done.
      assert (heap w2 = alter (ImageChunk.updateStatus REQUESTING (clock w)) a (heap w))
        as Hh2 by done.
      assert (tasks w2 = tasks w ++ [newTask id a]) as -> by done.
      rewrite fmap_app. split_and!; try done.
      * unfold chunkOf. rewrite Hc2, Ha.
        change (Some a ≫= _) with (heap w2 !! a).
        by rewrite Hh2, list_lookup_alter_eq, Hc.
      * intros id' Hne. by eapply chunkOf_alter_other.
    + pose proof (inv_heap w HI) as Hgood. rewrite Forall_lookup in Hgood.
      destruct (Hgood _ _ Hc) as (Hne & _).
      destruct (inv_map w HI _ _ Ha) as (c' & Hc' & Hid). congruence.
    + done.
  - rewrite processQueue_capped; [done|]. simpl. lia.
Qed.

Lemma requestBatch_spec ids : ∀ w,
  Inv w → queueWaitsWhenFull w → NoDup ids →
  Forall (λ id, accepts w id = true) ids →
  let free := Z.to_nat (maxConcurrentRequests - activeRequests w) in
  let w' := requestBatch ids w in
  requestQueue w' = requestQueue w ++ drop free ids
  ∧ t_chunkId <$> tasks w' = (t_chunkId <$> tasks w) ++ take free ids
  ∧ activeRequests w' = (activeRequests w + Z.of_nat (length (take free ids)))%Z
  ∧ (∀ id, id ∈ take free ids →
       ImageChunk.status <$> chunkOf w' id = Some REQUESTING)
  ∧ (∀ id, id ∉ take free ids → chunkOf w' id = chunkOf w id).
Proof.
  induction ids as [|id ids IH]; intros w HI Hwait Hnd Hacc; cbv zeta.
  { rewrite drop_nil, take_nil, !app_nil_r. simpl.
    split_and!; [done | done | lia | | done].
    intros id Hin. by apply elem_of_nil in Hin. }
  apply NoDup_cons in Hnd as [Hid Hnd]. apply Forall_cons in Hacc as [Hacc1 Hacc].
  pose proof (requestChunk_accepted w id HI Hwait Hacc1) as Hstep. cbv zeta in Hstep.
  pose proof (Inv_requestChunk id w HI) as HI1.
  pose proof (queueWaitsWhenFull_requestChunk id w HI Hwait) as Hwait1.
  change (requestBatch (id :: ids) w) with (requestBatch ids (requestChunk id w)).
  set (w1 := requestChunk id w) in *.
  case_decide as Hfree.
  - destruct Hstep as (Hq & Hq1 & Ht1 & Ha1 & Hst & Hother).
    assert (Forall (λ id, accepts w1 id = true) ids) as Hacc'.
    { rewrite Forall_forall in Hacc. apply Forall_forall. intros id' Hin.
      unfold accepts. rewrite Hother; [by apply Hacc|]. by intros ->. }
    destruct (IH w1 HI1 Hwait1 Hnd Hacc') as (IHq & IHt & IHa & IHs & IHo).
    replace (Z.to_nat (maxConcurrentRequests - activeRequests w))
      with (S (Z.to_nat (maxConcurrentRequests - activeRequests w1))) by lia.
    set (k := Z.to_nat (maxConcurrentRequests - activeRequests w1)) in *.
    rewrite IHq, IHt, IHa, Hq, Hq1, Ht1, Ha1. simpl. rewrite <- app_assoc. simpl.
    split_and!; [done | done | lia | |].
    + intros id' Hin. apply elem_of_cons in Hin as [->|Hin]; [|by apply IHs].
      rewrite IHo; [done|]. intros Hin. apply Hid. by eapply subseteq_take.
    + intros id' Hnot. rewrite not_elem_of_cons in Hnot. destruct Hnot as [Hne Hnot].
      rewrite IHo by done. by apply Hother.
  - destruct Hstep as (Hq1 & Ht1 & Ha1 & Hother).
    assert (Forall (λ id, accepts w1 id = true) ids) as Hacc'.
    { rewrite Forall_forall in Hacc. apply Forall_forall. intros id' Hin.
      unfold accepts. rewrite Hother. by apply Hacc. }
    destruct (IH w1 HI1 Hwait1 Hnd Hacc') as (IHq & IHt & IHa & IHs & IHo).
    rewrite Ha1 in *.
    replace (Z.to_nat (maxConcurrentRequests - activeRequests w)) with 0 in * by lia.
    rewrite drop_0 in *. rewrite take_0 in *.
    rewrite IHq, IHt, IHa, Hq1, Ht1. rewrite <- app_assoc. simpl.
    split_and!; [done | done | done | |].
    + intros id' Hin. by apply elem_of_nil in Hin.
    + intros id' _. rewrite IHo; [apply Hother|]. apply not_elem_of_nil.
Qed.

End Batches.

(** X8: a batch of distinct ids that [requestChunk] accepts, requested as
    [loadAllChunks] does with [batch.map]: the first ids, as many as there
    are free slots, are started in order and marked REQUESTING; the others
    are appended to the queue in order; no other chunk changes.  So the
    calls return with nothing loaded yet. *)
Theorem requestBatch_effect w ids :
  reachable w → NoDup ids → Forall (λ id, accepts w id = true) ids →
  let free := Z.to_nat (3 - activeRequests w) in
  let w' := requestBatch ids w in
  requestQueue w' = requestQueue w ++ drop free ids
  ∧ t_chunkId <$> tasks w' = (t_chunkId <$> tasks w) ++ take free ids
  ∧ activeRequests w' = (activeRequests w + Z.of_nat (length (take free ids)))%Z
  ∧ (∀ id, id ∈ take free ids →
       ImageChunk.status <$> chunkOf w' id = Some REQUESTING)
  ∧ (∀ id, id ∉ take free ids → chunkOf w' id = chunkOf w id).
Proof.
  intros Hw Hnd Hacc.
  apply (requestBatch_spec ids w); [by apply Inv_reachable | | done | done].
  by apply slots_reachable.
Qed.

Lemma requestBatch_effect_witness :
  let info cx cy := {| ci_x := Z.of_nat cx; ci_y := Z.of_nat cy; ci_width := 1;
                       ci_height := 1; ci_chunk_x := cx; ci_chunk_y := cy |} in
  let md := {| total_width := 2; total_height := 2; chunk_size := 1;
               chunks_x := 2; chunks_y := 2;
               md_chunks := [info 0 0; info 1 0; info 0 1; info 1 1] |} in
  let w := run newWorld [EvInitialize "a.png" md; EvRequestChunk "1_1"] in
  let ids := ["0_0"; "1_0"; "0_1"] in
  let w' := requestBatch ids w in
  requestQueue w' = requestQueue w ++ drop (Z.to_nat (3 - activeRequests w)) ids
  ∧ t_chunkId <$> tasks w'
    = (t_chunkId <$> tasks w) ++ take (Z.to_nat (3 - activeRequests w)) ids
  ∧ activeRequests w'
    = (activeRequests w
       + Z.of_nat (length (take (Z.to_nat (3 - activeRequests w)) ids)))%Z
  ∧ (∀ id, id ∈ take (Z.to_nat (3 - activeRequests w)) ids →
       ImageChunk.status <$> chunkOf w' id = Some REQUESTING)
  ∧ (∀ id, id ∉ take (Z.to_nat (3 - activeRequests w)) ids →
       chunkOf w' id = chunkOf w id).
Proof.
  intros info md w ids. apply (requestBatch_effect w ids).
  - by eexists.
  - apply (bool_decide_unpack _). vm_compute. exact I.
  - repeat constructor.
Defined.

(** * Invariants of the objects and of the WebGL calls *)

(** A property of the map, the objects and the WebGL context that the four
    basic moves keep is kept by every event. *)
Section Preservation.

Variable J : World → Prop.

Hypothesis J_same : ∀ w w',
  chunks w' = chunks w → heap w' = heap w → glctx w' = glctx w → J w → J w'.
Hypothesis J_addChunk : ∀ chunkInfo w, Inv w → J w → J (addChunk chunkInfo w).
Hypothesis J_requesting : ∀ a now w,
  Inv w → J w → J (modify_chunk a (ImageChunk.updateStatus REQUESTING now) w).
Hypothesis J_fetched : ∀ tk r g w,
  Inv w → tk ∈ tasks w → J w → J (resumeFetched tk r g w).1.
Hypothesis J_cleanupChunkAt : ∀ chunkId a w,
  Inv w → chunks w !! chunkId = Some a → J w → J (cleanupChunkAt a w).
Hypothesis J_clear : ∀ w, J w → J (with_chunks ∅ w).

Lemma J_processQueue w : Inv w → J w → J (processQueue w).
Proof.
  intros HI HJ.
  destruct (processQueue_cases w HI)
    as [[-> _]|(chunkId & rest & a & _ & _ & _ & ->)]; [done|].
  eapply (J_same (modify_chunk a (ImageChunk.updateStatus REQUESTING (clock w)) w));
    [done..|]. by apply J_requesting.
Qed.

Lemma J_finallyBlock w : Inv w → J w → J (finallyBlock w).
Proof.
  intros HI HJ. apply J_processQueue; [by apply Inv_released_slot|].
  by apply (J_same w).
Qed.

Lemma J_requestChunk chunkId w : Inv w → J w → J (requestChunk chunkId w).
Proof.
  intros HI HJ. pose proof (Inv_requestChunk chunkId w HI) as HI'.
  unfold requestChunk in *.
  destruct (chunks w !! chunkId) as [a|] eqn:Ha; [|by apply (J_same w)].
  destruct (heap w !! a) as [chunk|]; [|done].
  destruct (skipsRequest _); [by apply (J_same w)|].
  apply J_processQueue; [|by apply (J_same w)].
  destruct HI as [Hcap Hmap Hq Ht Hh]. constructor; simpl; try done.
  intros q Hin. apply elem_of_app in Hin as [Hin|Hin]; [by apply Hq|].
  apply list_elem_of_singleton in Hin as ->. by eexists.
Qed.

Lemma J_installMetadata md w : Inv w → J w → J (installMetadata md w).
Proof.
  intros HI HJ. unfold installMetadata.
  assert (Inv (with_metadata (Some md) w)) as HI' by by eapply Inv_same.
  assert (J (with_metadata (Some md) w)) as HJ' by by apply (J_same w).
  revert HI' HJ'. generalize (with_metadata (Some md) w).
  induction (md_chunks md) as [|ci cis IH]; intros w0 HI0 HJ0; simpl; [done|].
  apply IH; [by apply Inv_addChunk | by apply J_addChunk].
Qed.

Lemma J_cleanup w : Inv w → J w → J (cleanup w).
Proof.
  intros HI HJ. unfold cleanup.
  set (w1 := if gl w then _ else w).
  assert (J w1) as HJ1.
  { subst w1. destruct (gl w); [|done].
    assert (∀ l w0, Inv w0 → J w0 →
              (∀ a, a ∈ l → ∃ chunkId, chunks w0 !! chunkId = Some a) →
              J (foldl (λ w a, cleanupChunkAt a w) w0 l)) as Hfold.
    { induction l as [|a l IH]; intros w0 HI0 HJ0 Hl; simpl; [done|].
      destruct (Hl a) as [chunkId Ha]; [by left|].
      apply IH; [by apply Inv_cleanupChunkAt | by eapply J_cleanupChunkAt |].
      intros b Hb. destruct (Hl b) as [id Hid]; [by right|]. exists id.
      unfold cleanupChunkAt. by destruct (heap w0 !! a). }
    apply Hfold; [done..|].
    intros a Ha. apply list_elem_of_fmap in Ha as ([chunkId a'] & -> & Ha).
    exists chunkId. by apply elem_of_map_to_list in Ha. }
  apply (J_same (with_chunks ∅ w1)); [done..|]. by apply J_clear.
Qed.

Lemma J_run_event w e : Inv w → J w → J (run_event w e).
Proof.
  intros HI HJ.
  destruct e as [| |filePath md|filePath|md|chunkId|n r g|n| |now]; simpl.
  - by apply (J_same w).
  - by apply (J_same w).
  - apply J_installMetadata; [by eapply Inv_same | by apply (J_same w)].
  - by apply (J_same w).
  - by apply J_installMetadata.
  - by apply J_requestChunk.
  - destruct (tasks w !! n) as [tk|] eqn:Hn; [|done].
    destruct (t_phase tk); [|done].
    pose proof (Inv_resumeFetched tk r g w HI) as HI'.
    pose proof (J_fetched tk r g w HI (list_elem_of_lookup_2 _ _ _ Hn) HJ) as HJ'.
    destruct (resumeFetched tk r g w) as [w' suspended]; simpl in *.
    destruct suspended; [by apply (J_same w')|].
    apply J_finallyBlock; [by apply Inv_delete_task | by apply (J_same w')].
  - destruct (tasks w !! n) as [tk|] eqn:Hn; [|done].
    destruct (t_phase tk); [done|].
    apply J_finallyBlock; [by apply Inv_delete_task | by apply (J_same w)].
  - by apply J_cleanup.
  - by apply (J_same w).
Qed.

Lemma J_run evs : ∀ w, Inv w → J w → J (run w evs).
Proof.
  induction evs as [|e evs IH]; intros w HI HJ; simpl; [done|].
  apply IH; [by apply Inv_run_event | by apply J_run_event].
Qed.

End Preservation.

Section GlEffects.

Lemma gl_prepareTexture_spec glc :
  (gl_prepareTexture glc).1 = next_texture glc
  ∧ next_texture (gl_prepareTexture glc).2 = S (next_texture glc)
  ∧ deletedTextures (gl_prepareTexture glc).2 = deletedTextures glc
  ∧ (Forall sizedCall (gl_calls glc) →
     Forall sizedCall (gl_calls (gl_prepareTexture glc).2)).
Proof.
  split_and!; [done | done | |].
  - unfold gl_prepareTexture, deletedTextures. simpl.
    rewrite !omap_app. simpl. by rewrite !app_nil_r.
  - intros H. unfold gl_prepareTexture. simpl.
    repeat (apply Forall_app; split; [|by apply Forall_singleton]). done.
Qed.

Lemma gl_call_spec call glc :
  next_texture (gl_call call glc) = next_texture glc
  ∧ deletedTextures (gl_call call glc)
    = deletedTextures glc
      ++ match call with GlDeleteTexture tex => [tex] | _ => [] end
  ∧ (sizedCall call → Forall sizedCall (gl_calls glc) →
     Forall sizedCall (gl_calls (gl_call call glc))).
Proof.
  split_and!; [done | |].
  - unfold deletedTextures, gl_call. cbn [gl_calls]. rewrite omap_app.
    by destruct call.
  - intros Hc H. unfold gl_call. cbn [gl_calls].
    apply Forall_app. split; [done | by apply Forall_singleton].
Qed.

Lemma uploadGl_spec width height pixels g glc :
  deletedTextures (uploadGl width height pixels g glc) = deletedTextures glc
  ∧ next_texture glc ≤ next_texture (uploadGl width height pixels g glc)
  ∧ (g ≠ CreateTextureNull →
     next_texture (uploadGl width height pixels g glc) = S (next_texture glc))
  ∧ (Z.of_nat (length pixels) = (width * height * 4)%Z →
     Forall sizedCall (gl_calls glc) →
     Forall sizedCall (gl_calls (uploadGl width height pixels g glc))).
Proof.
  destruct (gl_prepareTexture_spec glc) as (_ & Hn & Hd & Hs).
  set (call := GlTexImage2D (next_texture glc) width height pixels).
  destruct (gl_call_spec call (gl_prepareTexture glc).2) as (Hn' & Hd' & Hs').
  rewrite app_nil_r in Hd'.
  unfold uploadGl. destruct g; fold call.
  - split_and!; [done | lia | done | auto].
  - split_and!; [done | lia | done | auto].
  - rewrite Hn', Hd', Hn, Hd. split_and!; [done | lia | done | auto].
  - rewrite Hn', Hd', Hn, Hd. split_and!; [done | lia | done | auto].
Qed.

Lemma received_sized r width height pixels :
  received r = inr (width, height, pixels) →
  Z.of_nat (length pixels) = (width * height * 4)%Z.
Proof.
  destruct r as [| |blob]; simpl; [done..|].
  intros H. by apply parseChunkData_ok in H as (_ & _ & _ & _ & ?).
Qed.

Lemma fetchGl_spec w r g :
  deletedTextures (fetchGl w r g) = deletedTextures (glctx w)
  ∧ next_texture (glctx w) ≤ next_texture (fetchGl w r g)
  ∧ (Forall sizedCall (gl_calls (glctx w)) →
     Forall sizedCall (gl_calls (fetchGl w r g))).
Proof.
  unfold fetchGl. destruct (received r) as [e|[[width height] pixels]] eqn:Hr; [done|].
  destruct (gl w); [|done].
  destruct (uploadGl_spec width height pixels g (glctx w)) as (Hd & Hn & _ & Hs).
  split_and!; [done..|]. apply Hs. by eapply received_sized.
Qed.

Lemma tryUpload_glctx a chunk pixels g w :
  glctx (tryUpload a chunk pixels g w)
  = uploadGl (ImageChunk.width chunk) (ImageChunk.height chunk) pixels g (glctx w).
Proof.
  unfold tryUpload, uploadGl.
  assert ((gl_prepareTexture (glctx w)).1 = next_texture (glctx w)) as Htex by done.
  destruct (gl_prepareTexture (glctx w)) as [tex glc]. simpl in Htex. subst tex.
  destruct g; try done;
    replace (onChunkReady (storeTexture a chunk pixels (next_texture (glctx w))
                             (with_glctx glc w)))
      with (onChunkReady w) by done;
    destruct (onChunkReady w); done.
Qed.

Lemma resumeFetched_glctx tk r g w c :
  heap w !! t_chunk tk = Some c →
  glctx (resumeFetched tk r g w).1 = fetchGl w r g.
Proof.
  intros Hc. unfold resumeFetched, fetchGl.
  destruct (received r) as [e|[[width height] pixels]]; simpl; [done|].
  set (w1 := log _ _).
  assert (heap w1 !! t_chunk tk = Some (ImageChunk.setData pixels (clock w)
            (ImageChunk.setSize width height c))) as Hc1.
  { subst w1. simpl. rewrite !list_lookup_alter_eq, Hc. done. }
  unfold uploadChunkToGPU. rewrite Hc1.
  change (gl w1) with (gl w). destruct (gl w); [|done].
  change (ImageChunk.data _) with (Some pixels). cbv iota.
  by rewrite tryUpload_glctx.
Qed.

(** Handling a reply keeps the texture of the object or gives it a fresh
    one. *)
Lemma fetchEffect_texture w r g c :
  ImageChunk.texture (fetchEffect w r g c) = ImageChunk.texture c
  ∨ (ImageChunk.texture (fetchEffect w r g c) = Some (next_texture (glctx w))
     ∧ next_texture (fetchGl w r g) = S (next_texture (glctx w))).
Proof.
  unfold fetchEffect, fetchGl.
  destruct (received r) as [e|[[width height] pixels]]; [by left|].
  destruct (gl w); [|by left].
  destruct g; simpl; try destruct (onChunkReady w); simpl; auto.
Qed.

Lemma fetchEffect_sized w r g c : sizedData c → sizedData (fetchEffect w r g c).
Proof.
  intros Hc. unfold fetchEffect.
  destruct (received r) as [e|[[width height] pixels]] eqn:Hr; [done|].
  apply received_sized in Hr.
  assert (sizedData (ImageChunk.setData pixels (clock w)
                       (ImageChunk.setSize width height c))) as Hs.
  { intros px [= <-]. done. }
  destruct (gl w); [|done].
  destruct g; simpl; try destruct (onChunkReady w); done.
Qed.

Lemma cleanupChunkAt_spec a w c :
  heap w !! a = Some c →
  chunks (cleanupChunkAt a w) = chunks w
  ∧ heap (cleanupChunkAt a w) = <[a := (ImageChunk.cleanup (glctx w) c).1]> (heap w)
  ∧ next_texture (glctx (cleanupChunkAt a w)) = next_texture (glctx w)
  ∧ deletedTextures (glctx (cleanupChunkAt a w))
    = deletedTextures (glctx w)
      ++ match ImageChunk.texture c with Some tex => [tex] | None => [] end
  ∧ (Forall sizedCall (gl_calls (glctx w)) →
     Forall sizedCall (gl_calls (glctx (cleanupChunkAt a w)))).
Proof.
  intros Hc. unfold cleanupChunkAt. rewrite Hc. simpl.
  split_and!; [done | done | | |].
  - by destruct (ImageChunk.texture c).
  - destruct (ImageChunk.texture c); [|by rewrite app_nil_r].
    unfold deletedTextures. simpl. by rewrite omap_app.
  - intros H. destruct (ImageChunk.texture c); [|done]. simpl.
    apply Forall_app. split; [done | by apply Forall_singleton].
Qed.

Lemma cleanupChunkAt_none a w : heap w !! a = None → cleanupChunkAt a w = w.
Proof. intros H. unfold cleanupChunkAt. by rewrite H. Qed.

End GlEffects.

Section Sizes.

Lemma sized_run evs w :
  Inv w →
  Forall sizedData (heap w) ∧ Forall sizedCall (gl_calls (glctx w)) →
  Forall sizedData (heap (run w evs))
  ∧ Forall sizedCall (gl_calls (glctx (run w evs))).
Proof.
  apply (J_run (λ w, Forall sizedData (heap w)
                     ∧ Forall sizedCall (gl_calls (glctx w)))); clear w.
  - intros w w' _ Hh Hg. by rewrite Hh, Hg.
  - intros ci w _ [Hh Hg]. split; [|done]. simpl.
    apply Forall_app. split; [done|]. by apply Forall_singleton.
  - intros a now w _ [Hh Hg]. split; [|done]. simpl.
    apply Forall_alter; [done|]. by intros c _ Hc.
  - intros tk r g w HI Htk [Hh Hg].
    destruct (inv_tasks w HI tk Htk) as (c & Hc & _).
    destruct (resumeFetched_effect tk r g w c Hc) as (_ & -> & _).
    rewrite (resumeFetched_glctx tk r g w c Hc). split.
    + apply Forall_alter; [done|]. intros c' _. apply fetchEffect_sized.
    + by apply fetchGl_spec.
  - intros chunkId a w _ _ [Hh Hg].
    destruct (heap w !! a) as [c|] eqn:Hc; [|by rewrite cleanupChunkAt_none].
    destruct (cleanupChunkAt_spec a w c Hc) as (_ & -> & _ & _ & Hs).
    split; [|by apply Hs]. by apply Forall_insert.
  - done.
Qed.

End Sizes.

(** X9: the pixels a chunk object holds always fill it: they are
    [width * height * 4] bytes for the width and height of the object,
    for every object, whether the map or only a suspended request refers
    to it. *)
Theorem chunk_data_fills_chunk w a c pixels :
  reachable w → heap w !! a = Some c → ImageChunk.data c = Some pixels →
  Z.of_nat (length pixels) = (ImageChunk.width c * ImageChunk.height c * 4)%Z.
Proof.
  intros [evs ->] Hc Hpx.
  destruct (sized_run evs newWorld Inv_newWorld) as [Hh _]; [by split|].
  rewrite Forall_lookup in Hh. by apply (Hh a c).
Qed.

Lemma chunk_data_fills_chunk_witness :
  let blob := [x00; x00; x00; x01; x00; x00; x00; x02;
               xff; x00; x00; xff; x00; xff; x00; xff] in
  let info := {| ci_x := 0; ci_y := 0; ci_width := 7; ci_height := 7;
                 ci_chunk_x := 0; ci_chunk_y := 0 |} in
  let md := {| total_width := 7; total_height := 7; chunk_size := 1024;
               chunks_x := 1; chunks_y := 1; md_chunks := [info] |} in
  let w := run newWorld [EvInitialize "a.png" md; EvRequestChunk "0_0";
                         EvFetched 0 (FetchBytes blob) UploadOk] in
  let c := default (ImageChunk.create info 0) (heap w !! 0) in
  Z.of_nat (length (default [] (ImageChunk.data c)))
  = (ImageChunk.width c * ImageChunk.height c * 4)%Z.
Proof.
  intros blob info md w c.
  apply (chunk_data_fills_chunk w 0 c (default [] (ImageChunk.data c))).
  - by eexists.
  - vm_compute. reflexivity.
  - vm_compute. reflexivity.
Defined.

(** X10: every [texImage2D] call the manager makes passes exactly
    [width * height * 4] bytes for the width and height it passes. *)
Theorem texImage2D_sized w tex width height pixels :
  reachable w →
  GlTexImage2D tex width height pixels ∈ gl_calls (glctx w) →
  Z.of_nat (length pixels) = (width * height * 4)%Z.
Proof.
  intros [evs ->] Hin.
  destruct (sized_run evs newWorld Inv_newWorld) as [_ Hg]; [by split|].
  rewrite Forall_forall in Hg. by apply Hg in Hin.
Qed.

Lemma texImage2D_sized_witness :
  let blob := [x00; x00; x00; x01; x00; x00; x00; x02;
               xff; x00; x00; xff; x00; xff; x00; xff] in
  Z.of_nat (length (drop 8 blob)) = (1 * 2 * 4)%Z.
Proof.
  intros blob.
  set (info := {| ci_x := 0; ci_y := 0; ci_width := 7; ci_height := 7;
                  ci_chunk_x := 0; ci_chunk_y := 0 |}).
  set (md := {| total_width := 7; total_height := 7; chunk_size := 1024;
                chunks_x := 1; chunks_y := 1; md_chunks := [info] |}).
  apply (texImage2D_sized
           (run newWorld [EvSetWebGLContext; EvInitialize "a.png" md;
                          EvRequestChunk "0_0";
                          EvFetched 0 (FetchBytes blob) UploadOk]) 0).
  - by eexists.
  - vm_compute. apply list_elem_of_In. simpl. auto 10.
Defined.

Section Textures.

Lemma holdsTexture_alter w w' f a b tex :
  heap w' = alter f a (heap w) → holdsTexture w' b tex →
  (b ≠ a ∧ holdsTexture w b tex)
  ∨ (b = a ∧ ∃ c, heap w !! a = Some c ∧ ImageChunk.texture (f c) = Some tex).
Proof.
  intros Hh (c' & Hc' & Ht). rewrite Hh in Hc'.
  destruct (decide (b = a)) as [->|Hne].
  - right. split; [done|]. rewrite list_lookup_alter_eq in Hc'.
    destruct (heap w !! a) as [c|]; simplify_eq/=. eauto.
  - left. rewrite list_lookup_alter_ne in Hc' by done. split; [done|]. by exists c'.
Qed.

Lemma holdsTexture_insert w w' a c0 b tex :
  heap w' = <[a := c0]> (heap w) → ImageChunk.texture c0 = None →
  holdsTexture w' b tex → b ≠ a ∧ holdsTexture w b tex.
Proof.
  intros Hh H0 (c' & Hc' & Ht). rewrite Hh in Hc'.
  apply list_lookup_insert_Some in Hc' as [(-> & <- & _)|[Hne Hc']]; [congruence|].
  split; [done|]. by exists c'.
Qed.

Lemma holdsTexture_app w w' c0 b tex :
  heap w' = heap w ++ [c0] → ImageChunk.texture c0 = None →
  holdsTexture w' b tex → holdsTexture w b tex.
Proof.
  intros Hh H0 (c' & Hc' & Ht). rewrite Hh in Hc'.
  apply lookup_app_Some in Hc' as [Hc'|[_ Hc']]; [by exists c'|].
  apply list_lookup_singleton_Some in Hc' as [_ <-]. congruence.
Qed.

Lemma holdsTexture_same w w' b tex :
  heap w' = heap w → holdsTexture w' b tex → holdsTexture w b tex.
Proof. intros Hh (c & Hc & Ht). rewrite Hh in Hc. by exists c. Qed.

Lemma TexInv_run evs w : Inv w → TexInv w → TexInv (run w evs).
Proof.
  apply (J_run TexInv); clear w.
  - intros w w' _ Hh Hg [Hlive Hown Honce Hcr].
    constructor; rewrite ?Hg; try done.
    + intros a tex H. eapply Hlive, holdsTexture_same; done.
    + intros a b tex Ha Hb. eapply Hown; eapply holdsTexture_same; done.
  - intros ci w _ [Hlive Hown Honce Hcr].
    assert (∀ b tex, holdsTexture (addChunk ci w) b tex → holdsTexture w b tex) as Hold.
    { intros b tex. by apply holdsTexture_app with (c0 := ImageChunk.create ci (clock w)). }
    constructor; try done.
    + intros a tex H. by eapply Hlive, Hold.
    + intros a b tex Ha Hb. eapply Hown; by apply Hold.
  - intros a now w _ [Hlive Hown Honce Hcr].
    assert (∀ b tex,
              holdsTexture (modify_chunk a (ImageChunk.updateStatus REQUESTING now) w)
                b tex → holdsTexture w b tex) as Hold.
    { intros b tex H.
      eapply holdsTexture_alter in H as [[_ H]|(-> & c & Hc & Ht)]; [done| |done].
      by exists c. }
    constructor; try done.
    + intros b tex H. by eapply Hlive, Hold.
    + intros b b' tex Hb Hb'. eapply Hown; by apply Hold.
  - intros tk r g w HI Htk [Hlive Hown Honce Hcr].
    destruct (inv_tasks w HI tk Htk) as (c & Hc & _).
    destruct (resumeFetched_effect tk r g w c Hc) as (_ & Hh & _).
    pose proof (resumeFetched_glctx tk r g w c Hc) as Hg.
    destruct (fetchGl_spec w r g) as (Hd & Hn & _).
    set (w' := (resumeFetched tk r g w).1) in *.
    assert (∀ b tex, holdsTexture w' b tex →
              holdsTexture w b tex
              ∨ (b = t_chunk tk ∧ tex = next_texture (glctx w)
                 ∧ next_texture (glctx w') = S tex)) as Hcases.
    { intros b tex H.
      eapply holdsTexture_alter in H as [[_ H]|(-> & c' & Hc' & Ht)]; [by left| |done].
      simplify_eq. rewrite Hg.
      destruct (fetchEffect_texture w r g c) as [Heq|[Heq Hnext]].
      - left. exists c. split; [done | congruence].
      - right. split; [done|]. split; [congruence|]. rewrite Hnext. congruence. }
    rewrite Forall_forall in Hcr.
    constructor; rewrite ?Hg, ?Hd.
    + intros b tex H. destruct (Hcases b tex H) as [Hold|(-> & -> & Hnext)].
      * destruct (Hlive _ _ Hold). split; [lia | done].
      * rewrite Hg in Hnext. split; [lia|]. intros Hin. apply Hcr in Hin. lia.
    + intros b b' tex Hb Hb'.
      destruct (Hcases b tex Hb) as [Hold|(-> & -> & _)],
               (Hcases b' _ Hb') as [Hold'|(-> & Heq & _)]; try done.
      * by eapply Hown.
      * subst tex. apply Hlive in Hold as [? _]. lia.
      * apply Hlive in Hold' as [? _]. lia.
    + done.
    + apply Forall_forall. intros tex Hin. apply Hcr in Hin. lia.
  - intros chunkId a w _ _ [Hlive Hown Honce Hcr].
    destruct (heap w !! a) as [c|] eqn:Hc; [|by rewrite cleanupChunkAt_none].
    destruct (cleanupChunkAt_spec a w c Hc) as (_ & Hh & Hn & Hd & _).
    assert (∀ b tex, holdsTexture (cleanupChunkAt a w) b tex →
              b ≠ a ∧ holdsTexture w b tex) as Hold.
    { intros b tex. by apply holdsTexture_insert with (c0 := (ImageChunk.cleanup (glctx w) c).1). }
    assert (∀ tex, ImageChunk.texture c = Some tex → holdsTexture w a tex) as Hhere.
    { intros tex Ht. by exists c. }
    constructor; rewrite ?Hn, ?Hd.
    + intros b tex H. apply Hold in H as [Hne H].
      destruct (Hlive _ _ H) as [Hlt Hnd]. split; [done|].
      rewrite elem_of_app. intros [Hin|Hin]; [done|].
      destruct (ImageChunk.texture c) as [tex0|] eqn:Ht; [|by apply elem_of_nil in Hin].
      apply list_elem_of_singleton in Hin as ->.
      apply Hne. eapply Hown; [done|]. by apply Hhere.
    + intros b b' tex Hb Hb'. apply Hold in Hb as [_ Hb], Hb' as [_ Hb'].
      by eapply Hown.
    + destruct (ImageChunk.texture c) as [tex0|] eqn:Ht; [|by rewrite app_nil_r].
      apply NoDup_app. split_and!; [done | | apply NoDup_singleton].
      intros tex Hin Hin'. apply list_elem_of_singleton in Hin' as ->.
      by destruct (Hlive a tex0 (Hhere _ eq_refl)).
    + apply Forall_app. split; [done|].
      destruct (ImageChunk.texture c) as [tex0|] eqn:Ht; [|done].
      apply Forall_singleton. by destruct (Hlive a tex0 (Hhere _ eq_refl)).
  - intros w [Hlive Hown Honce Hcr]. by constructor.
Qed.

Lemma TexInv_reachable w : reachable w → TexInv w.
Proof.
  intros [evs ->]. apply TexInv_run; [apply Inv_newWorld|].
  constructor; simpl; try done.
  - by intros a tex (c & Hc & _).
  - by intros a b tex (c & Hc & _).
  - constructor.
Qed.

Lemma Orphan_run a tex evs w : Inv w → Orphan a tex w → Orphan a tex (run w evs).
Proof.
  apply (J_run (Orphan a tex)); clear w.
  - intros w w' Hc Hh Hg [Hun Hal Hcr Hkept Hown].
    constructor; rewrite ?Hc, ?Hh, ?Hg; try done.
    intros b H. eapply Hown, holdsTexture_same; done.
  - intros ci w _ [Hun Hal Hcr Hkept Hown]. constructor; try done.
    + intros chunkId. simpl. rewrite lookup_insert_Some.
      intros [[_ ?]|[_ ?]]; [lia | by eapply Hun].
    + simpl. rewrite length_app. lia.
    + intros b H. apply Hown.
      by apply (holdsTexture_app w _ (ImageChunk.create ci (clock w))) in H.
  - intros b now w _ [Hun Hal Hcr Hkept Hown]. constructor; try done.
    + simpl. by rewrite length_alter.
    + intros b' H. apply Hown.
      eapply holdsTexture_alter in H as [[_ H]|(-> & c & Hc & Ht)]; [done| |done].
      by exists c.
  - intros tk r g w HI Htk [Hun Hal Hcr Hkept Hown].
    destruct (inv_tasks w HI tk Htk) as (c & Hc & _).
    destruct (resumeFetched_effect tk r g w c Hc) as ((Hch & _) & Hh & _).
    pose proof (resumeFetched_glctx tk r g w c Hc) as Hg.
    destruct (fetchGl_spec w r g) as (Hd & Hn & _).
    set (w' := (resumeFetched tk r g w).1) in *.
    constructor; rewrite ?Hch, ?Hh, ?Hg, ?Hd, ?length_alter; try done; [lia|].
    intros b H.
    eapply holdsTexture_alter in H as [[_ H]|(-> & c' & Hc' & Ht)]; [by apply Hown| |done].
    simplify_eq.
    destruct (fetchEffect_texture w r g c) as [Heq|[Heq _]].
    + apply Hown. exists c. split; [done | congruence].
    + rewrite Heq in Ht. simplify_eq. lia.
  - intros chunkId b w _ Hb [Hun Hal Hcr Hkept Hown].
    destruct (heap w !! b) as [c|] eqn:Hc; [|by rewrite cleanupChunkAt_none].
    destruct (cleanupChunkAt_spec b w c Hc) as (Hch & Hh & Hn & Hd & _).
    constructor; rewrite ?Hch, ?Hh, ?Hn, ?Hd, ?length_insert; try done.
    + rewrite elem_of_app. intros [Hin|Hin]; [done|].
      destruct (ImageChunk.texture c) as [tex0|] eqn:Ht; [|by apply elem_of_nil in Hin].
      apply list_elem_of_singleton in Hin as ->.
      assert (b = a) as -> by (apply Hown; by exists c). by eapply Hun.
    + intros b' H.
      apply (holdsTexture_insert w _ b (ImageChunk.cleanup (glctx w) c).1)
        in H as [_ H]; [by apply Hown | done..].
  - intros w [Hun Hal Hcr Hkept Hown]. by constructor.
Qed.

End Textures.

(** X11: in every state the manager can reach, a texture that a chunk
    object holds has been created and is not deleted, no two objects hold
    the same texture, and no texture has been deleted twice. *)
Theorem textures_held_are_live w :
  reachable w →
  (∀ a tex, holdsTexture w a tex →
     tex < next_texture (glctx w) ∧ tex ∉ deletedTextures (glctx w))
  ∧ (∀ a b tex, holdsTexture w a tex → holdsTexture w b tex → a = b)
  ∧ NoDup (deletedTextures (glctx w)).
Proof.
  intros Hw. destruct (TexInv_reachable w Hw) as [Hlive Hown Honce _]. done.
Qed.

Lemma textures_held_are_live_witness :
  let blob := [x00; x00; x00; x01; x00; x00; x00; x01; xff; xff; xff; xff] in
  let info := {| ci_x := 0; ci_y := 0; ci_width := 1; ci_height := 1;
                 ci_chunk_x := 0; ci_chunk_y := 0 |} in
  let md := {| total_width := 1; total_height := 1; chunk_size := 1024;
               chunks_x := 1; chunks_y := 1; md_chunks := [info] |} in
  let w := run newWorld [EvSetWebGLContext; EvInitialize "a.png" md;
                         EvRequestChunk "0_0";
                         EvFetched 0 (FetchBytes blob) UploadOk] in
  (∀ a tex, holdsTexture w a tex →
     tex < next_texture (glctx w) ∧ tex ∉ deletedTextures (glctx w))
  ∧ (∀ a b tex, holdsTexture w a tex → holdsTexture w b tex → a = b)
  ∧ NoDup (deletedTextures (glctx w)).
Proof.
  intros blob info md w. apply (textures_held_are_live w). by eexists.
Defined.

Section Orphans.

Lemma orphan_never_deleted w a tex evs :
  reachable w → holdsTexture w a tex →
  (∀ chunkId, chunks w !! chunkId ≠ Some a) →
  tex ∉ deletedTextures (glctx (run w evs)).
Proof.
  intros Hw Hhold Hun.
  destruct (TexInv_reachable w Hw) as [Hlive Hown _ _].
  apply (orphan_kept a tex), Orphan_run; [by apply Inv_reachable|].
  destruct (Hlive a tex Hhold) as [Hlt Hnd].
  constructor; try done.
  - destruct Hhold as (c & Hc & _). by eapply lookup_lt_Some.
  - intros b Hb. by eapply Hown.
Qed.

Lemma processQueue_glctx w : glctx (processQueue w) = glctx w.
Proof. unfold processQueue. by repeat case_match. Qed.

Lemma requestChunk_glctx chunkId w : glctx (requestChunk chunkId w) = glctx w.
Proof.
  unfold requestChunk. repeat case_match; try done. by rewrite processQueue_glctx.
Qed.

End Orphans.

(** X12: the texture of an object the map no longer refers to is never
    deleted, whatever happens afterwards: [cleanup()] walks the map only.
    Such objects arise when the manager is initialised again or when
    [cleanup()] runs while a request is in flight. *)
Theorem unmapped_texture_never_deleted w a tex evs :
  reachable w → holdsTexture w a tex → a ∉ (map_to_list (chunks w)).*2 →
  tex ∉ deletedTextures (glctx (run w evs)).
Proof.
  intros Hw Hhold Hun. apply (orphan_never_deleted w a); [done..|].
  intros chunkId Ha. apply Hun, list_elem_of_fmap. exists (chunkId, a).
  split; [done|]. by apply elem_of_map_to_list.
Qed.

Lemma unmapped_texture_never_deleted_witness :
  let blob := [x00; x00; x00; x01; x00; x00; x00; x01; xff; xff; xff; xff] in
  let info := {| ci_x := 0; ci_y := 0; ci_width := 1; ci_height := 1;
                 ci_chunk_x := 0; ci_chunk_y := 0 |} in
  let md := {| total_width := 1; total_height := 1; chunk_size := 1024;
               chunks_x := 1; chunks_y := 1; md_chunks := [info] |} in
  let w := run newWorld [EvSetWebGLContext; EvInitialize "a.png" md;
                         EvRequestChunk "0_0";
                         EvFetched 0 (FetchBytes blob) UploadOk;
                         EvInitialize "a.png" md] in
  0 ∉ deletedTextures (glctx (run w [EvSettled 0; EvCleanup])).
Proof.
  intros blob info md w.
  apply (unmapped_texture_never_deleted w 0 0 [EvSettled 0; EvCleanup]).
  - by eexists.
  - eexists. split; [vm_compute; reflexivity | reflexivity].
  - apply (bool_decide_unpack _). vm_compute. exact I.
Defined.

(** X13: nothing but [cleanup()] with a WebGL context installed ever
    deletes a texture: not a failed upload, not a new upload into an
    object that holds a texture, not a re-initialisation. *)
Theorem only_cleanup_deletes_textures w e :
  reachable w → e ≠ EvCleanup ∨ gl w = false →
  deletedTextures (glctx (run_event w e)) = deletedTextures (glctx w).
Proof.
  intros Hw He. apply Inv_reachable in Hw as HI.
  destruct e as [| |filePath md|filePath|md|chunkId|n r g|n| |now];
    cbn [run_event]; try done.
  - unfold initializeChunksFromMetadata.
    by destruct (installMetadata_fields md (with_currentFilePath (Some filePath) w))
      as (_ & _ & _ & -> & _).
  - unfold initializeChunks_resume.
    by destruct (installMetadata_fields md w) as (_ & _ & _ & -> & _).
  - by rewrite requestChunk_glctx.
  - destruct (tasks w !! n) as [tk|] eqn:Hn; [|done].
    destruct (t_phase tk); [|done].
    destruct (inv_tasks w HI tk) as (c & Hc & _); [by eapply list_elem_of_lookup_2|].
    pose proof (resumeFetched_glctx tk r g w c Hc) as Hg.
    destruct (fetchGl_spec w r g) as (Hd & _).
    destruct (resumeFetched tk r g w) as [w' suspended]; simpl in *.
    destruct suspended; simpl; [by rewrite Hg|].
    unfold finallyBlock. rewrite processQueue_glctx. simpl. by rewrite Hg.
  - destruct (tasks w !! n) as [tk|] eqn:Hn; [|done].
    destruct (t_phase tk); [done|].
    unfold finallyBlock. by rewrite processQueue_glctx.
  - destruct He as [He|Hgl]; [done|]. unfold cleanup. by rewrite Hgl.
Qed.

Lemma only_cleanup_deletes_textures_witness :
  let blob := [x00; x00; x00; x01; x00; x00; x00; x01; xff; xff; xff; xff] in
  let info := {| ci_x := 0; ci_y := 0; ci_width := 1; ci_height := 1;
                 ci_chunk_x := 0; ci_chunk_y := 0 |} in
  let md := {| total_width := 1; total_height := 1; chunk_size := 1024;
               chunks_x := 1; chunks_y := 1; md_chunks := [info] |} in
  let w := run newWorld [EvSetWebGLContext; EvInitialize "a.png" md;
                         EvRequestChunk "0_0"] in
  deletedTextures
    (glctx (run_event w (EvFetched 0 (FetchBytes blob) TexImageThrows)))
  = deletedTextures (glctx w).
Proof.
  intros blob info md w.
  apply (only_cleanup_deletes_textures w); [by eexists | by left].
Defined.

Section Initialise.

Lemma install_heap l : ∀ w0,
  heap (foldl (λ w ci, addChunk ci w) w0 l)
  = heap w0 ++ ((λ ci, ImageChunk.create ci (clock w0)) <$> l).
Proof.
  induction l as [|ci l IH]; intros w0; simpl; [by rewrite app_nil_r|].
  rewrite IH. simpl. by rewrite <- app_assoc.
Qed.

(** What the map holds after the chunk infos [l] are installed: for every
    id of [l] the object made from its last chunk info, at a fresh
    address; for the other ids what it held before. *)
Lemma install_chunks l : ∀ w0,
  let w' := foldl (λ w ci, addChunk ci w) w0 l in
  (∀ i ci, l !! i = Some ci →
     (∀ j cj, i < j → l !! j = Some cj → infoId cj ≠ infoId ci) →
     chunks w' !! infoId ci = Some (length (heap w0) + i))
  ∧ (∀ id, id ∉ infoId <$> l → chunks w' !! id = chunks w0 !! id)
  ∧ (∀ id a, chunks w' !! id = Some a →
       (length (heap w0) ≤ a ∧ id ∈ infoId <$> l)
       ∨ (chunks w0 !! id = Some a ∧ id ∉ infoId <$> l))
  ∧ (∀ id, is_Some (chunks w' !! id)
       ↔ is_Some (chunks w0 !! id) ∨ id ∈ infoId <$> l).
Proof.
  induction l as [|c l IH] using rev_ind; intros w0; cbv zeta.
  { simpl. split_and!.
    - intros i ci Hi. by rewrite lookup_nil in Hi.
    - done.
    - intros id a Ha. right. split; [done | apply not_elem_of_nil].
    - intros id. split; [by left|]. intros [?|Hin]; [done|].
      by apply elem_of_nil in Hin. }
  destruct (IH w0) as (IH1 & IH2 & IH3 & IH4). rewrite foldl_snoc.
  set (w1 := foldl _ w0 l) in *.
  assert (chunks (addChunk c w1) = <[infoId c := length (heap w0) + length l]> (chunks w1))
    as ->.
  { unfold addChunk. simpl. subst w1. rewrite install_heap, length_app, length_fmap.
    done. }
  split_and!.
  - intros i ci Hi Hlast.
    apply lookup_app_Some in Hi as [Hi|[Hlen Hi]].
    + rewrite lookup_insert_ne.
      * apply IH1; [done|]. intros j cj Hij Hj. apply (Hlast j); [done|].
        by apply lookup_app_l_Some.
      * apply (Hlast (length l)); [by eapply lookup_lt_Some|].
        by apply list_lookup_middle.
    + apply list_lookup_singleton_Some in Hi as [Hi <-].
      rewrite lookup_insert_eq. f_equal. lia.
  - intros id Hnot. rewrite fmap_app, not_elem_of_app in Hnot.
    destruct Hnot as [Hl Hc]. simpl in Hc. rewrite not_elem_of_cons in Hc.
    rewrite lookup_insert_ne by by intros <-; destruct Hc. by apply IH2.
  - intros id a Ha. rewrite fmap_app, elem_of_app. simpl.
    rewrite list_elem_of_singleton.
    apply lookup_insert_Some in Ha as [[<- <-]|[Hne Ha]].
    + left. split; [lia|]. by right.
    + destruct (IH3 id a Ha) as [[? ?]|[? ?]]; [left; auto|right].
      split; [done|]. intros [?|?]; done.
  - intros id. rewrite lookup_insert_is_Some, IH4, fmap_app, elem_of_app. simpl.
    rewrite list_elem_of_singleton.
    destruct (decide (infoId c = id)); intuition.
Qed.

Lemma install_metadata md w : getMetadata (installMetadata md w) = Some md.
Proof.
  unfold installMetadata, getMetadata.
  assert (∀ l w0, metadata (foldl (λ w ci, addChunk ci w) w0 l) = metadata w0) as H.
  { induction l as [|ci l IH]; intros w0; simpl; [done|]. by rewrite IH. }
  by rewrite H.
Qed.

Lemma install_fields md w :
  heap (installMetadata md w)
  = heap w ++ ((λ ci, ImageChunk.create ci (clock w)) <$> md_chunks md).
Proof. unfold installMetadata. by rewrite install_heap. Qed.

(** The object the map holds for an id that the metadata names. *)
Lemma install_lookup md w i ci :
  md_chunks md !! i = Some ci →
  (∀ j cj, i < j → md_chunks md !! j = Some cj → infoId cj ≠ infoId ci) →
  chunks (installMetadata md w) !! infoId ci = Some (length (heap w) + i)
  ∧ heap (installMetadata md w) !! (length (heap w) + i)
    = Some (ImageChunk.create ci (clock w)).
Proof.
  intros Hi Hlast. split.
  - unfold installMetadata.
    destruct (install_chunks (md_chunks md) (with_metadata (Some md) w)) as (H1 & _).
    by apply H1.
  - rewrite install_fields, lookup_app_r by lia.
    replace (length (heap w) + i - length (heap w)) with i by lia.
    by rewrite list_lookup_fmap, Hi.
Qed.

End Initialise.

(** X14: after [initializeChunksFromMetadata], the map holds for every id
    of the metadata a new object made from the last chunk info with that
    id, UNREQUESTED and without pixels or texture, whatever it held for
    the id before; the ids the metadata does not name keep their objects;
    and the ids of the manager are the old ids and those of the
    metadata, which [getMetadata] returns from then on. *)
Theorem initialize_lookup filePath md w i ci :
  reachable w → md_chunks md !! i = Some ci →
  (∀ j cj, i < j → md_chunks md !! j = Some cj → infoId cj ≠ infoId ci) →
  let w' := initializeChunksFromMetadata filePath md w in
  chunkOf w' (infoId ci) = Some (ImageChunk.create ci (clock w))
  ∧ (∀ id, id ∉ infoId <$> md_chunks md → chunkOf w' id = chunkOf w id)
  ∧ (∀ id, id ∈ getAllChunkIds w'
           ↔ id ∈ getAllChunkIds w ∨ id ∈ infoId <$> md_chunks md)
  ∧ getMetadata w' = Some md.
Proof.
  intros Hw Hi Hlast. apply Inv_reachable in Hw as HI. cbv zeta.
  unfold initializeChunksFromMetadata.
  set (w0 := with_currentFilePath (Some filePath) w).
  destruct (install_lookup md w0 i ci Hi Hlast) as [Hc Hh].
  destruct (install_chunks (md_chunks md) (with_metadata (Some md) w0))
    as (_ & H2 & _ & H4).
  fold (installMetadata md w0) in H2, H4.
  split_and!.
  - unfold chunkOf. rewrite Hc. simpl. exact Hh.
  - intros id Hnot. unfold chunkOf. rewrite (H2 id Hnot).
    change (chunks (with_metadata (Some md) w0)) with (chunks w).
    destruct (chunks w !! id) as [a|] eqn:Ha; [|done]. simpl.
    destruct (inv_map w HI _ _ Ha) as (c & Hca & _).
    rewrite install_fields. by rewrite (lookup_app_l_Some _ _ _ _ Hca).
  - intros id.
    assert (∀ w1, id ∈ getAllChunkIds w1 ↔ is_Some (chunks w1 !! id)) as Hids.
    { intros w1. unfold getAllChunkIds. rewrite list_elem_of_fmap. split.
      - intros ([id' a] & -> & Hin). apply elem_of_map_to_list in Hin. by eexists.
      - intros [a Ha]. exists (id, a). split; [done|]. by apply elem_of_map_to_list. }
    rewrite !Hids. apply H4.
  - apply install_metadata.
Qed.

Lemma initialize_lookup_witness :
  let info cx cy := {| ci_x := Z.of_nat cx; ci_y := Z.of_nat cy; ci_width := 1;
                       ci_height := 1; ci_chunk_x := cx; ci_chunk_y := cy |} in
  let md := {| total_width := 2; total_height := 1; chunk_size := 1;
               chunks_x := 2; chunks_y := 1;
               md_chunks := [info 0 0; info 1 0] |} in
  let w := run newWorld [EvInitialize "a.png" md; EvRequestChunk "1_0"] in
  let w' := initializeChunksFromMetadata "b.png" md w in
  chunkOf w' (infoId (info 1 0)) = Some (ImageChunk.create (info 1 0) (clock w))
  ∧ (∀ id, id ∉ infoId <$> md_chunks md → chunkOf w' id = chunkOf w id)
  ∧ (∀ id, id ∈ getAllChunkIds w'
           ↔ id ∈ getAllChunkIds w ∨ id ∈ infoId <$> md_chunks md)
  ∧ getMetadata w' = Some md.
Proof.
  intros info md w.
  apply (initialize_lookup "b.png" md w 1 (info 1 0)).
  - by eexists.
  - reflexivity.
  - intros j cj Hj Hcj. destruct j as [|[|j]]; [lia | lia | discriminate].
Defined.

Section Reinitialise.

Lemma reachable_step w e : reachable w → reachable (run_event w e).
Proof.
  intros [evs ->]. exists (evs ++ [e]). unfold run. by rewrite foldl_snoc.
Qed.

Lemma fetchEffect_data w r g c width height pixels :
  received r = inr (width, height, pixels) →
  ImageChunk.data (fetchEffect w r g c) = Some pixels.
Proof.
  intros Hr. unfold fetchEffect. rewrite Hr.
  destruct (gl w); [|done].
  destruct g; simpl; try destruct (onChunkReady w); done.
Qed.

Lemma stats_partition (l : list ImageChunk.t) :
  length (filter (λ c, ImageChunk.status c = UNREQUESTED) l)
  + length (filter (λ c, ImageChunk.status c = REQUESTING) l)
  + length (filter (λ c, ImageChunk.status c = IN_CPU) l)
  + length (filter (λ c, ImageChunk.status c = IN_GPU) l)
  + length (filter (λ c, ImageChunk.status c = ERROR) l)
  = length l.
Proof.
  induction l as [|c l IH]; [done|].
  rewrite !filter_cons.
  destruct (ImageChunk.status c); repeat case_decide; try done; simpl; lia.
Qed.

Lemma mapped_objects w :
  Inv w →
  length (omap (λ a, heap w !! a) (map_to_list (chunks w)).*2)
  = length (getAllChunkIds w).
Proof.
  intros HI. unfold getAllChunkIds.
  assert (∀ p, p ∈ map_to_list (chunks w) → is_Some (heap w !! p.2)) as Hall.
  { intros [id a] Hin. apply elem_of_map_to_list in Hin.
    destruct (inv_map w HI _ _ Hin) as (c & Hc & _). by exists c. }
  induction (map_to_list (chunks w)) as [|p l IH]; [done|].
  rewrite !fmap_cons. destruct (Hall p) as [c Hc]; [by left|].
  cbn [omap list_omap]. rewrite Hc. cbn [length]. f_equal.
  apply IH. intros q Hq. apply Hall. by right.
Qed.

End Reinitialise.

(** X15: a texture held by the object of a chunk is never deleted once
    the manager is initialised again with metadata that names the chunk:
    the map then refers to a new object, and the old one keeps the
    texture for good. *)
Theorem reinitialisation_leaks_texture filePath md w ci a tex evs :
  reachable w → ci ∈ md_chunks md → chunks w !! infoId ci = Some a →
  holdsTexture w a tex →
  tex ∉ deletedTextures (glctx (run w (EvInitialize filePath md :: evs))).
Proof.
  intros Hw Hci Ha (c & Hc & Ht). apply Inv_reachable in Hw as HI.
  change (run w (EvInitialize filePath md :: evs))
    with (run (run_event w (EvInitialize filePath md)) evs).
  apply (orphan_never_deleted _ a); [by apply reachable_step | |].
  - exists c. split; [|done]. cbn [run_event].
    unfold initializeChunksFromMetadata. rewrite install_fields.
    by apply lookup_app_l_Some.
  - intros id Hid. cbn [run_event] in Hid.
    unfold initializeChunksFromMetadata, installMetadata in Hid.
    destruct (install_chunks (md_chunks md)
                (with_metadata (Some md) (with_currentFilePath (Some filePath) w)))
      as (_ & _ & H3 & _).
    apply H3 in Hid as [[Hle _]|[Hid Hnot]].
    + apply lookup_lt_Some in Hc. simpl in Hle. lia.
    + assert (id = infoId ci) as -> by by eapply chunks_inj.
      apply Hnot, list_elem_of_fmap. by exists ci.
Qed.

Lemma reinitialisation_leaks_texture_witness :
  let blob := [x00; x00; x00; x01; x00; x00; x00; x01; xff; xff; xff; xff] in
  let info := {| ci_x := 0; ci_y := 0; ci_width := 1; ci_height := 1;
                 ci_chunk_x := 0; ci_chunk_y := 0 |} in
  let md := {| total_width := 1; total_height := 1; chunk_size := 1024;
               chunks_x := 1; chunks_y := 1; md_chunks := [info] |} in
  let w := run newWorld [EvSetWebGLContext; EvInitialize "a.png" md;
                         EvRequestChunk "0_0";
                         EvFetched 0 (FetchBytes blob) UploadOk] in
  0 ∉ deletedTextures
        (glctx (run w [EvInitialize "a.png" md; EvSettled 0; EvCleanup])).
Proof.
  intros blob info md w.
  apply (reinitialisation_leaks_texture "a.png" md w info 0 0
           [EvSettled 0; EvCleanup]).
  - by eexists.
  - by left.
  - vm_compute. reflexivity.
  - eexists. split; [vm_compute; reflexivity | reflexivity].
Defined.

(** X16: a reply that arrives after the manager was initialised again is
    written to the object the request started with: the chunks the map
    now holds for the ids of the metadata stay as created, also the one
    with the id of the request, and the pixels are in the old object. *)
Theorem stale_reply_misses_new_chunk filePath md w n tk r g width height pixels i ci :
  reachable w → tasks w !! n = Some tk → t_phase tk = AwaitFetch →
  received r = inr (width, height, pixels) →
  md_chunks md !! i = Some ci →
  (∀ j cj, i < j → md_chunks md !! j = Some cj → infoId cj ≠ infoId ci) →
  let w' := run w [EvInitialize filePath md; EvFetched n r g] in
  chunkOf w' (infoId ci) = Some (ImageChunk.create ci (clock w))
  ∧ ∃ c, heap w' !! t_chunk tk = Some c ∧ ImageChunk.data c = Some pixels.
Proof.
  intros Hw Hn Hphase Hr Hi Hlast. apply Inv_reachable in Hw as HI. cbv zeta.
  change (run w [EvInitialize filePath md; EvFetched n r g])
    with (run_event (initializeChunksFromMetadata filePath md w) (EvFetched n r g)).
  unfold initializeChunksFromMetadata.
  set (w0 := with_currentFilePath (Some filePath) w).
  set (w1 := installMetadata md w0).
  assert (Inv w1) as HI1 by by apply (Inv_initialize filePath md w).
  destruct (install_lookup md w0 i ci Hi Hlast) as [Hc Hh]. fold w1 in Hc, Hh.
  destruct (installMetadata_fields md w0) as (_ & _ & Ht & _). fold w1 in Ht.
  assert (tasks w1 !! n = Some tk) as Hn1 by by rewrite Ht.
  destruct (inv_tasks w HI tk) as (c & Hck & _); [by eapply list_elem_of_lookup_2|].
  assert (heap w1 !! t_chunk tk = Some c) as Hck1.
  { subst w1. rewrite install_fields. by apply lookup_app_l_Some. }
  destruct (resumeFetched_effect tk r g w1 c Hck1) as ((Hch & _) & Hheap & _ & Hs).
  cbn [run_event]. rewrite Hn1, Hphase.
  destruct (resumeFetched tk r g w1) as [w2 suspended]. simpl in Hch, Hheap, Hs.
  rewrite Hr in Hs. subst suspended.
  split.
  - unfold chunkOf. cbn [chunks heap with_tasks]. rewrite Hch, Hc. simpl.
    rewrite Hheap, list_lookup_alter_ne; [done|].
    apply lookup_lt_Some in Hck. change (heap w0) with (heap w). lia.
  - cbn [heap with_tasks]. rewrite Hheap, list_lookup_alter_eq, Hck1. simpl.
    eexists. split; [done|]. by eapply fetchEffect_data.
Qed.

Lemma stale_reply_misses_new_chunk_witness :
  let blob := [x00; x00; x00; x01; x00; x00; x00; x01; xff; xff; xff; xff] in
  let info := {| ci_x := 0; ci_y := 0; ci_width := 1; ci_height := 1;
                 ci_chunk_x := 0; ci_chunk_y := 0 |} in
  let md := {| total_width := 1; total_height := 1; chunk_size := 1024;
               chunks_x := 1; chunks_y := 1; md_chunks := [info] |} in
  let w := run newWorld [EvSetWebGLContext; EvInitialize "a.png" md;
                         EvRequestChunk "0_0"] in
  let w' := run w [EvInitialize "a.png" md;
                   EvFetched 0 (FetchBytes blob) UploadOk] in
  chunkOf w' (infoId info) = Some (ImageChunk.create info (clock w))
  ∧ ∃ c, heap w' !! 0 = Some c ∧ ImageChunk.data c = Some [xff; xff; xff; xff].
Proof.
  intros blob info md w.
  apply (stale_reply_misses_new_chunk "a.png" md w 0 (newTask "0_0" 0)
           (FetchBytes blob) UploadOk 1 1 [xff; xff; xff; xff] 0 info).
  - by eexists.
  - vm_compute. reflexivity.
  - reflexivity.
  - vm_compute. reflexivity.
  - reflexivity.
  - intros j cj Hj Hcj. destruct j as [|j]; [lia | discriminate].
Defined.

(** X17: the counts of [getStatusStats] add up to the number of ids of
    the manager: every chunk of the map is counted under exactly one
    status, and the number of loaded chunks never exceeds the number of
    ids, the fraction [loadAllChunks] prints. *)
Theorem status_stats_partition w :
  reachable w →
  getStatusStats w UNREQUESTED + getStatusStats w REQUESTING
  + getStatusStats w IN_CPU + getStatusStats w IN_GPU + getStatusStats w ERROR
  = length (getAllChunkIds w)
  ∧ length (getLoadedChunks w) = getStatusStats w IN_GPU
  ∧ getStatusStats w IN_GPU ≤ length (getAllChunkIds w).
Proof.
  intros Hw. apply Inv_reachable in Hw.
  pose proof (mapped_objects w Hw) as Hlen.
  pose proof (stats_partition (omap (λ a, heap w !! a) (map_to_list (chunks w)).*2))
    as Hsum.
  unfold getStatusStats, getLoadedChunks. split_and!; [lia | done | lia].
Qed.

Lemma status_stats_partition_witness :
  let info cx cy := {| ci_x := Z.of_nat cx; ci_y := Z.of_nat cy; ci_width := 1;
                       ci_height := 1; ci_chunk_x := cx; ci_chunk_y := cy |} in
  let md := {| total_width := 2; total_height := 1; chunk_size := 1;
               chunks_x := 2; chunks_y := 1;
               md_chunks := [info 0 0; info 1 0] |} in
  let w := run newWorld [EvInitialize "a.png" md; EvRequestChunk "1_0"] in
  getStatusStats w UNREQUESTED + getStatusStats w REQUESTING
  + getStatusStats w IN_CPU + getStatusStats w IN_GPU + getStatusStats w ERROR
  = length (getAllChunkIds w)
  ∧ length (getLoadedChunks w) = getStatusStats w IN_GPU
  ∧ getStatusStats w IN_GPU ≤ length (getAllChunkIds w).
Proof.
  intros info md w. apply (status_stats_partition w). by eexists.
Defined.

(** X18: every chunk [getLoadedChunks] returns holds a texture that has
    been created and not deleted, so the renderer never binds a deleted
    texture. *)
Theorem loaded_chunks_have_live_textures w c :
  reachable w → c ∈ getLoadedChunks w →
  ∃ tex, ImageChunk.texture c = Some tex
         ∧ tex < next_texture (glctx w) ∧ tex ∉ deletedTextures (glctx w).
Proof.
  intros Hw Hin. apply Inv_reachable in Hw as HI.
  destruct (TexInv_reachable w Hw) as [Hlive _ _ _].
  unfold getLoadedChunks in Hin.
  apply list_elem_of_filter in Hin as [Hst Hin].
  apply list_elem_of_omap in Hin as (a & _ & Hc).
  pose proof (inv_heap w HI) as Hgood. rewrite Forall_lookup in Hgood.
  destruct (Hgood _ _ Hc) as (_ & Htex & _).
  destruct (Htex Hst) as [tex Ht]. exists tex. split; [done|].
  apply (Hlive a). by exists c.
Qed.

Lemma loaded_chunks_have_live_textures_witness :
  let blob := [x00; x00; x00; x01; x00; x00; x00; x01; xff; xff; xff; xff] in
  let info := {| ci_x := 0; ci_y := 0; ci_width := 1; ci_height := 1;
                 ci_chunk_x := 0; ci_chunk_y := 0 |} in
  let md := {| total_width := 1; total_height := 1; chunk_size := 1024;
               chunks_x := 1; chunks_y := 1; md_chunks := [info] |} in
  let w := run newWorld [EvSetWebGLContext; EvInitialize "a.png" md;
                         EvRequestChunk "0_0";
                         EvFetched 0 (FetchBytes blob) UploadOk] in
  let c := default (ImageChunk.create info 0) (head (getLoadedChunks w)) in
  ∃ tex, ImageChunk.texture c = Some tex
         ∧ tex < next_texture (glctx w) ∧ tex ∉ deletedTextures (glctx w).
Proof.
  intros blob info md w c.
  apply (loaded_chunks_have_live_textures w c).
  - by eexists.
  - vm_compute. apply list_elem_of_In. simpl. auto.
Defined.

(** X19: [cleanup()] cancels nothing: the requests in flight stay
    suspended, and when one of them ends afterwards its [finally] block
    takes the counter, which [cleanup()] has set to 0, down to -1. *)
Theorem cleanup_keeps_requests_in_flight w n tk :
  tasks w !! n = Some tk → t_phase tk = AwaitUpload →
  let w' := run w [EvCleanup; EvSettled n] in
  tasks (cleanup w) = tasks w
  ∧ activeRequests w' = (-1)%Z ∧ tasks w' = delete n (tasks w).
Proof.
  intros Hn Hphase. cbv zeta.
  destruct (cleanup_control w) as (Hq & Ht & _).
  change (run w [EvCleanup; EvSettled n]) with (run_event (cleanup w) (EvSettled n)).
  cbn [run_event]. rewrite Ht, Hn, Hphase. split; [done|].
  unfold finallyBlock. rewrite processQueue_empty by done. split.
  - reflexivity.
  - reflexivity.
Qed.

Lemma cleanup_keeps_requests_in_flight_witness :
  let blob := [x00; x00; x00; x01; x00; x00; x00; x01; xff; xff; xff; xff] in
  let info := {| ci_x := 0; ci_y := 0; ci_width := 1; ci_height := 1;
                 ci_chunk_x := 0; ci_chunk_y := 0 |} in
  let md := {| total_width := 1; total_height := 1; chunk_size := 1024;
               chunks_x := 1; chunks_y := 1; md_chunks := [info] |} in
  let w := run newWorld [EvSetWebGLContext; EvInitialize "a.png" md;
                         EvRequestChunk "0_0";
                         EvFetched 0 (FetchBytes blob) UploadOk] in
  let w' := run w [EvCleanup; EvSettled 0] in
  tasks (cleanup w) = tasks w
  ∧ activeRequests w' = (-1)%Z ∧ tasks w' = delete 0 (tasks w).
Proof.
  intros blob info md w.
  apply (cleanup_keeps_requests_in_flight w 0 (suspendAtUpload (newTask "0_0" 0))).
  - vm_compute. reflexivity.
  - reflexivity.
Defined.

(** X20: an id that waits in the queue is never empty and always has a
    chunk in the map, under its own id; so when [processQueue] takes an id
    from the queue, neither of its two defensive exits, for an empty id
    and for an id without chunk, applies to it. *)
Theorem queue_holds_known_ids w chunkId :
  reachable w → chunkId ∈ requestQueue w →
  chunkId ≠ "" ∧ ∃ c, chunkOf w chunkId = Some c ∧ ImageChunk.id c = chunkId.
Proof.
  intros Hw Hin. apply Inv_reachable in Hw as HI.
  destruct (queued_id_known w chunkId HI Hin) as (Hne & a & c & Ha & Hc).
  split; [done|]. exists c. unfold chunkOf. rewrite Ha. simpl. split; [done|].
  destruct (inv_map w HI _ _ Ha) as (c' & Hc' & Hid). congruence.
Qed.

Lemma queue_holds_known_ids_witness :
  let info cx cy := {| ci_x := Z.of_nat cx; ci_y := Z.of_nat cy; ci_width := 1;
                       ci_height := 1; ci_chunk_x := cx; ci_chunk_y := cy |} in
  let md := {| total_width := 2; total_height := 2; chunk_size := 1;
               chunks_x := 2; chunks_y := 2;
               md_chunks := [info 0 0; info 1 0; info 0 1; info 1 1] |} in
  let w := run newWorld
             [EvInitialize "a.png" md; EvRequestChunk "1_1"; EvRequestChunk "0_0";
              EvRequestChunk "1_0"; EvRequestChunk "0_1"] in
  "0_1" ≠ "" ∧ ∃ c, chunkOf w "0_1" = Some c ∧ ImageChunk.id c = "0_1".
Proof.
  intros info md w. apply (queue_holds_known_ids w "0_1").
  - by eexists.
  - vm_compute. apply list_elem_of_In. simpl. auto.
Defined.
